(** * A path-addressed configuration store (configuration.py)

    Shallow embedding of [src/configuration.py], the properties its
    specification states about it, and further properties read off the
    code.

    The Python code keeps the configuration as nested [dict] objects that are
    mutated in place and stored by reference, so the embedding has an
    explicit object store: a value is a scalar or a reference to a [dict] or
    [list] object, and every function threads the store.  Exceptions are
    results; the store survives a raised exception, as it does in Python. *)

From stdpp Require Import gmap strings list fin_maps.
From Stdlib Require Import ZArith Ascii String.

#[local] Set Warnings "-register-all".
#[local] Open Scope string_scope.

(** ** Values and the object store *)

Definition loc := positive.

(** Python values as this program meets them: [None], booleans, integers,
    strings, and references to mutable container objects. *)
Inductive val :=
  | VNone
  | VBool (b : bool)
  | VInt (z : Z)
  | VStr (s : string)
  | VRef (l : loc).

Inductive obj :=
  | ODict (m : gmap string val)
  | OList (xs : list val).

Abbreviation heap := (gmap loc obj).

(** A parsed JSON document, what [json.load] reads and [json.dump] writes. *)
Inductive json :=
  | JNull
  | JBool (b : bool)
  | JNum (z : Z)
  | JStr (s : string)
  | JArr (xs : list json)
  | JObj (m : gmap string json).

(** The exceptions the module raises or lets through. *)
Inductive exn :=
  | KeyError
  | TypeError
  | ValueError
  | IOError
  | AttributeError
  | NotImplementedError.

Inductive result (A : Type) :=
  | Ok (a : A)
  | Raise (e : exn).
Arguments Ok {A} a.
Arguments Raise {A} e.

#[global] Instance val_eq_dec : EqDecision val.
Proof. solve_decision. Defined.
#[global] Instance exn_eq_dec : EqDecision exn.
Proof. solve_decision. Defined.

(** ** Strings: [str.split] *)

(** [k.split(".")]: the pieces between the separators; never the empty list,
    and [[""]] for the empty string. *)
Fixpoint split (sep : ascii) (s : string) : list string :=
  match s with
  | EmptyString => [EmptyString]
  | String c r =>
      if Ascii.eqb c sep then EmptyString :: split sep r
      else match split sep r with
           | [] => [String c EmptyString]
           | w :: ws => String c w :: ws
           end
  end.

Definition dot : ascii := "."%char.

(** ** Item access on objects *)

(** [isinstance(v, MutableMapping)] *)
Definition is_mapping (h : heap) (v : val) : bool :=
  match v with
  | VRef l => match h !! l with Some (ODict _) => true | _ => false end
  | _ => false
  end.

(** [d[k]] for a string [k]: a [dict] looks the key up ([KeyError] when it is
    absent); a list, a string, a number, [None] raise [TypeError]. *)
Definition getitem (h : heap) (d : val) (k : string) : result val :=
  match d with
  | VRef l =>
      match h !! l with
      | Some (ODict m) =>
          match m !! k with
          | Some v => Ok v
          | None => Raise KeyError
          end
      | _ => Raise TypeError
      end
  | _ => Raise TypeError
  end.

(** [d[k] = v] for a string [k]: updates the [dict] object in place. *)
Definition setitem (h : heap) (d : val) (k : string) (v : val) : result heap :=
  match d with
  | VRef l =>
      match h !! l with
      | Some (ODict m) => Ok (<[l := ODict (<[k := v]> m)]> h)
      | _ => Raise TypeError
      end
  | _ => Raise TypeError
  end.

(** Allocation of a new object. *)
Definition alloc_obj (h : heap) (o : obj) : heap * val :=
  let l := fresh (dom h) in (<[l := o]> h, VRef l).

(** [dict()] *)
Definition new_dict (h : heap) : heap * val := alloc_obj h (ODict ∅).

(** ** ConfigurationProvider: the path engine *)

(** [reduce(lambda d, k: d[k], ks, d)] *)
Fixpoint reduce_getitem (h : heap) (ks : list string) (d : val) : result val :=
  match ks with
  | [] => Ok d
  | k :: ks' =>
      match getitem h d k with
      | Ok v => reduce_getitem h ks' v
      | Raise e => Raise e
      end
  end.

(** [ConfigurationProvider.get_val] on the provider's [configuration]: the
    whole configuration for the empty key; otherwise the value found along
    the path, and [None] whatever went wrong (the bare [except]). *)
Definition get_val (h : heap) (configuration : val) (key : string) : val :=
  if decide (key = "") then configuration
  else match reduce_getitem h (split dot key) configuration with
       | Ok v => v
       | Raise _ => VNone
       end.

(** The [for key in keys] loop of [_search_and_replace]; the result is the
    final [temp_dict]. *)
Fixpoint sr_loop (h : heap) (temp_dict : val) (keys : list string)
  : result val * heap :=
  match keys with
  | [] => (Ok temp_dict, h)
  | key :: keys' =>
      let replace :=
        (* val = temp_dict[key] = dict() *)
        let '(h1, d) := new_dict h in
        match setitem h1 temp_dict key d with
        | Ok h2 => sr_loop h2 d keys'
        | Raise e => (Raise e, h1)
        end in
      match getitem h temp_dict key with
      | Ok v => if is_mapping h v then sr_loop h v keys' else replace
      | Raise KeyError => replace
      | Raise e => (Raise e, h)
      end
  end.

(** [key_list[:-1]], [key_list[-1]] *)
Definition init_keys (key_list : list string) : list string := removelast key_list.
Definition last_key (key_list : list string) : string := List.last key_list "".

(** [ConfigurationProvider._search_and_replace(d, k, v)] *)
Definition _search_and_replace (h : heap) (d : val) (k : string) (v : val)
  : result unit * heap :=
  let key_list := split dot k in
  let keys := init_keys key_list in
  let newkey := last_key key_list in
  match sr_loop h d keys with
  | (Ok temp_dict, h1) =>
      match setitem h1 temp_dict newkey v with
      | Ok h2 => (Ok tt, h2)
      | Raise e => (Raise e, h1)
      end
  | (Raise e, h1) => (Raise e, h1)
  end.

(** ** JSON documents and the object store *)

(** What [json.load] builds for a document: new objects, children first. *)
Fixpoint alloc (t : json) (h : heap) : heap * val :=
  match t with
  | JNull => (h, VNone)
  | JBool b => (h, VBool b)
  | JNum z => (h, VInt z)
  | JStr s => (h, VStr s)
  | JArr xs =>
      let '(h1, vs) :=
        foldr (fun t' '(h0, vs) => let '(h1, v) := alloc t' h0 in (h1, v :: vs))
              (h, []) xs in
      alloc_obj h1 (OList vs)
  | JObj m =>
      let '(h1, vm) :=
        map_fold (fun k t' '(h0, vm) =>
                    let '(h1, v) := alloc t' h0 in (h1, <[k := v]> vm))
                 (h, ∅) m in
      alloc_obj h1 (ODict vm)
  end.

(** The document [json.dump] writes for a value, read off the store to
    depth [n]; [None] when the structure is deeper than [n]. *)
Fixpoint reify (n : nat) (h : heap) (v : val) : option json :=
  match v with
  | VNone => Some JNull
  | VBool b => Some (JBool b)
  | VInt z => Some (JNum z)
  | VStr s => Some (JStr s)
  | VRef l =>
      match n with
      | O => None
      | S n' =>
          match h !! l with
          | Some (ODict m) =>
              let m' := reify n' h <$> m in
              if decide (map_Forall (fun _ o => is_Some o) m')
              then Some (JObj (omap id m')) else None
          | Some (OList xs) => JArr <$> mapM (reify n' h) xs
          | None => None
          end
      end
  end.

(** A structure without cycles is no deeper than the number of objects, so
    this depth reads all of it; a cyclic one has no document
    ([json.dump] raises [ValueError], circular reference). *)
Definition json_of (h : heap) (v : val) : option json := reify (S (size h)) h v.

(** ** Files *)

(** A file holds text, or what an interrupted [json.dump] left behind, which
    is never a document. *)
Inductive content (bytes : Type) :=
  | Text (b : bytes)
  | Partial.
Arguments Text {bytes} b.
Arguments Partial {bytes}.

Record file (bytes : Type) := File_ {
  f_content : content bytes;
  f_readable : bool;
  f_writable : bool;
}.
Arguments File_ {bytes}.
Arguments f_content {bytes}.
Arguments f_readable {bytes}.
Arguments f_writable {bytes}.

(** The provider classes of the module. *)
Inductive kind :=
  | ConfigurationProvider
  | ConfigurationProviderFile
  | ConfigurationProviderConsul.

#[global] Instance kind_eq_dec : EqDecision kind.
Proof. solve_decision. Defined.

(** What the program runs in: the object store, the file system, and the
    record of the [import_config] calls made so far (class and settings). *)
Record world (bytes : Type) := World {
  w_heap : heap;
  w_fs : gmap string (file bytes);
  w_loads : list (kind * gmap string val);
}.
Arguments World {bytes}.
Arguments w_heap {bytes}.
Arguments w_fs {bytes}.
Arguments w_loads {bytes}.

(** [open(path, "r")] then reading all of it. *)
Definition read_file {bytes} (fs : gmap string (file bytes)) (path : val)
  : result (content bytes) :=
  match path with
  | VStr p =>
      match fs !! p with
      | Some f => if f_readable f then Ok (f_content f) else Raise IOError
      | None => Raise IOError
      end
  | _ => Raise TypeError
  end.

(** [open(path, "w+")]: the file is created if missing, and must be writable
    if present; [c] is what it holds once the [with] block is left. *)
Definition write_file {bytes} (fs : gmap string (file bytes)) (path : val)
  (c : content bytes) : result (gmap string (file bytes)) :=
  match path with
  | VStr p =>
      match fs !! p with
      | Some f =>
          if f_writable f then Ok (<[p := File_ c (f_readable f) true]> fs)
          else Raise IOError
      | None => Ok (<[p := File_ c true true]> fs)
      end
  | _ => Raise TypeError
  end.

(** A provider object: its class and its two attributes. *)
Record provider := Provider {
  p_class : kind;
  config_settings : gmap string val;
  configuration : val;
}.

(** The dict passed to [Configuration]: [None] is an absent key. *)
Record descriptor := Descriptor {
  ds_type : option string;
  ds_settings : option (gmap string val);
}.

(** The [Configuration] object. *)
Record Configuration := Config {
  config_source : descriptor;
  _provider : provider;
}.

(** The module's attributes whose name starts with [ConfigurationProvider]. *)
Definition module_attr (name : string) : option kind :=
  if decide (name = "ConfigurationProvider") then Some ConfigurationProvider
  else if decide (name = "ConfigurationProviderFile") then Some ConfigurationProviderFile
  else if decide (name = "ConfigurationProviderConsul") then Some ConfigurationProviderConsul
  else None.

(** [settings["source"]] *)
Definition source_of (settings : gmap string val) : result val :=
  match settings !! "source" with
  | Some p => Ok p
  | None => Raise KeyError
  end.

(** What a call of [import_config] did: assigned [self.configuration] (and
    returned [None]), or returned [False]. *)
Inductive imported :=
  | Loaded (configuration : val)
  | ReturnedFalse.

(** ** The providers and the [Configuration] object

    [json.dump] and [json.load] are the library's: the text they write and
    parse is a parameter of the development. *)
Section Codec.
Context {bytes : Type}.
Variable json_dump : json -> bytes.
Variable json_load : bytes -> option json.

Definition with_heap (w : world bytes) (h : heap) : world bytes :=
  World h (w_fs w) (w_loads w).

Definition with_fs (w : world bytes) (fs : gmap string (file bytes)) : world bytes :=
  World (w_heap w) fs (w_loads w).

(** [json.load(config_file)] on what was read. *)
Definition parse (c : content bytes) : option json :=
  match c with
  | Text b => json_load b
  | Partial => None
  end.

(** [import_config] of each class. *)
Definition import_config (k : kind) (settings : gmap string val) (w : world bytes)
  : result imported * world bytes :=
  let w := World (w_heap w) (w_fs w) (w_loads w ++ [(k, settings)]) in
  match k with
  | ConfigurationProviderFile =>
      match source_of settings with
      | Raise _ => (Ok ReturnedFalse, w)
      | Ok path =>
          match read_file (w_fs w) path with
          | Raise _ => (Ok ReturnedFalse, w)
          | Ok c =>
              match parse c with
              | None => (Ok ReturnedFalse, w)
              | Some t =>
                  let '(h, v) := alloc t (w_heap w) in
                  (Ok (Loaded v), with_heap w h)
              end
          end
      end
  | _ => (Raise NotImplementedError, w)
  end.

(** [ConfigurationProvider.__init__], run for class [k]. *)
Definition new_provider (k : kind) (config_settings : gmap string val)
  (w : world bytes) : result provider * world bytes :=
  match import_config k config_settings w with
  | (Raise e, w1) => (Raise e, w1)
  | (Ok ReturnedFalse, w1) =>
      (* raise IOError("...".format(config_settings['source'])) *)
      match source_of config_settings with
      | Raise e => (Raise e, w1)
      | Ok _ => (Raise IOError, w1)
      end
  | (Ok (Loaded c), w1) => (Ok (Provider k config_settings c), w1)
  end.

(** [json.dump(v, config_file, ...)] into the file just opened with
    ["w+"]: the document, or a torn file and [ValueError]. *)
Definition dump_to (path : val) (v : val) (w : world bytes)
  : result unit * world bytes :=
  match json_of (w_heap w) v with
  | Some t =>
      match write_file (w_fs w) path (Text (json_dump t)) with
      | Ok fs => (Ok tt, with_fs w fs)
      | Raise e => (Raise e, w)
      end
  | None =>
      match write_file (w_fs w) path Partial with
      | Ok fs => (Raise ValueError, with_fs w fs)
      | Raise e => (Raise e, w)
      end
  end.

(** [save_value] of each class. *)
Definition save_value (self : provider) (key : string) (value : val)
  (w : world bytes) : result unit * world bytes :=
  match p_class self with
  | ConfigurationProviderFile =>
      match source_of (config_settings self) with
      | Raise e => (Raise e, w)
      | Ok path =>
          match read_file (w_fs w) path with
          | Raise e => (Raise e, w)
          | Ok c =>
              match parse c with
              | None => (Raise ValueError, w)
              | Some t =>
                  let '(h1, temp_config) := alloc t (w_heap w) in
                  match _search_and_replace h1 temp_config key value with
                  | (Raise e, h2) => (Raise e, with_heap w h2)
                  | (Ok _, h2) => dump_to path temp_config (with_heap w h2)
                  end
              end
          end
      end
  | _ => (Raise NotImplementedError, w)
  end.

(** [save_all] of each class. *)
Definition save_all (self : provider) (w : world bytes)
  : result unit * world bytes :=
  match p_class self with
  | ConfigurationProviderFile =>
      match source_of (config_settings self) with
      | Raise e => (Raise e, w)
      | Ok path => dump_to path (configuration self) w
      end
  | _ => (Raise NotImplementedError, w)
  end.

(** [ConfigurationProvider.set_val] *)
Definition set_val (self : provider) (key : string) (value : val)
  (w : world bytes) : result val * world bytes :=
  match _search_and_replace (w_heap w) (configuration self) key value with
  | (Raise e, h1) => (Raise e, with_heap w h1)
  | (Ok _, h1) =>
      match save_value self key value (with_heap w h1) with
      | (Raise e, w2) => (Raise e, w2)
      | (Ok _, w2) => (Ok (get_val (w_heap w2) (configuration self) key), w2)
      end
  end.

(** [Configuration.get_class], on the [config_source] it reads. *)
Definition get_class (config_source : descriptor) : result kind :=
  match ds_type config_source with
  | None => Raise KeyError
  | Some ty =>
      match module_attr ("ConfigurationProvider" ++ ty) with
      | Some k => Ok k
      | None => Raise AttributeError
      end
  end.

(** [self.get_class()(self.config_source["settings"])]: the class is
    looked up before the argument is evaluated. *)
Definition make_provider (config_source : descriptor) (w : world bytes)
  : result provider * world bytes :=
  match get_class config_source with
  | Raise e => (Raise e, w)
  | Ok k =>
      match ds_settings config_source with
      | None => (Raise KeyError, w)
      | Some settings => new_provider k settings w
      end
  end.

(** [Configuration.__init__] *)
Definition Configuration_init (config_source : descriptor) (w : world bytes)
  : result Configuration * world bytes :=
  match ds_type config_source with
  | None => (Raise KeyError, w)
  | Some ty =>
      if decide (ty = "") then (Raise ValueError, w)
      else
        match make_provider config_source w with
        | (Raise e, w1) => (Raise e, w1)
        | (Ok p, w1) => (Ok (Config config_source p), w1)
        end
  end.

(** [Configuration.get_val], [Configuration.set_val] *)
Definition Configuration_get_val (self : Configuration) (key : string)
  (w : world bytes) : val :=
  get_val (w_heap w) (configuration (_provider self)) key.

Definition Configuration_set_val (self : Configuration) (key : string)
  (value : val) (w : world bytes) : result val * world bytes :=
  set_val (_provider self) key value w.

(** [Configuration.switch_provider]: the object itself is part of the
    outcome, since an exception leaves it as it then is. *)
Definition switch_provider (self : Configuration) (config_source' : descriptor)
  (overwrite : bool) (w : world bytes)
  : result unit * Configuration * world bytes :=
  (* self.config_source = config_source *)
  let self := Config config_source' (_provider self) in
  match make_provider (config_source self) w with
  | (Raise e, w1) => (Raise e, self, w1)
  | (Ok new_provider, w1) =>
      let new_provider :=
        if overwrite then new_provider
        else Provider (p_class new_provider) (config_settings new_provider)
                      (configuration (_provider self)) in
      (Ok tt, Config (config_source self) new_provider, w1)
  end.

(** [Configuration.import_config]: the provider's [import_config], which
    rebinds the provider's [configuration] when it loads; what is returned
    is [None] then, and [False] when nothing was loaded. *)
Definition Configuration_import_config (self : Configuration) (w : world bytes)
  : result val * Configuration * world bytes :=
  let p := _provider self in
  match import_config (p_class p) (config_settings p) w with
  | (Raise e, w1) => (Raise e, self, w1)
  | (Ok ReturnedFalse, w1) => (Ok (VBool false), self, w1)
  | (Ok (Loaded c), w1) =>
      (Ok VNone,
       Config (config_source self) (Provider (p_class p) (config_settings p) c),
       w1)
  end.

(** The methods of the provider classes. *)
Inductive method :=
  | m___init__
  | m_import_config
  | m_save_all
  | m_save_value
  | m_get_val
  | m__search_and_replace
  | m_set_val.

(** What the body of each class defines, by name. *)
Definition class_dict (k : kind) (name : string) : option method :=
  match k with
  | ConfigurationProvider =>
      if decide (name = "__init__") then Some m___init__
      else if decide (name = "import_config") then Some m_import_config
      else if decide (name = "save_all") then Some m_save_all
      else if decide (name = "save_value") then Some m_save_value
      else if decide (name = "get_val") then Some m_get_val
      else if decide (name = "_search_and_replace") then Some m__search_and_replace
      else if decide (name = "set_val") then Some m_set_val
      else None
  | ConfigurationProviderFile | ConfigurationProviderConsul =>
      if decide (name = "__init__") then Some m___init__
      else if decide (name = "import_config") then Some m_import_config
      else if decide (name = "save_value") then Some m_save_value
      else if decide (name = "save_all") then Some m_save_all
      else None
  end.

(** The classes searched for an attribute of an instance of [k], in order
    ([object], searched last, has no method the module calls). *)
Definition mro (k : kind) : list kind :=
  match k with
  | ConfigurationProvider => [ConfigurationProvider]
  | _ => [k; ConfigurationProvider]
  end.

(** Looking a method up on a provider object. *)
Definition find_method (k : kind) (name : string) : option method :=
  foldr (fun c later =>
           match class_dict c name with
           | Some m => Some m
           | None => later
           end)
        None (mro k).

(** A call with no argument of a method found on the provider of [self]. *)
Definition call0 (self : Configuration) (m : method) (w : world bytes)
  : result val * Configuration * world bytes :=
  match m with
  | m_import_config => Configuration_import_config self w
  | m_save_all =>
      match save_all (_provider self) w with
      | (Ok _, w1) => (Ok VNone, self, w1)
      | (Raise e, w1) => (Raise e, self, w1)
      end
  | m_get_val => (Ok (get_val (w_heap w) (configuration (_provider self)) ""), self, w)
  | _ => (Raise TypeError, self, w)
  end.

(** [Configuration.save]: [self._provider.save()]. *)
Definition Configuration_save (self : Configuration) (w : world bytes)
  : result val * Configuration * world bytes :=
  match find_method (p_class (_provider self)) "save" with
  | Some m => call0 self m w
  | None => (Raise AttributeError, self, w)
  end.


End Codec.

(** * Notions used in the statements and proofs *)

(** The mappings a walk from [d] along [keys] goes through, in order. *)
Fixpoint visited (h : heap) (d : val) (keys : list string) : list loc :=
  match d with
  | VRef l =>
      match h !! l with
      | Some (ODict m) =>
          l :: match keys with
               | [] => []
               | k :: ks =>
                   match m !! k with
                   | Some v => visited h v ks
                   | None => []
                   end
               end
      | _ => []
      end
  | _ => []
  end.

(** No walk from [root] meets the same mapping twice. *)
Definition acyclic (h : heap) (root : val) : Prop :=
  ∀ keys, NoDup (visited h root keys).

(** No mapping is reached from [root] along two different paths. *)
Definition unshared (h : heap) (root : val) : Prop :=
  ∀ p q l,
    reduce_getitem h p root = Ok (VRef l) →
    reduce_getitem h q root = Ok (VRef l) →
    is_mapping h (VRef l) = true →
    p = q.

(** Every reference kept in a mapping points to an object of the store. *)
Definition closed (h : heap) : Prop :=
  ∀ l m k l', h !! l = Some (ODict m) → m !! k = Some (VRef l') → is_Some (h !! l').

Definition val_ok (h : heap) (v : val) : Prop :=
  ∀ l, v = VRef l → is_Some (h !! l).

(** The value [get_val] returns for a non-empty key. *)
Definition walk (h : heap) (ks : list string) (d : val) : val :=
  match reduce_getitem h ks d with
  | Ok v => v
  | Raise _ => VNone
  end.

(** The store after [val = temp_dict[key] = dict()] at mapping [l]. *)
Definition replaced (h : heap) (l : loc) (m : gmap string val) (k : string) : heap :=
  <[l := ODict (<[k := VRef (fresh (dom h))]> m)]> (<[fresh (dom h) := ODict ∅]> h).

(** The entries of a mapping and of the document it denotes, key by key. *)
Definition entries_match (n : nat) (h : heap) (m : gmap string val)
  (jm : gmap string json) : Prop :=
  ∀ k, match m !! k, jm !! k with
       | Some x, Some tx => reify n h x = Some tx
       | None, None => True
       | _, _ => False
       end.

Fixpoint jsize (t : json) : nat :=
  match t with
  | JArr xs => S (foldr (fun t' n => (jsize t' + n)%nat) O xs)
  | JObj m => S (map_fold (fun _ t' n => (jsize t' + n)%nat) O m)
  | _ => 1%nat
  end.

(** The objects [h'] has beyond [h] hold references to such objects only. *)
Definition new_only (h h' : heap) : Prop :=
  ∀ l m k l', h !! l = None → h' !! l = Some (ODict m) →
              m !! k = Some (VRef l') → h !! l' = None.

Definition val_new (h : heap) (v : val) : Prop :=
  ∀ l, v = VRef l → h !! l = None.

(** What [alloc] guarantees. *)
Definition alloc_ok (h : heap) (t : json) (r : heap * val) : Prop :=
  h ⊆ r.1 ∧ new_only h r.1 ∧ val_new h r.2 ∧
  reify (size r.1 - size h) r.1 r.2 = Some t.

(** [_search_and_replace] on a key list already split into [keys] and
    [newkey]. *)
Definition sr_core (h : heap) (d : val) (keys : list string) (newkey : string)
  (v : val) : result unit * heap :=
  match sr_loop h d keys with
  | (Ok temp_dict, h1) =>
      match setitem h1 temp_dict newkey v with
      | Ok h2 => (Ok tt, h2)
      | Raise e => (Raise e, h1)
      end
  | (Raise e, h1) => (Raise e, h1)
  end.

(** [path_to h d ks x]: following the keys [ks] from [d], through mappings
    only, ends at the value [x]. *)
Inductive path_to (h : heap) : val → list string → val → Prop :=
  | path_here d : path_to h d [] d
  | path_step l m k v ks x :
      h !! l = Some (ODict m) → m !! k = Some v → path_to h v ks x →
      path_to h (VRef l) (k :: ks) x.

(** The path of a key is present in the tree. *)
Definition present (h : heap) (root : val) (key : string) : Prop :=
  ∃ x, path_to h root (split dot key) x.

(** The store is closed and [d] heads a tree in it: no dangling reference,
    no mapping reached along two paths. *)
Definition tree_shaped (h : heap) (d : val) : Prop :=
  closed h ∧ val_ok h d ∧ unshared h d.


(** ** Documents and the structure that holds them *)

(** The objects a value refers to, directly or through the entries of
    mappings and the elements of lists. *)
Inductive below (h : heap) : val → loc → Prop :=
  | below_here l : below h (VRef l) l
  | below_entry l m k x l' :
      h !! l = Some (ODict m) → m !! k = Some x → below h x l' →
      below h (VRef l) l'
  | below_element l xs x l' :
      h !! l = Some (OList xs) → x ∈ xs → below h x l' →
      below h (VRef l) l'.

(** Under [d], no mapping is below one of its own entries, and no object is
    below two entries of the same mapping. *)
Definition separate (h : heap) (d : val) : Prop :=
  ∀ l m k x, below h d l → h !! l = Some (ODict m) → m !! k = Some x →
    ¬ below h x l ∧
    ∀ k' x' l', k' ≠ k → m !! k' = Some x' →
                below h x l' → below h x' l' → False.

(** The shape of what [alloc] builds, seen in any store that extends the
    one it returns: new objects only, none reached twice. *)
Definition alloc_tree (h : heap) (r : heap * val) : Prop :=
  ∀ h'', r.1 ⊆ h'' →
    (∀ l, below h'' r.2 l → h !! l = None ∧ is_Some (r.1 !! l)) ∧
    separate h'' r.2.

(** [_search_and_replace] read as a function on documents: the document
    with [tv] at the end of the path [keys ++ [newkey]], where a segment
    that is missing or holds no object stands for the empty object.  A
    document that is no object is left as it is (the code raises). *)
Fixpoint doc_set (keys : list string) (newkey : string) (tv : json) (t : json)
  : json :=
  match t with
  | JObj m =>
      match keys with
      | [] => JObj (<[newkey := tv]> m)
      | k :: ks =>
          JObj (<[k := doc_set ks newkey tv
                          match m !! k with
                          | Some (JObj m') => JObj m'
                          | _ => JObj ∅
                          end]> m)
      end
  | _ => t
  end.

(** [get_val] read as a function on documents: the document at the end of
    the path, [null] when the path leaves the document. *)
Fixpoint doc_get (keys : list string) (t : json) : json :=
  match keys with
  | [] => t
  | k :: ks =>
      match t with
      | JObj m => match m !! k with Some t' => doc_get ks t' | None => JNull end
      | _ => JNull
      end
  end.


(** ** Concrete stores

    For running the model, the text of a document is taken to be the
    document itself. *)

Definition doc_dump (t : json) : json := t.
Definition doc_load (b : json) : option json := Some b.

(** A store bound to [sample.json], which holds the empty object. *)
Definition sample_settings : gmap string val := {[ "source" := VStr "sample.json" ]}.

Definition sample_world : world json :=
  World {[ 1%positive := ODict ∅ ]}
        {[ "sample.json" := File_ (Text (JObj ∅)) true true ]}
        [].

Definition sample_provider : provider :=
  Provider ConfigurationProviderFile sample_settings (VRef 1%positive).

(** The same store with a file that cannot be written. *)
Definition readonly_world : world json :=
  World {[ 1%positive := ODict ∅ ]}
        {[ "sample.json" := File_ (Text (JObj ∅)) true false ]}
        [].

(** The tree [{"a": null}]. *)
Definition null_heap : heap := {[ 1%positive := ODict {[ "a" := VNone ]} ]}.

(** Descriptors: the sample file, and a file that does not exist. *)
Definition sample_source : descriptor := Descriptor (Some "File") (Some sample_settings).
Definition missing_source : descriptor :=
  Descriptor (Some "File") (Some {[ "source" := VStr "missing.json" ]}).
Definition sample_configuration : Configuration := Config sample_source sample_provider.

(** A store with the tree [{"a": "old"}] and a second file holding
    [{"x": 1}], its descriptor, and the provider built from it. *)
Definition two_files_world : world json :=
  World {[ 1%positive := ODict {[ "a" := VStr "old" ]} ]}
        {[ "sample.json" := File_ (Text (JObj {[ "a" := JStr "old" ]})) true true;
           "other.json" := File_ (Text (JObj {[ "x" := JNum 1 ]})) true true ]}
        [].
Definition other_source : descriptor :=
  Descriptor (Some "File") (Some {[ "source" := VStr "other.json" ]}).
Definition other_provider : provider :=
  Provider ConfigurationProviderFile {[ "source" := VStr "other.json" ]} (VRef 2%positive).

(** The tree [{"a": 1}]. *)
Definition scalar_heap : heap := {[ 1%positive := ODict {[ "a" := VInt 1 ]} ]}.

(** A loaded empty store, and an empty dict [d] of the caller at the
    second location. *)
Definition shared_world : world json :=
  World {[ 1%positive := ODict ∅; 2%positive := ODict ∅ ]}
        {[ "sample.json" := File_ (Text (JObj ∅)) true true ]}
        [].

(** The tree [{"a": {"b": 5}}]. *)
Definition nested_heap : heap :=
  {[ 1%positive := ODict {[ "a" := VRef 2%positive ]};
     2%positive := ODict {[ "b" := VInt 5 ]} ]}.

(** The descriptor the module's own script constructs its [Configuration]
    from. *)
Definition consul_settings : descriptor :=
  Descriptor (Some "Consul") (Some {[ "url" := VStr "localhost" ]}).

(** A store loaded from a file that holds the empty list. *)
Definition list_world : world json :=
  World {[ 1%positive := OList [] ]}
        {[ "sample.json" := File_ (Text (JArr [])) true true ]}
        [].



(** The document [{"x": [{}], "y": {}}], a store that holds the tree
    [json.load] builds for it, loaded from [sample.json], and its
    provider. *)
Definition listed_doc : json :=
  JObj {[ "x" := JArr [JObj ∅]; "y" := JObj ∅ ]}.

Definition listed_world : world json :=
  World (alloc listed_doc ∅).1
        {[ "sample.json" := File_ (Text listed_doc) true true ]}
        [].

Definition listed_provider : provider :=
  Provider ConfigurationProviderFile sample_settings (alloc listed_doc ∅).2.


(** * Properties *)

(** ** Paths *)

Lemma split_nonempty sep s : split sep s ≠ [].
Proof.
  destruct s as [|c r]; simpl; [done|].
  destruct (Ascii.eqb c sep); [done|]. by destruct (split sep r).
Qed.

Lemma key_list_parts k :
  split dot k = (init_keys (split dot k) ++ [last_key (split dot k)])%list.
Proof. apply app_removelast_last, split_nonempty. Qed.

Lemma get_val_walk h d key :
  key ≠ "" → get_val h d key = walk h (split dot key) d.
Proof. intros Hk. unfold get_val, walk. by destruct (decide (key = "")). Qed.

Lemma is_mapping_dict h v :
  is_mapping h v = true ↔ ∃ l m, v = VRef l ∧ h !! l = Some (ODict m).
Proof.
  split.
  - destruct v as [| | | |l]; simpl; try done.
    destruct (h !! l) as [[m|xs]|] eqn:E; try done. eauto.
  - intros (l & m & -> & E). simpl. by rewrite E.
Qed.

Lemma getitem_dict h l m k :
  h !! l = Some (ODict m) →
  getitem h (VRef l) k = match m !! k with Some v => Ok v | None => Raise KeyError end.
Proof. intros E. simpl. by rewrite E. Qed.

Lemma getitem_Ok h d k v :
  getitem h d k = Ok v →
  ∃ l m, d = VRef l ∧ h !! l = Some (ODict m) ∧ m !! k = Some v.
Proof.
  destruct d as [| | | |l]; simpl; try done.
  destruct (h !! l) as [[m|xs]|] eqn:E; try done.
  destruct (m !! k) eqn:Ek; try done. intros [= ->]. eauto.
Qed.

Lemma getitem_KeyError h d k :
  getitem h d k = Raise KeyError →
  ∃ l m, d = VRef l ∧ h !! l = Some (ODict m) ∧ m !! k = None.
Proof.
  destruct d as [| | | |l]; simpl; try done.
  destruct (h !! l) as [[m|xs]|] eqn:E; try done.
  destruct (m !! k) eqn:Ek; try done. eauto.
Qed.

Lemma setitem_dict h l m k v :
  h !! l = Some (ODict m) →
  setitem h (VRef l) k v = Ok (<[l := ODict (<[k := v]> m)]> h).
Proof. intros E. simpl. by rewrite E. Qed.

Lemma setitem_Ok h d k v h' :
  setitem h d k v = Ok h' →
  ∃ l m, d = VRef l ∧ h !! l = Some (ODict m) ∧ h' = <[l := ODict (<[k := v]> m)]> h.
Proof.
  destruct d as [| | | |l]; simpl; try done.
  destruct (h !! l) as [[m|xs]|] eqn:E; try done. intros [= <-]. eauto.
Qed.

Lemma fresh_loc_None (h : heap) : h !! fresh (dom h) = None.
Proof. apply not_elem_of_dom, is_fresh. Qed.

Lemma visited_dict h l m keys :
  h !! l = Some (ODict m) →
  visited h (VRef l) keys =
    l :: match keys with
         | [] => []
         | k :: ks => match m !! k with Some v => visited h v ks | None => [] end
         end.
Proof. intros E. destruct keys; simpl; by rewrite E. Qed.

Lemma visited_is_dict h d keys l :
  l ∈ visited h d keys → ∃ m, h !! l = Some (ODict m).
Proof.
  revert d. induction keys as [|k ks IH]; intros d Hl;
    destruct d as [| | | |l0]; simpl in Hl; try by apply elem_of_nil in Hl.
  - destruct (h !! l0) as [[m|xs]|] eqn:E; try by apply elem_of_nil in Hl.
    apply list_elem_of_singleton in Hl as ->. eauto.
  - destruct (h !! l0) as [[m|xs]|] eqn:E; try by apply elem_of_nil in Hl.
    apply elem_of_cons in Hl as [->|Hl]; [eauto|].
    destruct (m !! k) as [v|]; [by eapply IH | by apply elem_of_nil in Hl].
Qed.

(** A visited mapping is the end of a walk along a prefix of the keys. *)
Lemma visited_reached h d keys l :
  l ∈ visited h d keys →
  ∃ ks, ks `prefix_of` keys ∧ reduce_getitem h ks d = Ok (VRef l)
        ∧ is_mapping h (VRef l) = true.
Proof.
  revert d. induction keys as [|k keys IH]; intros d Hl.
  - destruct d as [| | | |l0]; simpl in Hl; try by apply elem_of_nil in Hl.
    destruct (h !! l0) as [[m|xs]|] eqn:E; try by apply elem_of_nil in Hl.
    apply list_elem_of_singleton in Hl as ->. exists []. simpl. by rewrite E.
  - destruct d as [| | | |l0]; simpl in Hl; try by apply elem_of_nil in Hl.
    destruct (h !! l0) as [[m|xs]|] eqn:E; try by apply elem_of_nil in Hl.
    apply elem_of_cons in Hl as [->|Hl].
    + exists []. split; [apply prefix_nil|]. simpl. by rewrite E.
    + destruct (m !! k) as [v|] eqn:Ek; [|by apply elem_of_nil in Hl].
      destruct (IH _ Hl) as (ks & Hp & Hr & Hm).
      exists (k :: ks). split; [by apply prefix_cons|]. split; [|done].
      simpl. by rewrite E, Ek.
Qed.

(** ** The loop of [_search_and_replace] *)

Lemma sr_loop_cons h l m k ks :
  h !! l = Some (ODict m) →
  sr_loop h (VRef l) (k :: ks) =
    match m !! k with
    | Some v =>
        if is_mapping h v then sr_loop h v ks
        else sr_loop (replaced h l m k) (VRef (fresh (dom h))) ks
    | None => sr_loop (replaced h l m k) (VRef (fresh (dom h))) ks
    end.
Proof.
  intros E.
  assert (Hne : fresh (dom h) ≠ l).
  { intros Heq. pose proof (fresh_loc_None h) as Hf. rewrite Heq in Hf. congruence. }
  assert (Hset : setitem (<[fresh (dom h) := ODict ∅]> h) (VRef l) k (VRef (fresh (dom h)))
                 = Ok (replaced h l m k)).
  { apply setitem_dict. by rewrite lookup_insert_ne. }
  cbn [sr_loop new_dict alloc_obj]. rewrite Hset.
  rewrite (getitem_dict _ _ _ _ E). by destruct (m !! k).
Qed.

Lemma sr_loop_not_mapping h d k ks :
  is_mapping h d = false → sr_loop h d (k :: ks) = (Raise TypeError, h).
Proof.
  intros Hm. cbn [sr_loop].
  destruct d as [| | | |l]; try done. simpl in *.
  by destruct (h !! l) as [[m|xs]|].
Qed.

Lemma replaced_lookup_fresh h l m k :
  h !! l = Some (ODict m) →
  replaced h l m k !! fresh (dom h) = Some (ODict ∅).
Proof.
  intros E. unfold replaced.
  rewrite lookup_insert_ne, lookup_insert_eq; [done|].
  intros Heq. pose proof (fresh_loc_None h) as Hf. rewrite <- Heq in Hf. congruence.
Qed.

Lemma replaced_lookup_self h l m k :
  replaced h l m k !! l = Some (ODict (<[k := VRef (fresh (dom h))]> m)).
Proof. unfold replaced. by rewrite lookup_insert_eq. Qed.

Lemma replaced_lookup_other h l m k l' :
  l' ≠ l → is_Some (h !! l') → replaced h l m k !! l' = h !! l'.
Proof.
  intros Hne [o Ho]. unfold replaced.
  rewrite !lookup_insert_ne; [done| |done].
  intros Heq. pose proof (fresh_loc_None h) as Hf. rewrite Heq in Hf. congruence.
Qed.

Lemma visited_fresh_dict h l ks :
  h !! l = Some (ODict ∅) → visited h (VRef l) ks = [l].
Proof. intros E. rewrite (visited_dict _ _ _ _ E). by destruct ks. Qed.

(** What the loop does: it ends on a mapping when it starts on one, that
    mapping was visited or is new, and every other object of the store is
    left as it was. *)
Lemma sr_loop_spec keys : ∀ h d r h',
  sr_loop h d keys = (r, h') →
  (∀ l o, h !! l = Some o → l ∉ visited h d keys → h' !! l = Some o) ∧
  (is_mapping h d = true →
   ∃ lt, r = Ok (VRef lt) ∧ is_mapping h' (VRef lt) = true
         ∧ (lt ∈ visited h d keys ∨ h !! lt = None)).
Proof.
  induction keys as [|k ks IH]; intros h d r h' Hsr.
  - cbn in Hsr. injection Hsr as <- <-. split; [done|].
    intros Hm. apply is_mapping_dict in Hm as Hd. destruct Hd as (l & m & -> & E).
    exists l. split; [done|]. split; [done|]. left.
    rewrite (visited_dict _ _ _ _ E). apply list_elem_of_singleton. done.
  - destruct (is_mapping h d) eqn:Hm; cycle 1.
    { rewrite sr_loop_not_mapping in Hsr by done. injection Hsr as <- <-.
      split; [done|]. done. }
    apply is_mapping_dict in Hm as Hd. destruct Hd as (l & m & -> & E).
    rewrite (sr_loop_cons _ _ _ _ _ E) in Hsr.
    rewrite (visited_dict _ _ _ _ E).
    assert (Hrep : ∀ r h',
      sr_loop (replaced h l m k) (VRef (fresh (dom h))) ks = (r, h') →
      (∀ l0 o, h !! l0 = Some o →
         l0 ∉ l :: match m !! k with Some v => visited h v ks | None => [] end →
         h' !! l0 = Some o) ∧
      (true = true →
       ∃ lt, r = Ok (VRef lt) ∧ is_mapping h' (VRef lt) = true
             ∧ (lt ∈ l :: match m !! k with Some v => visited h v ks | None => [] end
                ∨ h !! lt = None))).
    { clear Hsr r h'. intros r h' Hsr.
      pose proof (replaced_lookup_fresh h l m k E) as Hf.
      destruct (IH _ _ _ _ Hsr) as [Hfr Ht].
      rewrite (visited_fresh_dict _ _ _ Hf) in Hfr, Ht.
      split.
      - intros l0 o Hl0 Hnot. apply Hfr.
        + rewrite replaced_lookup_other; [done| |by eauto].
          intros ->. apply Hnot. apply elem_of_cons. by left.
        + intros Hin%list_elem_of_singleton. subst l0.
          rewrite fresh_loc_None in Hl0. done.
      - intros _. destruct Ht as (lt & -> & Hmt & Hlt).
        { simpl. by rewrite Hf. }
        exists lt. split; [done|]. split; [done|].
        destruct Hlt as [Hin%list_elem_of_singleton|Hn].
        + subst lt. right. apply fresh_loc_None.
        + destruct (decide (lt = l)) as [->|Hne].
          * left. apply elem_of_cons. by left.
          * right. destruct (h !! lt) as [o|] eqn:Ho; [|done].
            rewrite replaced_lookup_other in Hn by eauto. congruence. }
    destruct (m !! k) as [v|] eqn:Ek; [|by apply Hrep].
    destruct (is_mapping h v) eqn:Hv; [|by apply Hrep].
    destruct (IH _ _ _ _ Hsr) as [Hfr Ht]. split.
    + intros l0 o Hl0 Hnot. apply Hfr; [done|].
      intros Hin. apply Hnot. apply elem_of_cons. by right.
    + intros _. destruct (Ht Hv) as (lt & -> & Hmt & Hlt).
      exists lt. split; [done|]. split; [done|].
      destruct Hlt as [Hin|Hn]; [left|by right].
      apply elem_of_cons. by right.
Qed.

(** Writing along a path that meets no mapping twice, then reading along
    the same path, finds the value written. *)
Lemma sr_set_get keys : ∀ h d nk v,
  is_mapping h d = true →
  NoDup (visited h d keys) →
  ∃ t h1 h2,
    sr_loop h d keys = (Ok t, h1) ∧
    setitem h1 t nk v = Ok h2 ∧
    reduce_getitem h2 (keys ++ [nk]) d = Ok v.
Proof.
  induction keys as [|k ks IH]; intros h d nk v Hm Hnd.
  - apply is_mapping_dict in Hm as (l & m & -> & E).
    exists (VRef l), h, (<[l := ODict (<[nk := v]> m)]> h).
    split; [done|]. split; [by apply setitem_dict|].
    cbn [app reduce_getitem].
    rewrite (getitem_dict _ l (<[nk := v]> m)) by apply lookup_insert_eq.
    by rewrite lookup_insert_eq.
  - apply is_mapping_dict in Hm as (l & m & -> & E).
    assert (Hstep : ∀ hx dx mx,
      hx !! l = Some (ODict mx) → mx !! k = Some dx →
      is_mapping hx dx = true → NoDup (visited hx dx ks) →
      l ∉ visited hx dx ks →
      ∃ t h1 h2, sr_loop hx dx ks = (Ok t, h1) ∧ setitem h1 t nk v = Ok h2 ∧
                 reduce_getitem h2 ((k :: ks) ++ [nk]) (VRef l) = Ok v).
    { intros hx dx mx El Ek Hmx Hndx Hnin.
      destruct (IH hx dx nk v Hmx Hndx) as (t & h1 & h2 & Hsr & Hset & Hred).
      exists t, h1, h2. split; [done|]. split; [done|].
      destruct (sr_loop_spec _ _ _ _ _ Hsr) as [Hfr Ht].
      destruct (Ht Hmx) as (lt & [= ->] & _ & Hlt).
      apply setitem_Ok in Hset as (lt' & mt & [= <-] & Et & ->).
      assert (lt ≠ l).
      { intros ->. destruct Hlt as [Hin|Hn]; [done|congruence]. }
      cbn [app reduce_getitem].
      rewrite (getitem_dict _ l mx); [by rewrite Ek|].
      rewrite lookup_insert_ne by done. by apply Hfr. }
    rewrite (sr_loop_cons _ _ _ _ _ E).
    rewrite (visited_dict _ _ _ _ E) in Hnd. apply NoDup_cons in Hnd as [Hnin Hnd].
    pose proof (replaced_lookup_fresh h l m k E) as Hf.
    assert (Hne : l ≠ fresh (dom h)).
    { intros Heq. pose proof (fresh_loc_None h) as Hn. rewrite <- Heq in Hn. congruence. }
    assert (Hrep : ∃ t h1 h2,
      sr_loop (replaced h l m k) (VRef (fresh (dom h))) ks = (Ok t, h1) ∧
      setitem h1 t nk v = Ok h2 ∧
      reduce_getitem h2 ((k :: ks) ++ [nk]) (VRef l) = Ok v).
    { apply (Hstep _ _ (<[k := VRef (fresh (dom h))]> m)).
      - apply replaced_lookup_self.
      - apply lookup_insert_eq.
      - simpl. by rewrite Hf.
      - rewrite (visited_fresh_dict _ _ _ Hf). apply NoDup_singleton.
      - rewrite (visited_fresh_dict _ _ _ Hf). by intros ?%list_elem_of_singleton. }
    destruct (m !! k) as [v0|] eqn:Ek; [|done].
    destruct (is_mapping h v0) eqn:Hv0; [|done].
    by apply (Hstep h v0 m).
Qed.

Lemma reduce_getitem_mono h h' ks d v :
  (∀ l o, h !! l = Some o → h' !! l = Some o) →
  reduce_getitem h ks d = Ok v → reduce_getitem h' ks d = Ok v.
Proof.
  intros Hsub. revert d. induction ks as [|k ks IH]; intros d; [done|].
  cbn [reduce_getitem]. destruct (getitem h d k) as [x|e] eqn:G; [|done].
  apply getitem_Ok in G as (l & m & -> & E & Ek).
  rewrite (getitem_dict h' l m) by by apply Hsub. rewrite Ek. apply IH.
Qed.

(** In-memory round trip of [_search_and_replace] and [get_val]. *)
Lemma search_and_replace_get h d key v :
  is_mapping h d = true →
  NoDup (visited h d (init_keys (split dot key))) →
  ∃ h2, _search_and_replace h d key v = (Ok tt, h2) ∧
        reduce_getitem h2 (split dot key) d = Ok v.
Proof.
  intros Hm Hnd.
  destruct (sr_set_get _ h d (last_key (split dot key)) v Hm Hnd)
    as (t & h1 & h2 & Hsr & Hset & Hred).
  exists h2. unfold _search_and_replace. rewrite Hsr, Hset. split; [done|].
  by rewrite (key_list_parts key).
Qed.

(** ** Documents: reading them off the store *)

Lemma reify_dict_intro n h l m jm :
  h !! l = Some (ODict m) → entries_match n h m jm →
  reify (S n) h (VRef l) = Some (JObj jm).
Proof.
  intros E Hrel. cbn [reify]. rewrite E. cbv zeta.
  destruct (decide _) as [_|Hn].
  - f_equal. f_equal. apply map_eq. intros k.
    rewrite lookup_omap, lookup_fmap. specialize (Hrel k).
    destruct (m !! k) as [x|], (jm !! k) as [tx|]; simpl; try done;
      by rewrite Hrel.
  - exfalso. apply Hn. intros k o. rewrite lookup_fmap. specialize (Hrel k).
    destruct (m !! k) as [x|], (jm !! k) as [tx|]; simpl; try done;
      intros [= <-]; rewrite Hrel; eauto.
Qed.

Lemma reify_dict_elim n h l m t :
  h !! l = Some (ODict m) → reify (S n) h (VRef l) = Some t →
  ∃ jm, t = JObj jm ∧ entries_match n h m jm.
Proof.
  intros E. cbn [reify]. rewrite E. cbv zeta.
  destruct (decide _) as [Hall|_]; [|done]. intros [= <-].
  eexists. split; [done|]. intros k.
  rewrite lookup_omap, lookup_fmap.
  destruct (m !! k) as [x|] eqn:Ek; simpl; [|done].
  destruct (Hall k (reify n h x)) as [tx Hx].
  { by rewrite lookup_fmap, Ek. }
  by rewrite Hx.
Qed.

Lemma reify_list n h l xs t :
  h !! l = Some (OList xs) →
  reify (S n) h (VRef l) = Some t ↔
  ∃ ts, t = JArr ts ∧ Forall2 (fun x tx => reify n h x = Some tx) xs ts.
Proof.
  intros E. cbn [reify]. rewrite E. split.
  - destruct (mapM (reify n h) xs) as [ts|] eqn:Hm; simpl; [|done].
    intros [= <-]. exists ts. split; [done|]. by apply mapM_Some.
  - intros (ts & -> & Hall). apply mapM_Some in Hall. by rewrite Hall.
Qed.

Lemma reify_scalar n h v :
  (∀ l, v ≠ VRef l) →
  reify n h v = match v with
                | VNone => Some JNull
                | VBool b => Some (JBool b)
                | VInt z => Some (JNum z)
                | VStr s => Some (JStr s)
                | VRef _ => None
                end.
Proof. intros Hv. destruct v, n; try done; by destruct (Hv l). Qed.

(** More depth and a larger store read the same document. *)
Lemma reify_mono n : ∀ n' h h' v t,
  reify n h v = Some t → (n ≤ n')%nat → h ⊆ h' → reify n' h' v = Some t.
Proof.
  induction n as [|n IH]; intros n' h h' v t Hr Hle Hsub.
  - destruct v; try done; by destruct n'.
  - destruct v as [| | | |l]; try (by destruct n').
    destruct n' as [|n']; [lia|].
    destruct (h !! l) as [[m|xs]|] eqn:E.
    + pose proof (lookup_weaken _ _ _ _ E Hsub) as E'.
      destruct (reify_dict_elim _ _ _ _ _ E Hr) as (jm & -> & Hrel).
      apply (reify_dict_intro _ _ _ _ _ E'). intros k. specialize (Hrel k).
      destruct (m !! k) as [x|], (jm !! k) as [tx|]; try done.
      apply (IH n' h h'); [done|lia|done].
    + pose proof (lookup_weaken _ _ _ _ E Hsub) as E'.
      apply (reify_list _ _ _ _ _ E) in Hr as (ts & -> & Hall).
      apply (reify_list _ _ _ _ _ E'). exists ts. split; [done|].
      eapply Forall2_impl; [exact Hall|]. intros x tx Hx.
      apply (IH n' h h'); [done|lia|done].
    + cbn [reify] in Hr. by rewrite E in Hr.
Qed.

(** ** Documents: induction *)

Lemma jsize_elem xs t : t ∈ xs → (jsize t < jsize (JArr xs))%nat.
Proof.
  cbn [jsize]. induction xs as [|x xs IH]; intros Hin.
  - by apply elem_of_nil in Hin.
  - apply elem_of_cons in Hin as [->|Hin]; cbn [foldr]; [lia|].
    specialize (IH Hin). lia.
Qed.

Lemma jsize_lookup (m : gmap string json) k t :
  m !! k = Some t → (jsize t < jsize (JObj m))%nat.
Proof.
  intros Hk. cbn [jsize].
  rewrite (map_fold_delete_L _ _ k t m); [lia| |done].
  intros. lia.
Qed.

(** Induction on documents, with the hypothesis for every element of an
    array and every value of an object. *)
Lemma json_ind' (P : json → Prop) :
  P JNull → (∀ b, P (JBool b)) → (∀ z, P (JNum z)) → (∀ s, P (JStr s)) →
  (∀ xs, Forall P xs → P (JArr xs)) →
  (∀ m : gmap string json, map_Forall (fun _ t => P t) m → P (JObj m)) →
  ∀ t, P t.
Proof.
  intros Hnull Hbool Hnum Hstr Harr Hobj t.
  remember (jsize t) as n eqn:Hn. revert t Hn.
  induction n as [n IH] using lt_wf_ind. intros t ->.
  destruct t as [| | | |xs|m]; try done.
  - apply Harr. apply Forall_forall. intros t Hin.
    apply (IH (jsize t)); [by apply jsize_elem|done].
  - apply Hobj. intros k t Hk.
    apply (IH (jsize t)); [by eapply jsize_lookup|done].
Qed.

(** ** Documents: building them in the store *)

Lemma new_only_refl h : new_only h h.
Proof. intros l m k l' Hn Hs. congruence. Qed.

Lemma new_only_trans h h1 h2 :
  h ⊆ h1 → h1 ⊆ h2 → new_only h h1 → new_only h1 h2 → new_only h h2.
Proof.
  intros S1 S2 N1 N2 l m k l' Hn Hs Hk.
  destruct (h1 !! l) as [o|] eqn:E1.
  - pose proof (lookup_weaken _ _ _ _ E1 S2) as E2.
    rewrite E2 in Hs. injection Hs as ->. by eapply N1.
  - pose proof (N2 _ _ _ _ E1 Hs Hk) as Hl'.
    by eapply lookup_weaken_None.
Qed.

Lemma alloc_obj_dict h h1 (vm : gmap string val) :
  h ⊆ h1 → new_only h h1 →
  (∀ k v, vm !! k = Some v → val_new h v) →
  let r := alloc_obj h1 (ODict vm) in
  h ⊆ r.1 ∧ new_only h r.1 ∧ val_new h r.2 ∧
  r.1 !! fresh (dom h1) = Some (ODict vm) ∧ r.2 = VRef (fresh (dom h1)) ∧
  size r.1 = S (size h1) ∧ h1 ⊆ r.1.
Proof.
  intros Hsub Hnew Hvm. cbn.
  pose proof (fresh_loc_None h1) as Hf.
  assert (Hfh : h !! fresh (dom h1) = None) by by eapply lookup_weaken_None.
  split; [by apply insert_subseteq_r|].
  split.
  { intros l m k l' Hn Hs Hk.
    destruct (decide (l = fresh (dom h1))) as [->|Hne].
    - rewrite lookup_insert_eq in Hs. injection Hs as <-.
      by apply (Hvm _ _ Hk).
    - rewrite lookup_insert_ne in Hs by done. by eapply Hnew. }
  split; [by intros l [= <-]|].
  split; [by rewrite lookup_insert_eq|]. split; [done|].
  split; [by apply map_size_insert_None|by apply insert_subseteq].
Qed.

Lemma alloc_obj_list h h1 (vs : list val) :
  h ⊆ h1 → new_only h h1 →
  let r := alloc_obj h1 (OList vs) in
  h ⊆ r.1 ∧ new_only h r.1 ∧ val_new h r.2 ∧
  r.1 !! fresh (dom h1) = Some (OList vs) ∧ r.2 = VRef (fresh (dom h1)) ∧
  size r.1 = S (size h1) ∧ h1 ⊆ r.1.
Proof.
  intros Hsub Hnew. cbn.
  pose proof (fresh_loc_None h1) as Hf.
  assert (Hfh : h !! fresh (dom h1) = None) by by eapply lookup_weaken_None.
  split; [by apply insert_subseteq_r|].
  split.
  { intros l m k l' Hn Hs Hk.
    destruct (decide (l = fresh (dom h1))) as [->|Hne].
    - by rewrite lookup_insert_eq in Hs.
    - rewrite lookup_insert_ne in Hs by done. by eapply Hnew. }
  split; [by intros l [= <-]|].
  split; [by rewrite lookup_insert_eq|]. split; [done|].
  split; [by apply map_size_insert_None|by apply insert_subseteq].
Qed.

Lemma alloc_list_spec xs :
  Forall (fun t => ∀ h, alloc_ok h t (alloc t h)) xs →
  ∀ h,
    let r := foldr (fun t' '(h0, vs) => let '(h1, v) := alloc t' h0 in (h1, v :: vs))
                   (h, []) xs in
    h ⊆ r.1 ∧ new_only h r.1 ∧
    Forall2 (fun v t => reify (size r.1 - size h) r.1 v = Some t) r.2 xs.
Proof.
  induction 1 as [|t xs Ht _ IH]; intros h; cbn [foldr].
  - cbn. split; [done|]. split; [apply new_only_refl|constructor].
  - specialize (IH h). cbv zeta in IH.
    destruct (foldr _ (h, []) xs) as [h0 vs]. cbn [fst snd] in IH.
    destruct IH as (S0 & N0 & F0).
    specialize (Ht h0). unfold alloc_ok in Ht.
    destruct (alloc t h0) as [h1 v]. cbn [fst snd] in *.
    destruct Ht as (S1 & N1 & _ & R1).
    pose proof (map_subseteq_size _ _ S0). pose proof (map_subseteq_size _ _ S1).
    split; [by etrans|]. split; [by eapply new_only_trans|].
    constructor.
    + eapply reify_mono; [exact R1|lia|done].
    + eapply Forall2_impl; [exact F0|]. intros x tx Hx.
      eapply reify_mono; [exact Hx|lia|done].
Qed.

Lemma alloc_entries_spec (kts : list (string * json)) :
  Forall (fun kt => ∀ h, alloc_ok h kt.2 (alloc kt.2 h)) kts →
  ∀ h,
    let r := foldr (uncurry (fun k t' '(h0, vm) =>
                      let '(h1, v) := alloc t' h0 in (h1, <[k := v]> vm)))
                   (h, (∅ : gmap string val)) kts in
    h ⊆ r.1 ∧ new_only h r.1 ∧
    ∀ k, match r.2 !! k with
         | Some v => val_new h v ∧
                     ∃ t, (k, t) ∈ kts ∧ reify (size r.1 - size h) r.1 v = Some t
         | None => ∀ t, (k, t) ∉ kts
         end.
Proof.
  induction 1 as [|[k0 t] kts Ht _ IH]; intros h; cbn [foldr].
  - cbn. split; [done|]. split; [apply new_only_refl|].
    intros k. rewrite lookup_empty. intros t Hin. by apply elem_of_nil in Hin.
  - specialize (IH h). cbv zeta in IH.
    destruct (foldr _ (h, ∅) kts) as [h0 vm]. cbn [fst snd uncurry] in *.
    destruct IH as (S0 & N0 & F0).
    specialize (Ht h0). unfold alloc_ok in Ht.
    destruct (alloc t h0) as [h1 v]. cbn [fst snd] in *.
    destruct Ht as (S1 & N1 & V1 & R1).
    pose proof (map_subseteq_size _ _ S0). pose proof (map_subseteq_size _ _ S1).
    split; [by etrans|]. split; [by eapply new_only_trans|].
    intros k. destruct (decide (k0 = k)) as [->|Hne].
    + rewrite lookup_insert_eq. split.
      * intros l Hl. eapply lookup_weaken_None; [|exact S0]. by apply V1.
      * exists t. split; [apply elem_of_cons; by left|].
        eapply reify_mono; [exact R1|lia|done].
    + rewrite lookup_insert_ne by done. specialize (F0 k).
      destruct (vm !! k) as [x|].
      * destruct F0 as (Vx & tx & Hin & Hx). split; [done|].
        exists tx. split; [apply elem_of_cons; by right|].
        eapply reify_mono; [exact Hx|lia|done].
      * intros tx Hin. apply elem_of_cons in Hin as [[= -> ->]|Hin]; [done|].
        by apply (F0 tx).
Qed.

(** [alloc] extends the store with new objects that refer to new objects
    only, and the value it returns denotes the document. *)
Lemma alloc_spec t : ∀ h, alloc_ok h t (alloc t h).
Proof.
  induction t as [|b|z|s|xs IH|m IH] using json_ind'; intros h;
    try (unfold alloc_ok; cbn [alloc fst snd]; split; [reflexivity|];
         split; [apply new_only_refl|]; split; [intros l; discriminate|];
         rewrite Nat.sub_diag; reflexivity).
  - cbn [alloc].
    pose proof (alloc_list_spec xs IH h) as Hfold. cbv zeta in Hfold.
    destruct (foldr _ (h, []) xs) as [h0 vs]. cbn [fst snd] in Hfold.
    destruct Hfold as (S0 & N0 & F0).
    pose proof (alloc_obj_list h h0 vs S0 N0) as Hobj. cbv zeta in Hobj.
    destruct (alloc_obj h0 (OList vs)) as [h2 v2]. cbn [fst snd] in Hobj.
    destruct Hobj as (S2 & N2 & V2 & E2 & -> & Hsz & S02).
    unfold alloc_ok. cbn [fst snd]. split; [done|]. split; [done|]. split; [done|].
    pose proof (map_subseteq_size _ _ S0).
    replace (size h2 - size h)%nat with (S (size h0 - size h)) by lia.
    apply (reify_list _ _ _ _ _ E2). exists xs. split; [done|].
    eapply Forall2_impl; [exact F0|]. intros x tx Hx.
    eapply reify_mono; [exact Hx|lia|done].
  - cbn [alloc]. rewrite map_fold_foldr.
    assert (Hall : Forall (fun kt => ∀ h, alloc_ok h kt.2 (alloc kt.2 h))
                          (map_to_list m)).
    { apply Forall_forall. intros [k t] Hin. apply elem_of_map_to_list in Hin.
      by apply (IH k t). }
    pose proof (alloc_entries_spec _ Hall h) as Hfold. cbv zeta in Hfold.
    destruct (foldr _ (h, ∅) (map_to_list m)) as [h0 vm]. cbn [fst snd] in Hfold.
    destruct Hfold as (S0 & N0 & F0).
    assert (Hvm : ∀ k v, vm !! k = Some v → val_new h v).
    { intros k v Hk. specialize (F0 k). rewrite Hk in F0. by destruct F0. }
    pose proof (alloc_obj_dict h h0 vm S0 N0 Hvm) as Hobj. cbv zeta in Hobj.
    destruct (alloc_obj h0 (ODict vm)) as [h2 v2]. cbn [fst snd] in Hobj.
    destruct Hobj as (S2 & N2 & V2 & E2 & -> & Hsz & S02).
    unfold alloc_ok. cbn [fst snd]. split; [done|]. split; [done|]. split; [done|].
    pose proof (map_subseteq_size _ _ S0).
    replace (size h2 - size h)%nat with (S (size h0 - size h)) by lia.
    apply (reify_dict_intro _ _ _ _ _ E2). intros k. specialize (F0 k).
    destruct (vm !! k) as [x|].
    + destruct F0 as (_ & tx & Hin & Hx). apply elem_of_map_to_list in Hin.
      rewrite Hin. eapply reify_mono; [exact Hx|lia|done].
    + destruct (m !! k) as [tx|] eqn:Ek; [|done].
      apply elem_of_map_to_list in Ek. by apply (F0 tx).
Qed.

(** ** What [_search_and_replace] leaves alone *)

Lemma visited_new h h1 keys : ∀ d,
  new_only h h1 → val_new h d →
  ∀ l, l ∈ visited h1 d keys → h !! l = None.
Proof.
  induction keys as [|k ks IH]; intros d Hnew Hd l Hin;
    destruct d as [| | | |l0]; cbn [visited] in Hin;
    try (by apply elem_of_nil in Hin);
    destruct (h1 !! l0) as [[m|xs]|] eqn:E; try (by apply elem_of_nil in Hin).
  - apply list_elem_of_singleton in Hin as ->. by apply Hd.
  - apply elem_of_cons in Hin as [->|Hin]; [by apply Hd|].
    destruct (m !! k) as [x|] eqn:Ek; [|by apply elem_of_nil in Hin].
    apply (IH x); [done| |done].
    intros l' ->. eapply Hnew; [|exact E|exact Ek]. by apply Hd.
Qed.

Lemma search_and_replace_preserves h d key v r h2 :
  _search_and_replace h d key v = (r, h2) →
  ∀ l o, h !! l = Some o →
         l ∉ visited h d (init_keys (split dot key)) → h2 !! l = Some o.
Proof.
  unfold _search_and_replace. intros Hsr l o Hl Hnot.
  destruct (sr_loop h d (init_keys (split dot key))) as [[t|e] h1] eqn:Hloop;
    cycle 1.
  { injection Hsr as <- <-. by apply (sr_loop_spec _ _ _ _ _ Hloop). }
  destruct (sr_loop_spec _ _ _ _ _ Hloop) as [Hfr Ht].
  destruct (setitem h1 t (last_key (split dot key)) v) as [h3|e] eqn:Hset;
    injection Hsr as <- <-; [|by apply Hfr].
  apply setitem_Ok in Hset as (lt & mt & -> & Et & ->).
  destruct (decide (lt = l)) as [->|Hne]; [|rewrite lookup_insert_ne by done; by apply Hfr].
  exfalso. destruct (is_mapping h d) eqn:Hm.
  - destruct (Ht eq_refl) as (lt & [= <-] & _ & [Hin|Hn]); [done|congruence].
  - destruct (init_keys (split dot key)) as [|k ks].
    + cbn in Hloop. injection Hloop as -> ->. simpl in Hm. by rewrite Et in Hm.
    + by rewrite sr_loop_not_mapping in Hloop.
Qed.

(** Writing into a structure that [alloc] has just built leaves the older
    objects of the store as they were. *)
Lemma search_and_replace_new h t key v r h2 :
  _search_and_replace (alloc t h).1 (alloc t h).2 key v = (r, h2) → h ⊆ h2.
Proof.
  intros Hsr. destruct (alloc_spec t h) as (Hsub & Hnew & Hval & _).
  apply map_subseteq_spec. intros l o Hl.
  eapply search_and_replace_preserves; [exact Hsr| |].
  - by eapply lookup_weaken.
  - intros Hin. apply (visited_new h _ _ _ Hnew Hval) in Hin. congruence.
Qed.

Section Properties.
Context {bytes : Type}.
Variable json_dump : json -> bytes.
Variable json_load : bytes -> option json.

Lemma dump_to_heap path v (w : world bytes) r w' :
  dump_to json_dump path v w = (r, w') → w_heap w' = w_heap w.
Proof.
  unfold dump_to. intros H.
  destruct (json_of (w_heap w) v);
    destruct (write_file _ _ _); by injection H as <- <-.
Qed.

(** [save_value] keeps every object the store already had. *)
Lemma save_value_heap self key v (w : world bytes) r w' :
  save_value json_dump json_load self key v w = (r, w') → w_heap w ⊆ w_heap w'.
Proof.
  unfold save_value. intros H.
  destruct (p_class self); try (by injection H as <- <-).
  destruct (source_of (config_settings self)) as [path|e];
    [|by injection H as <- <-].
  destruct (read_file (w_fs w) path) as [c|e]; [|by injection H as <- <-].
  destruct (parse json_load c) as [t|]; [|by injection H as <- <-].
  pose proof (search_and_replace_new (w_heap w) t key v) as Hnew.
  destruct (alloc t (w_heap w)) as [h1 temp_config]. cbn [fst snd] in Hnew.
  destruct (_search_and_replace h1 temp_config key v) as [[[]|e] h2] eqn:Hsr.
  - apply dump_to_heap in H. cbn in H. rewrite H. by eapply Hnew.
  - injection H as <- <-. cbn. by eapply Hnew.
Qed.

End Properties.

(** ** Writing through a prefix that exists *)

Lemma sr_loop_app ks1 : ∀ h d ks2,
  sr_loop h d (ks1 ++ ks2) =
    match sr_loop h d ks1 with
    | (Ok t, h1) => sr_loop h1 t ks2
    | (Raise e, h1) => (Raise e, h1)
    end.
Proof.
  induction ks1 as [|k ks1 IH]; intros h d ks2; [done|].
  destruct (is_mapping h d) eqn:Hm.
  - apply is_mapping_dict in Hm as (l & m & -> & E).
    rewrite <- app_comm_cons, !(sr_loop_cons _ _ _ _ _ E).
    destruct (m !! k) as [x|]; [destruct (is_mapping h x)|]; apply IH.
  - rewrite <- app_comm_cons, !sr_loop_not_mapping by done. done.
Qed.

Lemma reduce_getitem_app h ks1 : ∀ ks2 d,
  reduce_getitem h (ks1 ++ ks2) d =
    match reduce_getitem h ks1 d with
    | Ok x => reduce_getitem h ks2 x
    | Raise e => Raise e
    end.
Proof.
  induction ks1 as [|k ks1 IH]; intros ks2 d; [done|].
  cbn [app reduce_getitem]. destruct (getitem h d k); [apply IH|done].
Qed.

(** A walk that ends on a mapping has that mapping among those it visits,
    and starts on a mapping. *)
Lemma reduce_getitem_visited h l ks : ∀ d,
  reduce_getitem h ks d = Ok (VRef l) → is_mapping h (VRef l) = true →
  l ∈ visited h d ks ∧ is_mapping h d = true.
Proof.
  induction ks as [|k ks IH]; intros d Hr Hm.
  - injection Hr as ->. split; [|done].
    apply is_mapping_dict in Hm as (l' & m & [= <-] & E).
    rewrite (visited_dict _ _ _ _ E). by apply list_elem_of_singleton.
  - cbn [reduce_getitem] in Hr. destruct (getitem h d k) as [x|e] eqn:G; [|done].
    apply getitem_Ok in G as (l0 & m0 & -> & E0 & Ek).
    destruct (IH _ Hr Hm) as [Hin _].
    rewrite (visited_dict _ _ _ _ E0), Ek. split.
    + apply elem_of_cons. by right.
    + simpl. by rewrite E0.
Qed.

(** The loop goes through a prefix that exists without changing anything. *)
Lemma sr_loop_existing h l ks : ∀ d,
  reduce_getitem h ks d = Ok (VRef l) → is_mapping h (VRef l) = true →
  sr_loop h d ks = (Ok (VRef l), h).
Proof.
  induction ks as [|k ks IH]; intros d Hr Hm.
  - by injection Hr as ->.
  - cbn [reduce_getitem] in Hr. destruct (getitem h d k) as [x|e] eqn:G; [|done].
    apply getitem_Ok in G as (l0 & m0 & -> & E0 & Ek).
    rewrite (sr_loop_cons _ _ _ _ _ E0), Ek.
    destruct (reduce_getitem_visited _ _ _ _ Hr Hm) as [_ ->]. by apply IH.
Qed.

(** A walk to [l] on which no mapping occurs twice reads [l] last, so it is
    the same walk in a store that differs at [l] only. *)
Lemma reduce_getitem_upto h h' l ks : ∀ d,
  reduce_getitem h ks d = Ok (VRef l) → is_mapping h (VRef l) = true →
  NoDup (visited h d ks) →
  (∀ l' o, l' ≠ l → h !! l' = Some o → h' !! l' = Some o) →
  reduce_getitem h' ks d = Ok (VRef l).
Proof.
  induction ks as [|k ks IH]; intros d Hr Hm Hnd Hsame; [done|].
  cbn [reduce_getitem] in Hr. destruct (getitem h d k) as [x|e] eqn:G; [|done].
  apply getitem_Ok in G as (l0 & m0 & -> & E0 & Ek).
  rewrite (visited_dict _ _ _ _ E0), Ek in Hnd. apply NoDup_cons in Hnd as [Hnin Hnd].
  destruct (reduce_getitem_visited _ _ _ _ Hr Hm) as [Hin _].
  assert (l0 ≠ l) by (intros ->; done).
  cbn [reduce_getitem]. rewrite (getitem_dict h' l0 m0) by by apply Hsame.
  rewrite Ek. by apply IH.
Qed.


(** C6. In a tree that meets no mapping twice along a path, when the
    segment [k] of the written path, reached through the existing prefix
    [pre] and followed by further segments, holds a value that is not a
    mapping: after [_search_and_replace] that segment holds a mapping that
    was not in the store before, whose only entry is the next segment of the
    path, and the value is found at the end of the path. *)
Theorem scalar_segment_replaced h root key v pre k rest nk l m x :
  acyclic h root →
  split dot key = ((pre ++ k :: rest) ++ [nk])%list →
  reduce_getitem h pre root = Ok (VRef l) →
  h !! l = Some (ODict m) →
  m !! k = Some x →
  is_mapping h x = false →
  ∃ h2 f y,
    _search_and_replace h root key v = (Ok tt, h2) ∧
    h !! f = None ∧
    reduce_getitem h2 (pre ++ [k]) root = Ok (VRef f) ∧
    h2 !! f = Some (ODict {[ hd nk rest := y ]}) ∧
    reduce_getitem h2 (split dot key) root = Ok v.
Proof.
  intros Hac Hsplit Hpre El Ek Hx.
  assert (Hml : is_mapping h (VRef l) = true) by (simpl; by rewrite El).
  set (f := fresh (dom h)). set (h' := replaced h l m k).
  pose proof (fresh_loc_None h) as Hfn. fold f in Hfn.
  pose proof (replaced_lookup_fresh h l m k El) as Hf. fold f h' in Hf.
  assert (Hlf : l ≠ f) by (intros ->; congruence).
  assert (Hmf : is_mapping h' (VRef f) = true) by (simpl; by rewrite Hf).
  destruct (sr_set_get rest h' (VRef f) nk v Hmf) as (t & h1 & h2 & Hsr & Hset & Hred).
  { rewrite (visited_fresh_dict _ _ _ Hf). apply NoDup_singleton. }
  destruct (sr_loop_spec _ _ _ _ _ Hsr) as [Hfr Ht].
  destruct (Ht Hmf) as (lt & [= ->] & _ & Hlt).
  rewrite (visited_fresh_dict _ _ _ Hf) in Hfr, Hlt.
  pose proof Hset as Hset'.
  apply setitem_Ok in Hset' as (lt' & mt & [= <-] & Et & Hh2).
  assert (Hother : ∀ l' o, l' ≠ f → h' !! l' = Some o → l' ≠ lt ∧ h2 !! l' = Some o).
  { intros l' o Hne Hl'.
    assert (l' ≠ lt).
    { intros ->. destruct Hlt as [Hin%list_elem_of_singleton|Hn]; congruence. }
    split; [done|]. rewrite Hh2, lookup_insert_ne by done.
    apply Hfr; [done|]. by intros ?%list_elem_of_singleton. }
  assert (Hsame : ∀ l' o, l' ≠ l → h !! l' = Some o → h2 !! l' = Some o).
  { intros l' o Hne Hl'. apply Hother.
    - intros ->. congruence.
    - unfold h'. rewrite replaced_lookup_other by eauto. done. }
  assert (El2 : h2 !! l = Some (ODict (<[k := VRef f]> m))).
  { apply Hother; [done|]. apply replaced_lookup_self. }
  assert (Hpre2 : reduce_getitem h2 pre root = Ok (VRef l)).
  { by apply (reduce_getitem_upto h). }
  assert (Hk2 : getitem h2 (VRef l) k = Ok (VRef f)).
  { rewrite (getitem_dict _ _ _ _ El2). by rewrite lookup_insert_eq. }
  exists h2, f.
  assert (Hsr_all : _search_and_replace h root key v = (Ok tt, h2)).
  { unfold _search_and_replace, init_keys, last_key. rewrite Hsplit.
    rewrite removelast_last, last_last, sr_loop_app.
    rewrite (sr_loop_existing _ _ _ _ Hpre Hml).
    rewrite (sr_loop_cons _ _ _ _ _ El), Ek, Hx.
    fold f h'. by rewrite Hsr, Hset. }
  assert (Hget : reduce_getitem h2 (split dot key) root = Ok v).
  { rewrite Hsplit, <- app_assoc, reduce_getitem_app, Hpre2.
    cbn [app reduce_getitem]. by rewrite Hk2. }
  assert (Hcontent : ∃ y, h2 !! f = Some (ODict {[ hd nk rest := y ]})).
  { destruct rest as [|k' rest'].
    - cbn in Hsr. injection Hsr as <- <-. rewrite Hf in Et. injection Et as <-.
      exists v. rewrite Hh2, lookup_insert_eq. cbn. by rewrite insert_empty.
    - rewrite (sr_loop_cons _ _ _ _ _ Hf), lookup_empty in Hsr.
      destruct (sr_loop_spec _ _ _ _ _ Hsr) as [Hfr' Ht'].
      pose proof (replaced_lookup_fresh h' f ∅ k' Hf) as Hf'.
      pose proof (replaced_lookup_self h' f ∅ k') as Hff.
      assert (Hff' : f ≠ fresh (dom h')).
      { intros Heq. pose proof (fresh_loc_None h') as Hn. rewrite <- Heq in Hn. congruence. }
      destruct Ht' as (lt2 & [= <-] & _ & Hlt2); [simpl; by rewrite Hf'|].
      rewrite (visited_fresh_dict _ _ _ Hf') in Hfr', Hlt2.
      exists (VRef (fresh (dom h'))).
      assert (f ≠ lt).
      { intros <-. destruct Hlt2 as [Hin%list_elem_of_singleton|Hn]; congruence. }
      rewrite Hh2, lookup_insert_ne by done. cbn [hd].
      rewrite <- insert_empty. apply Hfr'; [done|].
      by intros ?%list_elem_of_singleton. }
  destruct Hcontent as [y Hy]. exists y.
  split; [done|]. split; [done|]. split; [|by split].
  rewrite reduce_getitem_app, Hpre2. cbn [reduce_getitem]. by rewrite Hk2.
Qed.


(** ** The frame of a write *)

Lemma search_and_replace_core h d key v :
  _search_and_replace h d key v
  = sr_core h d (init_keys (split dot key)) (last_key (split dot key)) v.
Proof. reflexivity. Qed.

Lemma sr_core_nil h l m nk v :
  h !! l = Some (ODict m) →
  sr_core h (VRef l) [] nk v = (Ok tt, <[l := ODict (<[nk := v]> m)]> h).
Proof. intros E. unfold sr_core. cbn [sr_loop]. by rewrite (setitem_dict _ _ _ _ _ E). Qed.

Lemma sr_core_cons h l m k ks nk v :
  h !! l = Some (ODict m) →
  sr_core h (VRef l) (k :: ks) nk v =
    match m !! k with
    | Some x =>
        if is_mapping h x then sr_core h x ks nk v
        else sr_core (replaced h l m k) (VRef (fresh (dom h))) ks nk v
    | None => sr_core (replaced h l m k) (VRef (fresh (dom h))) ks nk v
    end.
Proof.
  intros E. unfold sr_core. rewrite (sr_loop_cons _ _ _ _ _ E).
  destruct (m !! k) as [x|]; [destruct (is_mapping h x)|]; done.
Qed.

Lemma sr_core_not_mapping h d keys nk v :
  is_mapping h d = false → sr_core h d keys nk v = (Raise TypeError, h).
Proof.
  intros Hm. unfold sr_core. destruct keys as [|k ks].
  - cbn [sr_loop]. destruct d as [| | | |l]; try done. simpl in *.
    by destruct (h !! l) as [[m|xs]|].
  - by rewrite sr_loop_not_mapping.
Qed.

Lemma sr_core_preserves h d keys nk v r h2 :
  sr_core h d keys nk v = (r, h2) →
  ∀ l o, h !! l = Some o → l ∉ visited h d keys → h2 !! l = Some o.
Proof.
  intros Hsr l o Hl Hnot.
  destruct (is_mapping h d) eqn:Hm; cycle 1.
  { rewrite sr_core_not_mapping in Hsr by done. by injection Hsr as <- <-. }
  unfold sr_core in Hsr.
  destruct (sr_loop h d keys) as [[t|e] h1] eqn:Hloop; cycle 1.
  { injection Hsr as <- <-. by apply (sr_loop_spec _ _ _ _ _ Hloop). }
  destruct (sr_loop_spec _ _ _ _ _ Hloop) as [Hfr Ht].
  destruct (setitem h1 t nk v) as [h3|e] eqn:Hset;
    injection Hsr as <- <-; [|by apply Hfr].
  apply setitem_Ok in Hset as (lt & mt & -> & Et & ->).
  destruct (Ht Hm) as (lt' & [= <-] & _ & Hlt).
  rewrite lookup_insert_ne; [by apply Hfr|].
  intros ->. destruct Hlt as [Hin|Hn]; [done|congruence].
Qed.

Lemma closed_replaced h l m k :
  closed h → h !! l = Some (ODict m) → closed (replaced h l m k).
Proof.
  intros Hc E l0 m0 k0 l' E0 Ek0.
  assert (Hf : replaced h l m k !! fresh (dom h) = Some (ODict ∅))
    by by apply replaced_lookup_fresh.
  assert (Hl : replaced h l m k !! l = Some (ODict (<[k := VRef (fresh (dom h))]> m)))
    by apply replaced_lookup_self.
  assert (Hkeep : ∀ l1, is_Some (h !! l1) → is_Some (replaced h l m k !! l1)).
  { intros l1 Hs. destruct (decide (l1 = l)) as [->|Hne]; [by eauto|].
    by rewrite replaced_lookup_other. }
  destruct (decide (l0 = l)) as [->|Hne].
  - rewrite Hl in E0. injection E0 as <-.
    destruct (decide (k0 = k)) as [->|Hk].
    + rewrite lookup_insert_eq in Ek0. injection Ek0 as <-. by eauto.
    + rewrite lookup_insert_ne in Ek0 by done. apply Hkeep. by eapply Hc.
  - destruct (decide (l0 = fresh (dom h))) as [->|Hnf].
    + rewrite Hf in E0. injection E0 as <-. by rewrite lookup_empty in Ek0.
    + unfold replaced in E0. rewrite !lookup_insert_ne in E0 by done.
      apply Hkeep. by eapply Hc.
Qed.

(** A write keeps the store closed and forgets no object. *)
Lemma sr_core_closed keys : ∀ h d nk v r h2,
  closed h → val_ok h v →
  sr_core h d keys nk v = (r, h2) →
  closed h2 ∧ ∀ l, is_Some (h !! l) → is_Some (h2 !! l).
Proof.
  induction keys as [|k ks IH]; intros h d nk v r h2 Hc Hv Hsr.
  - destruct (is_mapping h d) eqn:Hm; cycle 1.
    { rewrite sr_core_not_mapping in Hsr by done. by injection Hsr as <- <-. }
    apply is_mapping_dict in Hm as (l & m & -> & E).
    rewrite (sr_core_nil _ _ _ _ _ E) in Hsr. injection Hsr as <- <-.
    assert (Hkeep : ∀ l1, is_Some (h !! l1) →
              is_Some (<[l := ODict (<[nk := v]> m)]> h !! l1)).
    { intros l1 Hs. destruct (decide (l1 = l)) as [->|Hne].
      - rewrite lookup_insert_eq. by eauto.
      - by rewrite lookup_insert_ne. }
    split; [|done]. intros l0 m0 k0 l' E0 Ek0. apply Hkeep.
    destruct (decide (l0 = l)) as [->|Hne].
    + rewrite lookup_insert_eq in E0. injection E0 as <-.
      destruct (decide (k0 = nk)) as [->|Hk].
      * rewrite lookup_insert_eq in Ek0. injection Ek0 as ->. by apply Hv.
      * rewrite lookup_insert_ne in Ek0 by done. by eapply Hc.
    + rewrite lookup_insert_ne in E0 by done. by eapply Hc.
  - destruct (is_mapping h d) eqn:Hm; cycle 1.
    { rewrite sr_core_not_mapping in Hsr by done. by injection Hsr as <- <-. }
    apply is_mapping_dict in Hm as (l & m & -> & E).
    rewrite (sr_core_cons _ _ _ _ _ _ _ E) in Hsr.
    assert (Hkeep : ∀ l1, is_Some (h !! l1) → is_Some (replaced h l m k !! l1)).
    { intros l1 Hs. destruct (decide (l1 = l)) as [->|Hne].
      - rewrite replaced_lookup_self. by eauto.
      - by rewrite replaced_lookup_other. }
    assert (Hrep : ∀ r h2,
      sr_core (replaced h l m k) (VRef (fresh (dom h))) ks nk v = (r, h2) →
      closed h2 ∧ ∀ l1, is_Some (h !! l1) → is_Some (h2 !! l1)).
    { intros r' h2' Hsr'.
      destruct (IH _ _ _ _ _ _ (closed_replaced _ _ _ k Hc E)
                  (fun l1 Hl1 => Hkeep _ (Hv l1 Hl1)) Hsr') as [Hc2 Hk2].
      split; [done|]. intros l1 Hs. by apply Hk2, Hkeep. }
    destruct (m !! k) as [x|]; [|exact (Hrep _ _ Hsr)].
    destruct (is_mapping h x);
      [exact (IH _ _ _ _ _ _ Hc Hv Hsr)|exact (Hrep _ _ Hsr)].
Qed.


Lemma walk_cons h k ks d :
  walk h (k :: ks) d =
    match getitem h d k with
    | Ok x => walk h ks x
    | Raise _ => VNone
    end.
Proof. unfold walk. cbn [reduce_getitem]. by destruct (getitem h d k). Qed.

Lemma getitem_not_mapping h d k :
  is_mapping h d = false → getitem h d k = Raise TypeError.
Proof.
  destruct d as [| | | |l]; try done. simpl.
  by destruct (h !! l) as [[m|xs]|].
Qed.

(** A walk reads the mappings it visits and nothing else: it is the same
    walk in a store that differs on other mappings only. *)
Lemma walk_frame h h' (changed : loc → Prop) ks : ∀ d,
  closed h → val_ok h d →
  (∀ l, changed l → ∃ m, h !! l = Some (ODict m)) →
  (∀ l o, h !! l = Some o → ¬ changed l → h' !! l = Some o) →
  (∀ l, l ∈ visited h d ks → ¬ changed l) →
  walk h' ks d = walk h ks d.
Proof.
  induction ks as [|k ks IH]; intros d Hc Hd Hdict Hsame Hvis; [done|].
  rewrite !walk_cons.
  destruct d as [| | | |l]; try done.
  destruct (Hd l eq_refl) as [o Ho].
  destruct o as [m|xs].
  - assert (Hnc : ¬ changed l).
    { apply Hvis. rewrite (visited_dict _ _ _ _ Ho). apply elem_of_cons. by left. }
    rewrite (getitem_dict _ _ _ _ Ho), (getitem_dict _ _ _ _ (Hsame _ _ Ho Hnc)).
    destruct (m !! k) as [x|] eqn:Ek; [|done].
    apply IH; try done.
    + intros l' ->. by eapply Hc.
    + intros l' Hin. apply Hvis.
      rewrite (visited_dict _ _ _ _ Ho), Ek. apply elem_of_cons. by right.
  - assert (Hnc : ¬ changed l).
    { intros Hch. destruct (Hdict _ Hch) as [m Hm]. congruence. }
    rewrite !getitem_not_mapping; [done| |]; simpl.
    + by rewrite Ho.
    + by rewrite (Hsame _ _ Ho Hnc).
Qed.

Lemma walk_closed_mono h h' ks d :
  closed h → val_ok h d → h ⊆ h' → walk h' ks d = walk h ks d.
Proof.
  intros Hc Hd Hsub. apply (walk_frame h h' (fun _ => False)); try done.
  - intros l o Ho _. by eapply lookup_weaken.
  - intros l _ [].
Qed.

Lemma unshared_step h l m k x :
  h !! l = Some (ODict m) → m !! k = Some x →
  unshared h (VRef l) → unshared h x.
Proof.
  intros E Ek Hun p q l' Hp Hq Hm.
  assert (Heq : k :: p = k :: q); [|by injection Heq].
  apply (Hun _ _ l'); [| |done]; cbn [reduce_getitem];
    by rewrite (getitem_dict _ _ _ _ E), Ek.
Qed.

(** In a tree without sharing, a mapping is not met again below itself, and
    the subtrees under two different keys have no mapping in common. *)
Lemma unshared_not_below h l m k x ks :
  h !! l = Some (ODict m) → m !! k = Some x →
  unshared h (VRef l) → l ∉ visited h x ks.
Proof.
  intros E Ek Hun Hin.
  apply visited_reached in Hin as (ks' & _ & Hr & Hm).
  assert (Heq : k :: ks' = []); [|done].
  apply (Hun _ _ l); [|done|done].
  cbn [reduce_getitem]. by rewrite (getitem_dict _ _ _ _ E), Ek.
Qed.

Lemma unshared_apart h l m k1 k2 x1 x2 ks1 ks2 l' :
  h !! l = Some (ODict m) → m !! k1 = Some x1 → m !! k2 = Some x2 → k1 ≠ k2 →
  unshared h (VRef l) →
  l' ∈ visited h x1 ks1 → l' ∈ visited h x2 ks2 → False.
Proof.
  intros E E1 E2 Hne Hun Hin1 Hin2.
  apply visited_reached in Hin1 as (p1 & _ & Hr1 & Hm).
  apply visited_reached in Hin2 as (p2 & _ & Hr2 & _).
  assert (Heq : k1 :: p1 = k2 :: p2); [|by injection Heq].
  apply (Hun _ _ l'); [| |done]; cbn [reduce_getitem];
    rewrite (getitem_dict _ _ _ _ E); by rewrite ?E1, ?E2.
Qed.

Lemma unshared_empty_dict h l :
  h !! l = Some (ODict ∅) → unshared h (VRef l).
Proof.
  intros E p q l' Hp Hq _.
  assert (Hnil : ∀ p, reduce_getitem h p (VRef l) = Ok (VRef l') → p = []).
  { intros [|k p']; [done|]. cbn [reduce_getitem].
    by rewrite (getitem_dict _ _ _ _ E), lookup_empty. }
  by rewrite (Hnil p), (Hnil q).
Qed.

Lemma walk_empty_dict h l k ks :
  h !! l = Some (ODict ∅) → walk h (k :: ks) (VRef l) = VNone.
Proof. intros E. by rewrite walk_cons, (getitem_dict _ _ _ _ E), lookup_empty. Qed.


(** The frame of a write, in memory: in a closed store without sharing, a
    write along [keys ++ [nk]] does not change what a walk along [q] finds,
    when neither path is a prefix of the other. *)
Lemma sr_core_frame keys : ∀ h d nk v q r h2,
  closed h → val_ok h d → unshared h d →
  ¬ q `prefix_of` (keys ++ [nk])%list → ¬ (keys ++ [nk])%list `prefix_of` q →
  sr_core h d keys nk v = (r, h2) →
  walk h2 q d = walk h q d.
Proof.
  induction keys as [|k ks IH]; intros h d nk v q r h2 Hc Hd Hun Hqp Hpq Hsr;
    (destruct (is_mapping h d) eqn:Hm;
       [|rewrite sr_core_not_mapping in Hsr by done; by injection Hsr as <- <-]);
    apply is_mapping_dict in Hm as (l & m & -> & E);
    (destruct q as [|qk qs]; [destruct Hqp; apply prefix_nil|]).
  - rewrite (sr_core_nil _ _ _ _ _ E) in Hsr. injection Hsr as <- <-.
    assert (Hne : nk ≠ qk).
    { intros ->. apply Hpq. apply prefix_cons, prefix_nil. }
    rewrite !walk_cons.
    rewrite (getitem_dict _ l (<[nk := v]> m)) by apply lookup_insert_eq.
    rewrite (getitem_dict _ _ _ _ E), lookup_insert_ne by done.
    destruct (m !! qk) as [y|] eqn:Ey; [|done].
    apply (walk_frame h _ (fun l' => l' = l)); try done.
    + intros l' ->. by eapply Hc.
    + intros l' ->. eauto.
    + intros l' o Ho Hn. by rewrite lookup_insert_ne.
    + intros l' Hin ->. by eapply (unshared_not_below h l m qk y qs).
  - rewrite (sr_core_cons _ _ _ _ _ _ _ E) in Hsr. cbn [app] in Hqp, Hpq.
    set (f := fresh (dom h)) in *. set (h' := replaced h l m k) in *.
    pose proof (fresh_loc_None h) as Hfn. fold f in Hfn.
    pose proof (replaced_lookup_fresh h l m k E) as Hf. fold f h' in Hf.
    pose proof (replaced_lookup_self h l m k) as Hl'. fold f h' in Hl'.
    assert (Hlf : l ≠ f) by (intros ->; congruence).
    assert (Hqs : qk = k → ¬ qs `prefix_of` (ks ++ [nk])%list ∧ ¬ (ks ++ [nk])%list `prefix_of` qs).
    { intros ->. split; intros Hp; [apply Hqp|apply Hpq]; by apply prefix_cons. }
    assert (Hrep : (qk = k → walk h (qk :: qs) (VRef l) = VNone) →
      ∀ r h2, sr_core h' (VRef f) ks nk v = (r, h2) →
              walk h2 (qk :: qs) (VRef l) = walk h (qk :: qs) (VRef l)).
    { intros Hbefore r' h2' Hsr'.
      pose proof (sr_core_preserves _ _ _ _ _ _ _ Hsr') as Hfr.
      rewrite (visited_fresh_dict _ _ _ Hf) in Hfr.
      assert (El2 : h2' !! l = Some (ODict (<[k := VRef f]> m))).
      { apply Hfr; [done|]. by intros ?%list_elem_of_singleton. }
      destruct (decide (qk = k)) as [->|Hne].
      - rewrite Hbefore by done. destruct (Hqs eq_refl) as [Hqp' Hpq'].
        rewrite walk_cons, (getitem_dict _ _ _ _ El2), lookup_insert_eq.
        destruct qs as [|q1 qs']; [destruct Hqp'; apply prefix_nil|].
        rewrite (IH h' (VRef f) nk v (q1 :: qs') r' h2'); try done.
        + by apply walk_empty_dict.
        + by apply closed_replaced.
        + intros l0 [= <-]. eauto.
        + by apply unshared_empty_dict.
      - rewrite !walk_cons, (getitem_dict _ _ _ _ El2), (getitem_dict _ _ _ _ E).
        rewrite lookup_insert_ne by done.
        destruct (m !! qk) as [y|] eqn:Ey; [|done].
        apply (walk_frame h _ (fun l' => l' = l)); try done.
        + intros l' ->. by eapply Hc.
        + intros l' ->. eauto.
        + intros l' o Ho Hn. apply Hfr.
          * unfold h'. rewrite replaced_lookup_other by eauto. done.
          * intros ->%list_elem_of_singleton. congruence.
        + intros l' Hin ->. by eapply (unshared_not_below h l m qk y qs). }
    destruct (m !! k) as [x|] eqn:Ek; cycle 1.
    { eapply Hrep; [|exact Hsr]. intros ->. by rewrite walk_cons, (getitem_dict _ _ _ _ E), Ek. }
    destruct (is_mapping h x) eqn:Hx; cycle 1.
    { eapply Hrep; [|exact Hsr]. intros ->.
      destruct (Hqs eq_refl) as [Hqp' _].
      destruct qs as [|q1 qs']; [destruct Hqp'; apply prefix_nil|].
      rewrite walk_cons, (getitem_dict _ _ _ _ E), Ek, walk_cons.
      by rewrite getitem_not_mapping. }
    pose proof (sr_core_preserves _ _ _ _ _ _ _ Hsr) as Hfr.
    assert (El2 : h2 !! l = Some (ODict m)).
    { apply Hfr; [done|]. by eapply unshared_not_below. }
    rewrite !walk_cons, (getitem_dict _ _ _ _ El2), (getitem_dict _ _ _ _ E).
    destruct (decide (qk = k)) as [->|Hne].
    + rewrite Ek. destruct (Hqs eq_refl) as [Hqp' Hpq'].
      apply (IH h x nk v qs r h2); try done.
      * intros l' ->. by eapply Hc.
      * by eapply unshared_step.
    + destruct (m !! qk) as [y|] eqn:Ey; [|done].
      apply (walk_frame h _ (fun l' => l' ∈ visited h x ks)); try done.
      * intros l' ->. by eapply Hc.
      * intros l' Hin. by eapply visited_is_dict.
      * intros l' Hin1 Hin2. by eapply (unshared_apart h l m qk k y x qs ks l').
Qed.


(** ** Presence of a path *)

Lemma reduce_getitem_path h ks : ∀ d x,
  reduce_getitem h ks d = Ok x ↔ path_to h d ks x.
Proof.
  induction ks as [|k ks IH]; intros d x.
  - cbn. split; [intros [= ->]; constructor|by inversion 1].
  - cbn [reduce_getitem]. split.
    + destruct (getitem h d k) as [v|e] eqn:G; [|done].
      apply getitem_Ok in G as (l & m & -> & E & Ek).
      intros Hr. apply IH in Hr. by econstructor.
    + inversion 1 as [|l m k' v ks' x' E Ek Hp]; subst.
      rewrite (getitem_dict _ _ _ _ E), Ek. by apply IH.
Qed.

(** C5 (as the code has it). For a non-empty key whose path is not present
    in the tree, [get_val] returns [None], and it never raises; [None] is
    also what it returns for a path that holds [None] (a JSON null), so a
    miss is not told apart from a stored null. *)
Theorem get_val_not_found h root key :
  key ≠ "" →
  ¬ present h root key ∨ path_to h root (split dot key) VNone →
  get_val h root key = VNone.
Proof.
  intros Hkey Hcase. rewrite get_val_walk by done. unfold walk.
  destruct (reduce_getitem h (split dot key) root) as [x|e] eqn:Hr; [|done].
  apply reduce_getitem_path in Hr.
  destruct Hcase as [Hnot|Hnull].
  - exfalso. apply Hnot. by exists x.
  - apply reduce_getitem_path in Hr, Hnull. congruence.
Qed.


(** ** Class lookup *)

Lemma append_inj_l (p a b : string) : (p ++ a)%string = (p ++ b)%string → a = b.
Proof. induction p as [|c p IH]; simpl; [done|]. intros [= H]. by apply IH. Qed.

(** The types [get_class] finds a class for. *)
Lemma module_attr_provider ty :
  module_attr ("ConfigurationProvider" ++ ty) =
    if decide (ty = "") then Some ConfigurationProvider
    else if decide (ty = "File") then Some ConfigurationProviderFile
    else if decide (ty = "Consul") then Some ConfigurationProviderConsul
    else None.
Proof.
  destruct (decide (ty = "")) as [->|H0]; [reflexivity|].
  destruct (decide (ty = "File")) as [->|H1]; [reflexivity|].
  destruct (decide (ty = "Consul")) as [->|H2]; [reflexivity|].
  unfold module_attr.
  destruct (decide _) as [Heq|_].
  { destruct H0. by apply (append_inj_l "ConfigurationProvider" ty ""). }
  destruct (decide _) as [Heq|_].
  { destruct H1. by apply (append_inj_l "ConfigurationProvider" ty "File"). }
  destruct (decide _) as [Heq|_]; [|done].
  destruct H2. by apply (append_inj_l "ConfigurationProvider" ty "Consul").
Qed.


(** ** Depth of a structure *)

Lemma reify_ref_Some n h l :
  is_Some (reify n h (VRef l)) → ∃ n' o, n = S n' ∧ h !! l = Some o.
Proof.
  destruct n as [|n']; [by intros [? ?]|]. intros [t Ht]. cbn [reify] in Ht.
  destruct (h !! l) as [o|]; [by eauto|done].
Qed.

Lemma reify_child n h l m k x :
  h !! l = Some (ODict m) → m !! k = Some x →
  is_Some (reify (S n) h (VRef l)) → is_Some (reify n h x).
Proof.
  intros E Ek [t Ht].
  destruct (reify_dict_elim _ _ _ _ _ E Ht) as (jm & _ & Hrel).
  specialize (Hrel k). rewrite Ek in Hrel.
  destruct (jm !! k) as [tx|]; [by eauto|done].
Qed.

Lemma reify_is_Some_mono n n' h v :
  is_Some (reify n h v) → (n ≤ n')%nat → is_Some (reify n' h v).
Proof. intros [t Ht] Hle. exists t. by eapply reify_mono. Qed.

(** An object that needs depth [S (S n)] has a child that needs depth
    [S n]. *)
Lemma reify_deeper_child n h l :
  reify (S n) h (VRef l) = None → is_Some (reify (S (S n)) h (VRef l)) →
  ∃ l', reify n h (VRef l') = None ∧ is_Some (reify (S n) h (VRef l')).
Proof.
  intros Hnone [t Ht].
  destruct (reify_ref_Some _ _ _ (ex_intro _ t Ht)) as (_ & o & _ & E).
  assert (Href : ∀ x, reify n h x = None → ∃ l', x = VRef l').
  { intros x Hx. destruct x; try (by destruct n). eauto. }
  destruct o as [m|xs].
  - cbn [reify] in Hnone. rewrite E in Hnone. cbv zeta in Hnone.
    destruct (decide _) as [|Hnot]; [done|].
    apply map_not_Forall in Hnot; [|apply _].
    destruct Hnot as (k & o' & Hk & Ho').
    rewrite lookup_fmap in Hk. destruct (m !! k) as [x|] eqn:Ek; [|done].
    injection Hk as <-.
    assert (Hx : reify n h x = None).
    { destruct (reify n h x); [destruct Ho'; eauto|done]. }
    destruct (Href _ Hx) as [l' ->]. exists l'. split; [done|].
    eapply reify_child; [exact E|exact Ek|by eauto].
  - destruct (proj1 (reify_list _ _ _ _ _ E) Ht) as (ts & Heq & Hall).
    cbn [reify] in Hnone. rewrite E in Hnone.
    destruct (mapM (reify n h) xs) as [ts'|] eqn:Hm; [done|].
    apply mapM_None, Exists_exists in Hm as (x & Hin & Hx).
    destruct (Href _ Hx) as [l' ->]. exists l'. split; [done|].
    apply list_elem_of_lookup in Hin as [i Hi].
    destruct (Forall2_lookup_l _ _ _ _ _ Hall Hi) as (tx & _ & Htx). eauto.
Qed.

(** An object that needs depth [S n] heads a chain of [S n] objects, one
    for each smaller depth. *)
Lemma reify_chain n h : ∀ l,
  reify n h (VRef l) = None → is_Some (reify (S n) h (VRef l)) →
  ∃ ls : list loc,
    List.length ls = S n ∧
    ∀ i l', ls !! i = Some l' →
            reify i h (VRef l') = None ∧ is_Some (reify (S i) h (VRef l')).
Proof.
  induction n as [|n IH]; intros l Hnone Hsome.
  - exists [l]. split; [done|]. intros i l' Hi.
    apply list_lookup_singleton_Some in Hi as [-> <-]. done.
  - destruct (reify_deeper_child _ _ _ Hnone Hsome) as (l' & Hn' & Hs').
    destruct (IH l' Hn' Hs') as (ls & Hlen & Hls).
    exists (ls ++ [l])%list. split; [rewrite length_app; simpl; lia|].
    intros i l0 Hi. apply lookup_app_Some in Hi as [Hi|[Hge Hi]]; [by apply Hls|].
    apply list_lookup_singleton_Some in Hi as [Hi <-].
    replace i with (S n) by lia. done.
Qed.

Lemma reify_depth_bound n h l :
  reify n h (VRef l) = None → is_Some (reify (S n) h (VRef l)) →
  (n < size h)%nat.
Proof.
  intros Hnone Hsome.
  destruct (reify_chain _ _ _ Hnone Hsome) as (ls & Hlen & Hls).
  assert (Hnd : NoDup ls).
  { apply NoDup_alt. intros i j l' Hi Hj.
    destruct (Hls _ _ Hi) as [Hni Hsi]. destruct (Hls _ _ Hj) as [Hnj Hsj].
    destruct (decide (i = j)) as [|Hne]; [done|]. exfalso.
    destruct (decide (i < j)%nat).
    - pose proof (reify_is_Some_mono _ j _ _ Hsi ltac:(lia)) as [? ?]. congruence.
    - pose proof (reify_is_Some_mono _ i _ _ Hsj ltac:(lia)) as [? ?]. congruence. }
  assert (Hsub : list_to_set ls ⊆ dom h).
  { intros l' Hin. apply elem_of_list_to_set, list_elem_of_lookup in Hin as [i Hi].
    destruct (Hls _ _ Hi) as [_ Hsi].
    destruct (reify_ref_Some _ _ _ Hsi) as (_ & o & _ & E).
    apply elem_of_dom. eauto. }
  apply subseteq_size in Hsub.
  rewrite size_list_to_set, size_dom in Hsub by done. lia.
Qed.

(** The depth [json_of] reads to is enough: a value that denotes a
    document at some depth denotes it at that one. *)
Lemma reify_json_of n h v t : reify n h v = Some t → json_of h v = Some t.
Proof.
  unfold json_of. induction n as [|n IH]; intros Hr.
  - eapply reify_mono; [exact Hr|lia|done].
  - destruct (reify n h v) as [t'|] eqn:Hn.
    + assert (t' = t) as ->.
      { pose proof (reify_mono _ (S n) _ h _ _ Hn ltac:(lia) ltac:(done)). congruence. }
      by apply IH.
    + assert (∃ l, v = VRef l) as [l ->].
      { destruct v; try (by destruct n). eauto. }
      pose proof (reify_depth_bound _ _ _ Hn (ex_intro _ t Hr)).
      eapply reify_mono; [exact Hr|lia|done].
Qed.

(** A value that denotes a document is a tree without cycles. *)
Lemma visited_reify h keys : ∀ n d l,
  is_Some (reify n h d) → l ∈ visited h d keys → is_Some (reify n h (VRef l)).
Proof.
  induction keys as [|k ks IH]; intros n d l Hs Hin;
    destruct d as [| | | |l0]; try (by apply elem_of_nil in Hin);
    cbn [visited] in Hin;
    destruct (h !! l0) as [[m|xs]|] eqn:E; try (by apply elem_of_nil in Hin).
  - by apply list_elem_of_singleton in Hin as ->.
  - apply elem_of_cons in Hin as [->|Hin]; [done|].
    destruct (m !! k) as [x|] eqn:Ek; [|by apply elem_of_nil in Hin].
    destruct (reify_ref_Some _ _ _ Hs) as (n' & _ & -> & _).
    apply (reify_is_Some_mono n'); [|lia].
    apply (IH n' x); [|done]. by eapply reify_child.
Qed.

Lemma reify_not_below n h : ∀ l m k x ks,
  is_Some (reify n h (VRef l)) →
  h !! l = Some (ODict m) → m !! k = Some x → l ∉ visited h x ks.
Proof.
  induction n as [|n IH]; intros l m k x ks Hs E Ek Hin.
  - by destruct Hs.
  - apply (IH l m k x ks); [|done|done|done].
    apply (visited_reify h ks n x); [|done]. by eapply reify_child.
Qed.

Lemma reify_acyclic n h v : is_Some (reify n h v) → acyclic h v.
Proof.
  intros Hs keys. revert n v Hs.
  induction keys as [|k ks IH]; intros n v Hs;
    destruct v as [| | | |l]; try apply NoDup_nil_2;
    cbn [visited]; destruct (h !! l) as [[m|xs]|] eqn:E; try apply NoDup_nil_2.
  - apply NoDup_singleton.
  - destruct (m !! k) as [x|] eqn:Ek; [|apply NoDup_singleton].
    destruct (reify_ref_Some _ _ _ Hs) as (n' & _ & -> & _).
    apply NoDup_cons. split.
    + by eapply reify_not_below.
    + apply (IH n'). by eapply reify_child.
Qed.


(** ** Trees without sharing *)

(** Walks and the mappings they visit are the same in a store that
    differs on other mappings only. *)
Lemma reduce_frame h h' (changed : loc → Prop) ks : ∀ d,
  closed h → val_ok h d →
  (∀ l, changed l → ∃ m, h !! l = Some (ODict m)) →
  (∀ l o, h !! l = Some o → ¬ changed l → h' !! l = Some o) →
  (∀ l, l ∈ visited h d ks → ¬ changed l) →
  reduce_getitem h' ks d = reduce_getitem h ks d ∧
  visited h' d ks = visited h d ks.
Proof.
  induction ks as [|k ks IH]; intros d Hc Hd Hdict Hsame Hvis.
  - split; [done|]. destruct d as [| | | |l]; try done.
    destruct (Hd l eq_refl) as [o Ho]. cbn [visited]. rewrite Ho.
    destruct o as [m|xs].
    + rewrite (Hsame _ _ Ho); [done|]. apply Hvis.
      rewrite (visited_dict _ _ _ _ Ho). by apply list_elem_of_singleton.
    + rewrite (Hsame _ _ Ho); [done|].
      intros Hch. destruct (Hdict _ Hch) as [m Hm]. congruence.
  - destruct d as [| | | |l]; try done.
    destruct (Hd l eq_refl) as [o Ho]. cbn [visited reduce_getitem getitem].
    rewrite Ho. destruct o as [m|xs].
    + assert (Hnc : ¬ changed l).
      { apply Hvis. rewrite (visited_dict _ _ _ _ Ho). apply elem_of_cons. by left. }
      rewrite (Hsame _ _ Ho Hnc).
      destruct (m !! k) as [x|] eqn:Ek; [|done].
      destruct (IH x) as [-> ->]; try done.
      * intros l' ->. by eapply Hc.
      * intros l' Hin. apply Hvis.
        rewrite (visited_dict _ _ _ _ Ho), Ek. apply elem_of_cons. by right.
    + rewrite (Hsame _ _ Ho); [done|].
      intros Hch. destruct (Hdict _ Hch) as [m Hm]. congruence.
Qed.

Lemma reduce_closed_mono h h' ks d :
  closed h → val_ok h d → h ⊆ h' →
  reduce_getitem h' ks d = reduce_getitem h ks d ∧
  visited h' d ks = visited h d ks.
Proof.
  intros Hc Hd Hsub. apply (reduce_frame h h' (fun _ => False)); try done.
  - intros l o Ho _. by eapply lookup_weaken.
  - intros l _ [].
Qed.

Lemma reduce_val_ok h ks : ∀ d x,
  closed h → val_ok h d → reduce_getitem h ks d = Ok x → val_ok h x.
Proof.
  induction ks as [|k ks IH]; intros d x Hc Hd Hr.
  - by injection Hr as <-.
  - cbn [reduce_getitem] in Hr. destruct (getitem h d k) as [y|e] eqn:G; [|done].
    apply getitem_Ok in G as (l & m & -> & E & Ek).
    apply (IH y x); [done| |done]. intros l' ->. by eapply Hc.
Qed.

Lemma unshared_mono h h' d :
  closed h → val_ok h d → h ⊆ h' → unshared h d → unshared h' d.
Proof.
  intros Hc Hd Hsub Hun p q l Hp Hq Hm.
  rewrite (proj1 (reduce_closed_mono h h' p d Hc Hd Hsub)) in Hp.
  rewrite (proj1 (reduce_closed_mono h h' q d Hc Hd Hsub)) in Hq.
  apply (Hun p q l); [done|done|].
  destruct (reduce_val_ok _ _ _ _ Hc Hd Hp l eq_refl) as [o Ho].
  simpl in *. by rewrite (lookup_weaken _ _ _ _ Ho Hsub) in Hm; rewrite Ho.
Qed.

Lemma unshared_not_mapping h d : is_mapping h d = false → unshared h d.
Proof.
  intros Hm p q l Hp Hq _.
  assert (Hnil : ∀ p, reduce_getitem h p d = Ok (VRef l) → p = []).
  { intros [|k p']; [done|]. cbn [reduce_getitem].
    by rewrite getitem_not_mapping. }
  by rewrite (Hnil p), (Hnil q).
Qed.

(** A mapping whose entries head trees without sharing, apart from each
    other and not reaching back to it, heads a tree without sharing. *)
Lemma unshared_root h f vm :
  h !! f = Some (ODict vm) →
  (∀ k v, vm !! k = Some v → unshared h v) →
  (∀ k v ks, vm !! k = Some v → f ∉ visited h v ks) →
  (∀ k1 k2 v1 v2 ks1 ks2 l, k1 ≠ k2 → vm !! k1 = Some v1 → vm !! k2 = Some v2 →
     l ∈ visited h v1 ks1 → l ∈ visited h v2 ks2 → False) →
  unshared h (VRef f).
Proof.
  intros E Hun Hback Hapart p q l Hp Hq Hm.
  assert (Hnil : ∀ k p', reduce_getitem h (k :: p') (VRef f) = Ok (VRef f) → False).
  { intros k p'. cbn [reduce_getitem]. rewrite (getitem_dict _ _ _ _ E).
    destruct (vm !! k) as [v|] eqn:Ek; [|done]. intros Hr.
    apply (Hback k v p' Ek). apply (reduce_getitem_visited _ _ _ _ Hr).
    simpl. by rewrite E. }
  destruct p as [|k1 p'], q as [|k2 q']; [done| | |].
  - injection Hp as <-. by destruct (Hnil _ _ Hq).
  - injection Hq as <-. by destruct (Hnil _ _ Hp).
  - cbn [reduce_getitem] in Hp, Hq.
    rewrite (getitem_dict _ _ _ k1 E) in Hp. rewrite (getitem_dict _ _ _ k2 E) in Hq.
    destruct (vm !! k1) as [v1|] eqn:E1; [|done].
    destruct (vm !! k2) as [v2|] eqn:E2; [|done].
    destruct (decide (k1 = k2)) as [->|Hne].
    + rewrite E1 in E2. injection E2 as <-. f_equal. by eapply (Hun k2 v1).
    + exfalso. apply (Hapart k1 k2 v1 v2 p' q' l Hne E1 E2).
      * by apply (reduce_getitem_visited _ _ _ _ Hp).
      * by apply (reduce_getitem_visited _ _ _ _ Hq).
Qed.

(** A tree without sharing has no cycle. *)
Lemma unshared_acyclic h d : unshared h d → acyclic h d.
Proof.
  intros Hun keys. revert d Hun.
  induction keys as [|k ks IH]; intros d Hun;
    destruct d as [| | | |l]; try apply NoDup_nil_2;
    cbn [visited]; destruct (h !! l) as [[m|xs]|] eqn:E; try apply NoDup_nil_2.
  - apply NoDup_singleton.
  - destruct (m !! k) as [x|] eqn:Ek; [|apply NoDup_singleton].
    apply NoDup_cons. split.
    + by eapply unshared_not_below.
    + apply IH. by eapply unshared_step.
Qed.


(** ** The trees [json.load] builds *)

Lemma val_ok_mono h h' v : h ⊆ h' → val_ok h v → val_ok h' v.
Proof.
  intros Hsub Hv l Hl. destruct (Hv l Hl) as [o Ho].
  exists o. by eapply lookup_weaken.
Qed.

Lemma closed_alloc_dict h (vm : gmap string val) :
  closed h → (∀ k v, vm !! k = Some v → val_ok h v) →
  closed (<[fresh (dom h) := ODict vm]> h).
Proof.
  intros Hc Hvm l m k l' E Ek.
  pose proof (insert_subseteq h (fresh (dom h)) (ODict vm) (fresh_loc_None h)) as Hsub.
  destruct (decide (l = fresh (dom h))) as [->|Hne].
  - rewrite lookup_insert_eq in E. injection E as <-.
    by apply (val_ok_mono h _ _ Hsub (Hvm _ _ Ek)).
  - rewrite lookup_insert_ne in E by done.
    destruct (Hc _ _ _ _ E Ek) as [o Ho]. exists o. by eapply lookup_weaken.
Qed.

Lemma closed_alloc_list h (vs : list val) :
  closed h → closed (<[fresh (dom h) := OList vs]> h).
Proof.
  intros Hc l m k l' E Ek.
  pose proof (insert_subseteq h (fresh (dom h)) (OList vs) (fresh_loc_None h)) as Hsub.
  destruct (decide (l = fresh (dom h))) as [->|Hne].
  - by rewrite lookup_insert_eq in E.
  - rewrite lookup_insert_ne in E by done.
    destruct (Hc _ _ _ _ E Ek) as [o Ho]. exists o. by eapply lookup_weaken.
Qed.

Lemma alloc_list_shape xs :
  Forall (fun t => ∀ h, closed h → tree_shaped (alloc t h).1 (alloc t h).2) xs →
  ∀ h, closed h →
    closed (foldr (fun t' '(h0, vs) => let '(h1, v) := alloc t' h0 in (h1, v :: vs))
                  (h, []) xs).1.
Proof.
  induction 1 as [|t xs Ht _ IH]; intros h Hc; cbn [foldr]; [done|].
  specialize (IH h Hc). destruct (foldr _ (h, []) xs) as [h0 vs]. cbn [fst] in IH.
  specialize (Ht h0 IH). destruct (alloc t h0) as [h1 v]. by destruct Ht.
Qed.

Lemma alloc_entries_shape (kts : list (string * json)) :
  Forall (fun kt => ∀ h, closed h → tree_shaped (alloc kt.2 h).1 (alloc kt.2 h).2) kts →
  ∀ h, closed h →
    let r := foldr (uncurry (fun k t' '(h0, vm) =>
                      let '(h1, v) := alloc t' h0 in (h1, <[k := v]> vm)))
                   (h, (∅ : gmap string val)) kts in
    closed r.1 ∧
    (∀ k v, r.2 !! k = Some v → val_ok r.1 v ∧ unshared r.1 v) ∧
    (∀ k1 k2 v1 v2 ks1 ks2 l, k1 ≠ k2 →
       r.2 !! k1 = Some v1 → r.2 !! k2 = Some v2 →
       l ∈ visited r.1 v1 ks1 → l ∈ visited r.1 v2 ks2 → False).
Proof.
  induction 1 as [|[k0 t] kts Ht _ IH]; intros h Hc; cbn [foldr].
  - cbn. split; [done|]. split; intros *; by rewrite ?lookup_empty.
  - specialize (IH h Hc). cbv zeta in IH.
    destruct (foldr _ (h, ∅) kts) as [h0 vm]. cbn [fst snd uncurry] in *.
    destruct IH as (Hc0 & Hent & Hapart).
    specialize (Ht h0 Hc0). destruct (alloc_spec t h0) as (S1 & N1 & V1 & _).
    destruct (alloc t h0) as [h1 v]. cbn [fst snd] in *.
    destruct Ht as (Hc1 & Hv1 & Hu1).
    assert (Hold : ∀ k v' ks, vm !! k = Some v' →
              visited h1 v' ks = visited h0 v' ks).
    { intros k v' ks Hk. destruct (Hent _ _ Hk) as [Hok _].
      by apply (reduce_closed_mono h0 h1 ks v'). }
    assert (Hnew : ∀ k v' ks ks' l, vm !! k = Some v' →
              l ∈ visited h1 v ks → l ∈ visited h1 v' ks' → False).
    { intros k v' ks ks' l Hk Hin Hin'.
      rewrite (Hold _ _ _ Hk) in Hin'. apply visited_is_dict in Hin' as [m Hm].
      apply (visited_new h0 h1 _ _ N1 V1) in Hin. congruence. }
    split; [done|]. split.
    + intros k v'. destruct (decide (k0 = k)) as [->|Hne].
      * rewrite lookup_insert_eq. by intros [= <-].
      * rewrite lookup_insert_ne by done. intros Hk.
        destruct (Hent _ _ Hk) as [Hok Hun]. split.
        -- by eapply val_ok_mono.
        -- by apply (unshared_mono h0).
    + intros k1 k2 v1 v2 ks1 ks2 l Hne.
      destruct (decide (k0 = k1)) as [->|Hne1];
        [rewrite lookup_insert_eq, lookup_insert_ne by done
        |rewrite (lookup_insert_ne _ k0 k1) by done;
         destruct (decide (k0 = k2)) as [->|Hne2];
         [rewrite lookup_insert_eq|rewrite lookup_insert_ne by done]].
      * intros [= <-] Hk2 Hin1 Hin2. by eapply Hnew.
      * intros Hk1 [= <-] Hin1 Hin2. by eapply Hnew.
      * intros Hk1 Hk2 Hin1 Hin2.
        rewrite (Hold _ _ _ Hk1) in Hin1. rewrite (Hold _ _ _ Hk2) in Hin2.
        by eapply (Hapart k1 k2).
Qed.

(** In a closed store, [alloc] builds a tree and keeps the store closed. *)
Lemma alloc_shape t : ∀ h, closed h → tree_shaped (alloc t h).1 (alloc t h).2.
Proof.
  induction t as [|b|z|s|xs IH|m IH] using json_ind'; intros h Hc;
    try (split; [done|]; split; [intros l; discriminate|];
         by apply unshared_not_mapping).
  - cbn [alloc].
    pose proof (alloc_list_shape xs IH h Hc) as Hc0.
    destruct (foldr _ (h, []) xs) as [h0 vs]. cbn [fst snd alloc_obj] in *.
    split; [by apply closed_alloc_list|]. split.
    + intros l [= <-]. rewrite lookup_insert_eq. eauto.
    + apply unshared_not_mapping. simpl. by rewrite lookup_insert_eq.
  - cbn [alloc]. rewrite map_fold_foldr.
    assert (Hall : Forall (fun kt => ∀ h, closed h →
                     tree_shaped (alloc kt.2 h).1 (alloc kt.2 h).2) (map_to_list m)).
    { apply Forall_forall. intros [k t] Hin. apply elem_of_map_to_list in Hin.
      by apply (IH k t). }
    pose proof (alloc_entries_shape _ Hall h Hc) as Hfold. cbv zeta in Hfold.
    destruct (foldr _ (h, ∅) (map_to_list m)) as [h0 vm].
    cbn [fst snd alloc_obj] in *.
    destruct Hfold as (Hc0 & Hent & Hapart).
    set (f := fresh (dom h0)).
    pose proof (insert_subseteq h0 f (ODict vm) (fresh_loc_None h0)) as Hsub.
    assert (Hold : ∀ k v ks, vm !! k = Some v →
              visited (<[f := ODict vm]> h0) v ks = visited h0 v ks).
    { intros k v ks Hk. destruct (Hent _ _ Hk) as [Hok _].
      by apply (reduce_closed_mono h0 _ ks v). }
    split; [|split].
    + apply closed_alloc_dict; [done|]. intros k v Hk. by destruct (Hent _ _ Hk).
    + intros l [= <-]. rewrite lookup_insert_eq. eauto.
    + apply (unshared_root _ f vm).
      * apply lookup_insert_eq.
      * intros k v Hk. destruct (Hent _ _ Hk) as [Hok Hun].
        by apply (unshared_mono h0).
      * intros k v ks Hk Hin. rewrite (Hold _ _ _ Hk) in Hin.
        apply visited_is_dict in Hin as [m' Hm'].
        pose proof (fresh_loc_None h0). unfold f in Hm'. congruence.
      * intros k1 k2 v1 v2 ks1 ks2 l Hne Hk1 Hk2 Hin1 Hin2.
        rewrite (Hold _ _ _ Hk1) in Hin1. rewrite (Hold _ _ _ Hk2) in Hin2.
        by eapply (Hapart k1 k2).
Qed.


(** ** Writing a scalar keeps the tree a tree *)

Lemma visited_scalar h v ks : (∀ l, v ≠ VRef l) → visited h v ks = [].
Proof. intros Hv. destruct v, ks; try done; by destruct (Hv l). Qed.

Lemma unshared_frame h h' (changed : loc → Prop) d :
  closed h → val_ok h d →
  (∀ l, changed l → ∃ m, h !! l = Some (ODict m)) →
  (∀ l o, h !! l = Some o → ¬ changed l → h' !! l = Some o) →
  (∀ ks l, l ∈ visited h d ks → ¬ changed l) →
  unshared h d → unshared h' d.
Proof.
  intros Hc Hd Hdict Hsame Hvis Hun p q l Hp Hq Hm.
  rewrite (proj1 (reduce_frame h h' changed p d Hc Hd Hdict Hsame (Hvis p))) in Hp.
  rewrite (proj1 (reduce_frame h h' changed q d Hc Hd Hdict Hsame (Hvis q))) in Hq.
  apply (Hun p q l); [done|done|].
  destruct (reduce_val_ok _ _ _ _ Hc Hd Hp l eq_refl) as [o Ho].
  destruct o as [m|xs]; [simpl; by rewrite Ho|].
  assert (Hnc : ¬ changed l).
  { intros Hch. destruct (Hdict _ Hch) as [m' Hm']. congruence. }
  simpl in Hm. by rewrite (Hsame _ _ Ho Hnc) in Hm.
Qed.

(** The root mapping [l] after a write below its key [k]: the entry is now
    [c], a tree; [reach] covers the old objects still met below [c]; the
    other entries are as before. *)
Lemma root_after_write h h2 l m k c (reach : loc → Prop) :
  closed h → h !! l = Some (ODict m) → unshared h (VRef l) →
  h2 !! l = Some (ODict (<[k := c]> m)) →
  (∀ l' o, h !! l' = Some o → l' ≠ l → ¬ reach l' → h2 !! l' = Some o) →
  (∀ l', reach l' → ∃ m', h !! l' = Some (ODict m')) →
  unshared h2 c →
  (∀ ks l0, l0 ∈ visited h2 c ks → is_Some (h !! l0) → reach l0) →
  (∀ k' y ks l0, k' ≠ k → m !! k' = Some y → l0 ∈ visited h y ks → ¬ reach l0) →
  ¬ reach l →
  unshared h2 (VRef l) ∧
  (∀ ks l0, l0 ∈ visited h2 (VRef l) ks → is_Some (h !! l0) →
     l0 = l ∨ reach l0 ∨
     ∃ k' y ks', k' ≠ k ∧ m !! k' = Some y ∧ l0 ∈ visited h y ks').
Proof.
  intros Hc E Hun E2 Hsame Hrdict Hunc Hreach Hapart Hnl.
  set (changed := fun l' => l' = l ∨ reach l').
  assert (Hchd : ∀ l', changed l' → ∃ m', h !! l' = Some (ODict m')).
  { intros l' [->|Hr]; [eauto|by apply Hrdict]. }
  assert (Hsame' : ∀ l' o, h !! l' = Some o → ¬ changed l' → h2 !! l' = Some o).
  { intros l' o Ho Hn.
    apply Hsame; [done|intros ->; apply Hn; by left|intros Hr; apply Hn; by right]. }
  assert (Hother : ∀ k' y ks, k' ≠ k → m !! k' = Some y →
            visited h2 y ks = visited h y ks ∧ unshared h2 y).
  { intros k' y ks Hne Hy.
    assert (Hy_ok : val_ok h y) by (intros l' ->; by eapply Hc).
    assert (Havoid : ∀ ks l0, l0 ∈ visited h y ks → ¬ changed l0).
    { intros ks0 l0 Hin [->|Hr].
      - by eapply (unshared_not_below h l m k' y ks0).
      - by eapply Hapart. }
    split.
    - exact (proj2 (reduce_frame h h2 changed ks y Hc Hy_ok Hchd Hsame' (Havoid ks))).
    - apply (unshared_frame h h2 changed); try done. by eapply unshared_step. }
  split.
  - apply (unshared_root _ l (<[k := c]> m)); [done| | |].
    + intros k' y. destruct (decide (k = k')) as [->|Hne].
      * rewrite lookup_insert_eq. by intros [= <-].
      * rewrite lookup_insert_ne by done. intros Hy.
        by apply (Hother k' y []).
    + intros k' y ks. destruct (decide (k = k')) as [->|Hne].
      * rewrite lookup_insert_eq. intros [= <-] Hin.
        apply Hnl, (Hreach ks); eauto.
      * rewrite lookup_insert_ne by done. intros Hy Hin.
        rewrite (proj1 (Hother k' y ks ltac:(done) Hy)) in Hin.
        by eapply (unshared_not_below h l m k' y ks).
    + intros k1 k2 y1 y2 ks1 ks2 l0 Hne.
      destruct (decide (k = k1)) as [->|Hne1];
        [rewrite lookup_insert_eq, lookup_insert_ne by done
        |rewrite (lookup_insert_ne _ k k1) by done;
         destruct (decide (k = k2)) as [->|Hne2];
         [rewrite lookup_insert_eq|rewrite lookup_insert_ne by done]].
      * intros [= <-] Hy2 Hin1 Hin2.
        rewrite (proj1 (Hother k2 y2 ks2 ltac:(done) Hy2)) in Hin2.
        apply (Hapart k2 y2 ks2 l0); [done|done|done|].
        apply (Hreach ks1); [done|]. apply visited_is_dict in Hin2 as [? ?]. eauto.
      * intros Hy1 [= <-] Hin1 Hin2.
        rewrite (proj1 (Hother k1 y1 ks1 ltac:(done) Hy1)) in Hin1.
        apply (Hapart k1 y1 ks1 l0); [done|done|done|].
        apply (Hreach ks2); [done|]. apply visited_is_dict in Hin1 as [? ?]. eauto.
      * intros Hy1 Hy2 Hin1 Hin2.
        rewrite (proj1 (Hother k1 y1 ks1 ltac:(done) Hy1)) in Hin1.
        rewrite (proj1 (Hother k2 y2 ks2 ltac:(done) Hy2)) in Hin2.
        by eapply (unshared_apart h l m k1 k2 y1 y2 ks1 ks2 l0).
  - intros ks l0 Hin Hl0. rewrite (visited_dict _ _ _ _ E2) in Hin.
    apply elem_of_cons in Hin as [->|Hin]; [by left|].
    destruct ks as [|k' ks']; [by apply elem_of_nil in Hin|].
    destruct (decide (k = k')) as [->|Hne].
    + rewrite lookup_insert_eq in Hin. right. left. by apply (Hreach ks').
    + rewrite lookup_insert_ne in Hin by done.
      destruct (m !! k') as [y|] eqn:Hy; [|by apply elem_of_nil in Hin].
      rewrite (proj1 (Hother k' y ks' ltac:(done) Hy)) in Hin.
      right. right. by exists k', y, ks'.
Qed.


(** Writing a scalar keeps a tree a tree; the old objects met below the
    root afterwards were below it before. *)
Lemma sr_core_tree keys : ∀ h d nk v r h2,
  tree_shaped h d → (∀ l, v ≠ VRef l) →
  sr_core h d keys nk v = (r, h2) →
  unshared h2 d ∧
  (∀ ks l0, l0 ∈ visited h2 d ks → is_Some (h !! l0) →
            ∃ ks', l0 ∈ visited h d ks').
Proof.
  induction keys as [|k ks IH]; intros h d nk v r h2 (Hc & Hd & Hun) Hv Hsr;
    (destruct (is_mapping h d) eqn:Hm;
       [|rewrite sr_core_not_mapping in Hsr by done; injection Hsr as <- <-;
         split; [done|by eauto]]);
    apply is_mapping_dict in Hm as (l & m & -> & E).
  - rewrite (sr_core_nil _ _ _ _ _ E) in Hsr. injection Hsr as <- <-.
    destruct (root_after_write h (<[l := ODict (<[nk := v]> m)]> h) l m nk v
                (fun _ => False)) as [Hun2 HR]; try done.
    + apply lookup_insert_eq.
    + intros l' o Ho Hne _. by rewrite lookup_insert_ne.
    + apply unshared_not_mapping. destruct v; try done. by destruct (Hv l0).
    + intros ks l0 Hin. rewrite visited_scalar in Hin by done.
      by apply elem_of_nil in Hin.
    + by intros k' y ks l0 _ _ _ [].
    + by intros [].
    + split; [done|]. intros ks l0 Hin Hl0.
      destruct (HR ks l0 Hin Hl0) as [->|[[]|(k' & y & ks' & Hne & Hy & Hin')]].
      * exists []. rewrite (visited_dict _ _ _ _ E). by apply list_elem_of_singleton.
      * exists (k' :: ks'). rewrite (visited_dict _ _ _ _ E), Hy.
        apply elem_of_cons. by right.
  - rewrite (sr_core_cons _ _ _ _ _ _ _ E) in Hsr.
    set (f := fresh (dom h)) in *. set (h' := replaced h l m k) in *.
    pose proof (fresh_loc_None h) as Hfn. fold f in Hfn.
    pose proof (replaced_lookup_fresh h l m k E) as Hf. fold f h' in Hf.
    pose proof (replaced_lookup_self h l m k) as Hl'. fold f h' in Hl'.
    assert (Hlf : l ≠ f) by (intros ->; congruence).
    assert (Hrep : ∀ r h2, sr_core h' (VRef f) ks nk v = (r, h2) →
      unshared h2 (VRef l) ∧
      (∀ ks l0, l0 ∈ visited h2 (VRef l) ks → is_Some (h !! l0) →
                ∃ ks', l0 ∈ visited h (VRef l) ks')).
    { intros r' h2' Hsr'.
      destruct (IH h' (VRef f) nk v r' h2') as [Hunf HRf]; [|done|done|].
      { split; [by apply closed_replaced|]. split.
        - intros l0 [= <-]. eauto.
        - by apply unshared_empty_dict. }
      pose proof (sr_core_preserves _ _ _ _ _ _ _ Hsr') as Hfr.
      rewrite (visited_fresh_dict _ _ _ Hf) in Hfr.
      destruct (root_after_write h h2' l m k (VRef f) (fun _ => False))
        as [Hun2 HR]; try done.
      + apply Hfr; [done|]. by intros ?%list_elem_of_singleton.
      + intros l' o Ho Hne _. apply Hfr.
        * unfold h'. rewrite replaced_lookup_other by eauto. done.
        * intros ->%list_elem_of_singleton. congruence.
      + intros ks0 l0 Hin Hl0.
        destruct (HRf ks0 l0 Hin) as [ks' Hin'].
        * destruct (decide (l0 = l)) as [->|Hne]; [eauto|].
          unfold h'. by rewrite replaced_lookup_other.
        * rewrite (visited_fresh_dict _ _ _ Hf) in Hin'.
          apply list_elem_of_singleton in Hin' as ->.
          destruct Hl0 as [? ?]. congruence.
      + by intros k' y ks0 l0 _ _ _ [].
      + by intros [].
      + split; [done|]. intros ks0 l0 Hin Hl0.
        destruct (HR ks0 l0 Hin Hl0) as [->|[[]|(k' & y & ks' & Hne & Hy & Hin')]].
        * exists []. rewrite (visited_dict _ _ _ _ E). by apply list_elem_of_singleton.
        * exists (k' :: ks'). rewrite (visited_dict _ _ _ _ E), Hy.
          apply elem_of_cons. by right. }
    destruct (m !! k) as [x|] eqn:Ek; [|exact (Hrep _ _ Hsr)].
    destruct (is_mapping h x) eqn:Hx; [|exact (Hrep _ _ Hsr)].
    destruct (IH h x nk v r h2) as [Hunx HRx]; [|done|done|].
    { split; [done|]. split.
      - intros l0 ->. by eapply Hc.
      - by eapply unshared_step. }
    pose proof (sr_core_preserves _ _ _ _ _ _ _ Hsr) as Hfr.
    destruct (root_after_write h h2 l m k x (fun l0 => ∃ ks', l0 ∈ visited h x ks'))
      as [Hun2 HR]; try done.
    + rewrite (insert_id _ _ _ Ek). apply Hfr; [done|].
      by eapply unshared_not_below.
    + intros l' o Ho Hne Hnr. apply Hfr; [done|]. intros Hin. apply Hnr. eauto.
    + intros l' [ks' Hin']. by eapply visited_is_dict.
    + intros k' y ks0 l0 Hne Hy Hin [ks' Hin'].
      by eapply (unshared_apart h l m k' k y x ks0 ks' l0).
    + intros [ks' Hin']. by eapply (unshared_not_below h l m k x ks').
    + split; [done|]. intros ks0 l0 Hin Hl0.
      destruct (HR ks0 l0 Hin Hl0)
        as [->|[[ks' Hin']|(k' & y & ks' & Hne & Hy & Hin')]].
      * exists []. rewrite (visited_dict _ _ _ _ E). by apply list_elem_of_singleton.
      * exists (k :: ks'). rewrite (visited_dict _ _ _ _ E), Ek.
        apply elem_of_cons. by right.
      * exists (k' :: ks'). rewrite (visited_dict _ _ _ _ E), Hy.
        apply elem_of_cons. by right.
Qed.


(** * The claims *)

Section Claims.
Context {bytes : Type}.
Variable json_dump : json -> bytes.
Variable json_load : bytes -> option json.

Abbreviation save_value := (save_value json_dump json_load).
Abbreviation set_val := (set_val json_dump json_load).

(** After the in-memory write, whatever [save_value] then does, reading
    the key back finds the value. *)
Lemma set_val_memory self key value (w : world bytes) :
  key ≠ "" →
  is_mapping (w_heap w) (configuration self) = true →
  acyclic (w_heap w) (configuration self) →
  ∃ h1,
    _search_and_replace (w_heap w) (configuration self) key value = (Ok tt, h1) ∧
    ∀ r w2, save_value self key value (with_heap w h1) = (r, w2) →
            get_val (w_heap w2) (configuration self) key = value.
Proof.
  intros Hkey Hm Hac.
  destruct (search_and_replace_get (w_heap w) (configuration self) key value Hm
              (Hac _)) as (h1 & Hsr & Hred).
  exists h1. split; [done|]. intros r w2 Hsave.
  apply save_value_heap in Hsave. cbn in Hsave.
  unfold get_val. destruct (decide (key = "")); [done|].
  erewrite reduce_getitem_mono; [done| |exact Hred].
  intros l o Hl. by eapply lookup_weaken.
Qed.

(** C1 (as the code has it). For a non-empty path [key] and a value, on a
    store whose tree is a mapping at its root and meets no mapping twice
    along a path, when the adapter's [save_value] succeeds: [set_val]
    returns the value, and [get_val] of the same path on the resulting
    store yields the value.  On a tree with a cycle neither need hold. *)
Theorem set_then_get self key value (w w2 : world bytes) :
  key ≠ "" →
  is_mapping (w_heap w) (configuration self) = true →
  acyclic (w_heap w) (configuration self) →
  save_value self key value
    (with_heap w (_search_and_replace (w_heap w) (configuration self) key value).2)
    = (Ok tt, w2) →
  set_val self key value w = (Ok value, w2) ∧
  get_val (w_heap w2) (configuration self) key = value.
Proof.
  intros Hkey Hm Hac Hsave.
  destruct (set_val_memory self key value w Hkey Hm Hac) as (h1 & Hsr & Hget).
  rewrite Hsr in Hsave. cbn [snd] in Hsave.
  specialize (Hget _ _ Hsave).
  unfold set_val. rewrite Hsr, Hsave. by rewrite Hget.
Qed.


Lemma search_and_replace_Ok_mapping h d key v h1 :
  _search_and_replace h d key v = (Ok tt, h1) → is_mapping h d = true.
Proof.
  unfold _search_and_replace. intros Hsr.
  destruct (is_mapping h d) eqn:Hm; [done|]. exfalso.
  destruct (init_keys (split dot key)) as [|k ks].
  - cbn [sr_loop] in Hsr.
    destruct (setitem h d (last_key (split dot key)) v) as [h2|e] eqn:Hset; [|done].
    apply setitem_Ok in Hset as (l & m & -> & E & _). simpl in Hm. by rewrite E in Hm.
  - by rewrite sr_loop_not_mapping in Hsr.
Qed.

(** C8 (as the code has it). In a tree without cycles, when the in-memory
    write of [set_val] at a non-empty path succeeds and [save_value] then
    fails, [set_val] raises that failure and the in-memory tree keeps the
    write: [get_val] of the written path returns the value that was set.
    On a tree with a cycle the value read back need not be the one set. *)
Theorem persist_failure_keeps_write self key value (w w2 : world bytes) h1 e :
  key ≠ "" →
  acyclic (w_heap w) (configuration self) →
  _search_and_replace (w_heap w) (configuration self) key value = (Ok tt, h1) →
  save_value self key value (with_heap w h1) = (Raise e, w2) →
  set_val self key value w = (Raise e, w2) ∧
  get_val (w_heap w2) (configuration self) key = value.
Proof.
  intros Hkey Hac Hsr Hsave.
  pose proof (search_and_replace_Ok_mapping _ _ _ _ _ Hsr) as Hm.
  destruct (set_val_memory self key value w Hkey Hm Hac) as (h1' & Hsr' & Hget).
  rewrite Hsr in Hsr'. injection Hsr' as <-.
  split; [|by eapply Hget].
  unfold set_val. by rewrite Hsr, Hsave.
Qed.

(** C2 (as the code has it). [set_val] with the empty key is not rejected:
    [split] gives the one segment [""], so on a tree whose root is a mapping
    the value is stored under the key [""] of the root, whatever
    [save_value] then does, and a normal return gives the whole tree. *)
Theorem set_empty_key self value (w : world bytes) l m :
  configuration self = VRef l →
  w_heap w !! l = Some (ODict m) →
  ∃ r w2,
    set_val self "" value w = (r, w2) ∧
    w_heap w2 !! l = Some (ODict (<["" := value]> m)) ∧
    (∀ x, r = Ok x → x = VRef l).
Proof.
  intros Hroot E. unfold set_val, _search_and_replace.
  rewrite Hroot. cbn [split init_keys last_key removelast List.last sr_loop].
  rewrite (setitem_dict _ _ _ _ _ E).
  destruct (save_value self "" value _) as [r w2] eqn:Hsave.
  pose proof (save_value_heap _ _ _ _ _ _ _ _ Hsave) as Hsub. cbn in Hsub.
  assert (Hl : w_heap w2 !! l = Some (ODict (<["" := value]> m))).
  { eapply lookup_weaken; [|exact Hsub]. apply lookup_insert_eq. }
  destruct r as [[]|e]; eexists _, _; (split; [done|]); (split; [done|]).
  - intros x [= <-]. done.
  - done.
Qed.


Abbreviation import_config := (import_config json_load).
Abbreviation new_provider := (new_provider json_load).
Abbreviation make_provider := (make_provider json_load).
Abbreviation Configuration_init := (Configuration_init json_load).
Abbreviation switch_provider := (switch_provider json_load).

Lemma import_config_world k settings (w : world bytes) r w1 :
  import_config k settings w = (r, w1) →
  w_fs w1 = w_fs w ∧ w_heap w ⊆ w_heap w1 ∧
  ((∀ c, r ≠ Ok (Loaded c)) → w_heap w1 = w_heap w).
Proof.
  unfold import_config. intros H.
  destruct k; try (injection H as <- <-; cbn; done).
  cbn [w_heap w_fs] in H.
  destruct (source_of settings) as [path|e];
    [|injection H as <- <-; cbn; done].
  destruct (read_file (w_fs w) path) as [c|e];
    [|injection H as <- <-; cbn; done].
  destruct (parse json_load c) as [t|];
    [|injection H as <- <-; cbn; done].
  pose proof (alloc_spec t (w_heap w)) as (Hsub & _).
  destruct (alloc t (w_heap w)) as [h v]. injection H as <- <-. cbn.
  split; [done|]. split; [done|]. intros Hc. by destruct (Hc v).
Qed.


Lemma new_provider_world k settings (w : world bytes) r w1 :
  new_provider k settings w = (r, w1) →
  w_fs w1 = w_fs w ∧ w_heap w ⊆ w_heap w1 ∧
  ((∀ p, r ≠ Ok p) → w_heap w1 = w_heap w) ∧
  (∀ p, r = Ok p →
        p_class p = k ∧ config_settings p = settings ∧
        import_config k settings w = (Ok (Loaded (configuration p)), w1)).
Proof.
  unfold new_provider. intros H.
  destruct (import_config k settings w) as [[[c|]|e] w0] eqn:Himp;
    destruct (import_config_world _ _ _ _ _ Himp) as (Hfs & Hsub & Hheap).
  - injection H as <- <-. split; [done|]. split; [done|].
    split; [intros Hp; by destruct (Hp (Provider k settings c))|].
    by intros p [= <-].
  - destruct (source_of settings); injection H as <- <-;
      (split; [done|]); (split; [done|]); (split; [intros _; by apply Hheap|done]).
  - injection H as <- <-.
    split; [done|]. split; [done|]. split; [intros _; by apply Hheap|done].
Qed.

Lemma make_provider_world d (w : world bytes) r w1 :
  make_provider d w = (r, w1) →
  w_fs w1 = w_fs w ∧ w_heap w ⊆ w_heap w1 ∧
  ((∀ p, r ≠ Ok p) → w_heap w1 = w_heap w) ∧
  (∀ p, r = Ok p →
        ∃ k settings, import_config k settings w = (Ok (Loaded (configuration p)), w1)).
Proof.
  unfold make_provider. intros H.
  destruct (get_class d) as [k|e];
    [|injection H as <- <-; by repeat split].
  destruct (ds_settings d) as [settings|];
    [|injection H as <- <-; by repeat split].
  destruct (new_provider_world _ _ _ _ _ H) as (Hfs & Hsub & Hheap & Hok).
  split; [done|]. split; [done|]. split; [done|].
  intros p Hp. destruct (Hok p Hp) as (_ & _ & Himp). eauto.
Qed.

(** C3 (as the code has it). When building the new provider fails, the
    switch raises that failure; the provider, the object store and the files
    are as before the call, and [config_source] already holds the new
    descriptor. *)
Theorem switch_provider_failure self d overwrite (w w1 : world bytes) e :
  make_provider d w = (Raise e, w1) →
  switch_provider self d overwrite w = (Raise e, Config d (_provider self), w1) ∧
  w_heap w1 = w_heap w ∧ w_fs w1 = w_fs w.
Proof.
  intros Hmk. destruct (make_provider_world _ _ _ _ Hmk) as (Hfs & _ & Hheap & _).
  split; [|split; [by apply Hheap|done]].
  unfold switch_provider. cbn [config_source _provider]. by rewrite Hmk.
Qed.

(** C7. When the provider of the new descriptor is built, [switch_provider]
    with [overwrite=False] keeps the configuration of the old provider: the
    same root, every object of the store unchanged, hence the same document,
    whatever the new backend held; with [overwrite=True] the configuration
    is the one the new provider's [import_config] loaded. *)
Theorem switch_provider_tree self d overwrite (w w1 : world bytes) p :
  make_provider d w = (Ok p, w1) →
  ∃ self',
    switch_provider self d overwrite w = (Ok tt, self', w1) ∧
    (overwrite = false →
       configuration (_provider self') = configuration (_provider self) ∧
       w_heap w ⊆ w_heap w1 ∧
       ∀ n t, reify n (w_heap w) (configuration (_provider self)) = Some t →
              reify n (w_heap w1) (configuration (_provider self')) = Some t) ∧
    (overwrite = true →
       ∃ k settings,
         import_config k settings w
           = (Ok (Loaded (configuration (_provider self'))), w1)).
Proof.
  intros Hmk. destruct (make_provider_world _ _ _ _ Hmk) as (_ & Hsub & _ & Hok).
  eexists. split.
  { unfold switch_provider. cbn [config_source _provider]. by rewrite Hmk. }
  split; intros ->; cbn [_provider configuration].
  - split; [done|]. split; [done|]. intros n t Hr.
    by eapply reify_mono.
  - by apply Hok.
Qed.


(** C4 (as the code has it). A descriptor whose type is missing, empty or
    not the name of a provider class is rejected before any provider is
    built: [Configuration.__init__] raises ([KeyError], [ValueError],
    [AttributeError]) and the world, with its record of [import_config]
    calls, is untouched.  The settings are not looked at. *)
Theorem init_rejects_unknown_type d (w : world bytes) :
  ds_type d ≠ Some "File" →
  ds_type d ≠ Some "Consul" →
  ∃ e, Configuration_init d w = (Raise e, w) ∧
       (e = KeyError ∨ e = ValueError ∨ e = AttributeError).
Proof.
  intros HF HC. unfold Configuration_init, make_provider, get_class.
  destruct (ds_type d) as [ty|]; [|by eauto].
  destruct (decide (ty = "")) as [->|H0]; [by eauto|].
  rewrite module_attr_provider.
  destruct (decide (ty = "")); [done|].
  destruct (decide (ty = "File")) as [->|_]; [done|].
  destruct (decide (ty = "Consul")) as [->|_]; [done|].
  by eauto 6.
Qed.


(** *** Round trip through the file *)

(** The one thing assumed of the library: [json.load] reads back the
    document [json.dump] wrote. *)
Hypothesis json_load_dump : ∀ t, json_load (json_dump t) = Some t.

Abbreviation save_all := (save_all json_dump).

Lemma json_of_alloc t h : json_of (alloc t h).1 (alloc t h).2 = Some t.
Proof.
  destruct (alloc_spec t h) as (Hsub & _ & _ & Hr).
  unfold json_of. eapply reify_mono; [exact Hr|lia|done].
Qed.



(** ** The stores the code builds are trees

    The hypotheses of C1, C6 and C8 on the shape of the store hold of
    every configuration that [import_config] loads, and writes of scalars
    through [set_val] keep them. *)

Lemma import_config_shape k settings (w : world bytes) c w1 :
  closed (w_heap w) →
  import_config k settings w = (Ok (Loaded c), w1) →
  tree_shaped (w_heap w1) c.
Proof.
  unfold import_config. intros Hc H.
  destruct k; try done.
  cbn [w_heap w_fs] in H.
  destruct (source_of settings) as [path|e]; [|done].
  destruct (read_file (w_fs w) path) as [c0|e]; [|done].
  destruct (parse json_load c0) as [t|]; [|done].
  pose proof (alloc_shape t (w_heap w) Hc) as Hs.
  destruct (alloc t (w_heap w)) as [h v]. cbn [fst snd] in Hs.
  by injection H as <- <-.
Qed.

Lemma import_config_acyclic k settings (w : world bytes) c w1 :
  closed (w_heap w) →
  import_config k settings w = (Ok (Loaded c), w1) →
  acyclic (w_heap w1) c.
Proof.
  intros Hc H. apply unshared_acyclic.
  by destruct (import_config_shape k settings w c w1 Hc H) as (_ & _ & Hun).
Qed.

Lemma save_value_closed self key v (w : world bytes) r w' :
  closed (w_heap w) → val_ok (w_heap w) v →
  save_value self key v w = (r, w') → closed (w_heap w').
Proof.
  unfold save_value. intros Hc Hv H.
  destruct (p_class self); try (by injection H as <- <-).
  destruct (source_of (config_settings self)) as [path|e];
    [|by injection H as <- <-].
  destruct (read_file (w_fs w) path) as [c|e]; [|by injection H as <- <-].
  destruct (parse json_load c) as [t|]; [|by injection H as <- <-].
  pose proof (alloc_shape t (w_heap w) Hc) as (Hc1 & _ & _).
  pose proof (alloc_spec t (w_heap w)) as (Hsub & _).
  destruct (alloc t (w_heap w)) as [h1 temp_config]. cbn [fst snd] in *.
  destruct (_search_and_replace h1 temp_config key v) as [r2 h2] eqn:Hsr.
  rewrite search_and_replace_core in Hsr.
  apply sr_core_closed in Hsr as [Hc2 _];
    [|done|by eapply val_ok_mono].
  destruct r2 as [[]|e].
  - apply dump_to_heap in H. cbn in H. by rewrite H.
  - by injection H as <- <-.
Qed.

Lemma set_val_shape self key value (w w2 : world bytes) r :
  tree_shaped (w_heap w) (configuration self) →
  (∀ l, value ≠ VRef l) →
  set_val self key value w = (r, w2) →
  tree_shaped (w_heap w2) (configuration self).
Proof.
  intros Hts Hv H. pose proof Hts as (Hc & Hd & Hun).
  assert (Hvok : ∀ h, val_ok h value) by (intros h l ->; by destruct (Hv l)).
  unfold set_val in H.
  destruct (_search_and_replace (w_heap w) (configuration self) key value)
    as [r1 h1] eqn:Hsr.
  rewrite search_and_replace_core in Hsr.
  destruct (sr_core_tree _ _ _ _ _ _ _ Hts Hv Hsr) as [Hun1 _].
  destruct (sr_core_closed _ _ _ _ _ _ _ Hc (Hvok _) Hsr) as [Hc1 Hkeep].
  assert (Hd1 : val_ok h1 (configuration self)).
  { intros l El. apply Hkeep. by apply Hd. }
  destruct r1 as [[]|e]; [|by injection H as <- <-].
  destruct (save_value self key value (with_heap w h1)) as [r2 w3] eqn:Hsave.
  pose proof (save_value_heap _ _ _ _ _ _ _ _ Hsave) as Hsub.
  pose proof (save_value_closed self key value (with_heap w h1) r2 w3 Hc1 (Hvok _) Hsave) as Hc3.
  cbn in Hsub.
  assert (tree_shaped (w_heap w3) (configuration self)).
  { split; [done|]. split.
    - exact (val_ok_mono h1 _ _ Hsub Hd1).
    - exact (unshared_mono h1 _ _ Hc1 Hd1 Hsub Hun1). }
  by destruct r2 as [[]|e]; injection H as <- <-.
Qed.

End Claims.

(** * Further properties of the code *)

(** ** Reading along dotted paths *)

Lemma split_app p q :
  split dot (p ++ String dot q) = (split dot p ++ split dot q)%list.
Proof.
  induction p as [|c r IH].
  - change ("" ++ String dot q) with (String dot q). cbn [split].
    by rewrite Ascii.eqb_refl.
  - change (String c r ++ String dot q) with (String c (r ++ String dot q)).
    cbn [split]. rewrite IH. destruct (Ascii.eqb c dot); [done|].
    pose proof (split_nonempty dot r) as Hne.
    by destruct (split dot r).
Qed.

Lemma walk_app h ks1 ks2 d :
  ks2 ≠ [] → walk h (ks1 ++ ks2) d = walk h ks2 (walk h ks1 d).
Proof.
  intros Hne. unfold walk. rewrite reduce_getitem_app.
  destruct (reduce_getitem h ks1 d) as [x|e]; [done|].
  by destruct ks2.
Qed.

(** X1. [get_val] of a dotted path is [get_val] of its tail in what
    [get_val] of its head returns: for non-empty keys [p] and [q],
    [get_val("p.q")] on [d] is [get_val("q")] on [get_val("p")] of [d], also
    when the head is missing (both are [None]). *)
Theorem get_val_compose h d p q :
  p ≠ "" → q ≠ "" →
  get_val h d (p ++ String dot q) = get_val h (get_val h d p) q.
Proof.
  intros Hp Hq.
  rewrite !get_val_walk; [|done|done|by destruct p].
  rewrite split_app. apply walk_app, split_nonempty.
Qed.


(** ** Writing the same value again *)

(** A write leaves every mapping of the store a mapping. *)
Lemma sr_core_dicts keys : ∀ h d nk v r h2,
  sr_core h d keys nk v = (r, h2) →
  ∀ l m, h !! l = Some (ODict m) → ∃ m', h2 !! l = Some (ODict m').
Proof.
  induction keys as [|k ks IH]; intros h d nk v r h2 Hsr l0 m0 E0;
    (destruct (is_mapping h d) eqn:Hm;
       [|rewrite sr_core_not_mapping in Hsr by done; injection Hsr as <- <-;
         by eauto]);
    apply is_mapping_dict in Hm as (l & m & -> & E).
  - rewrite (sr_core_nil _ _ _ _ _ E) in Hsr. injection Hsr as <- <-.
    destruct (decide (l0 = l)) as [->|Hne].
    + rewrite lookup_insert_eq. eauto.
    + rewrite lookup_insert_ne by done. eauto.
  - rewrite (sr_core_cons _ _ _ _ _ _ _ E) in Hsr.
    assert (Hrep : ∀ r h2,
      sr_core (replaced h l m k) (VRef (fresh (dom h))) ks nk v = (r, h2) →
      ∃ m', h2 !! l0 = Some (ODict m')).
    { intros r' h2' Hsr'.
      destruct (decide (l0 = l)) as [->|Hne].
      - eapply (IH _ _ _ _ _ _ Hsr'), replaced_lookup_self.
      - eapply (IH _ _ _ _ _ _ Hsr').
        rewrite replaced_lookup_other by eauto. exact E0. }
    destruct (m !! k) as [x|] eqn:Ek; [|by eapply Hrep].
    destruct (is_mapping h x) eqn:Hx; [|by eapply Hrep].
    by eapply IH.
Qed.

Lemma sr_core_idem keys : ∀ h d nk v h1,
  NoDup (visited h d keys) →
  sr_core h d keys nk v = (Ok tt, h1) →
  sr_core h1 d keys nk v = (Ok tt, h1).
Proof.
  induction keys as [|k ks IH]; intros h d nk v h1 Hnd Hsr;
    (destruct (is_mapping h d) eqn:Hm;
       [|by rewrite sr_core_not_mapping in Hsr by done]);
    apply is_mapping_dict in Hm as (l & m & -> & E).
  - rewrite (sr_core_nil _ _ _ _ _ E) in Hsr. injection Hsr as <-.
    rewrite (sr_core_nil _ l (<[nk := v]> m)) by apply lookup_insert_eq.
    by rewrite !insert_insert_eq.
  - rewrite (sr_core_cons _ _ _ _ _ _ _ E) in Hsr.
    pose proof (fresh_loc_None h) as Hfn.
    pose proof (replaced_lookup_fresh h l m k E) as Hf.
    assert (Hrep :
      sr_core (replaced h l m k) (VRef (fresh (dom h))) ks nk v = (Ok tt, h1) →
      sr_core h1 (VRef l) (k :: ks) nk v = (Ok tt, h1)).
    { intros Hsr'.
      pose proof (sr_core_preserves _ _ _ _ _ _ _ Hsr') as Hfr'.
      pose proof (sr_core_dicts _ _ _ _ _ _ _ Hsr') as Hdict'.
      rewrite (visited_fresh_dict _ _ _ Hf) in Hfr'.
      assert (El : h1 !! l = Some (ODict (<[k := VRef (fresh (dom h))]> m))).
      { apply Hfr'; [apply replaced_lookup_self|].
        intros ->%list_elem_of_singleton. congruence. }
      rewrite (sr_core_cons _ _ _ _ _ _ _ El), lookup_insert_eq.
      destruct (Hdict' _ _ Hf) as [m' Em'].
      cbn [is_mapping]. rewrite Em'.
      apply (IH (replaced h l m k)); [|done].
      rewrite (visited_fresh_dict _ _ _ Hf). apply NoDup_singleton. }
    destruct (m !! k) as [x|] eqn:Ek; [|by apply Hrep].
    destruct (is_mapping h x) eqn:Hx; [|by apply Hrep].
    rewrite (visited_dict _ _ _ _ E), Ek in Hnd.
    apply NoDup_cons in Hnd as [Hnin Hnd].
    assert (El : h1 !! l = Some (ODict m)).
    { apply (sr_core_preserves _ _ _ _ _ _ _ Hsr); done. }
    rewrite (sr_core_cons _ _ _ _ _ _ _ El), Ek.
    apply is_mapping_dict in Hx as (lx & mx & -> & Ex).
    destruct (sr_core_dicts _ _ _ _ _ _ _ Hsr _ _ Ex) as [mx' Ex'].
    cbn [is_mapping]. rewrite Ex'. by apply (IH h).
Qed.

(** X2. Writing is idempotent in memory: when [_search_and_replace] has
    written a value at a key of a tree without cycles, writing the same value
    at the same key again succeeds and changes no object of the store. *)
Theorem search_and_replace_idempotent h d key v h1 :
  acyclic h d →
  _search_and_replace h d key v = (Ok tt, h1) →
  _search_and_replace h1 d key v = (Ok tt, h1).
Proof.
  intros Hac Hsr. rewrite search_and_replace_core in *.
  by apply (sr_core_idem _ h).
Qed.

(** ** The mappings along a written path *)

Lemma reduce_getitem_prefix_mapping h ks1 k ks2 d v :
  reduce_getitem h (ks1 ++ k :: ks2) d = Ok v →
  ∃ l, reduce_getitem h ks1 d = Ok (VRef l) ∧ is_mapping h (VRef l) = true.
Proof.
  rewrite reduce_getitem_app.
  destruct (reduce_getitem h ks1 d) as [x|e]; [|done].
  cbn [reduce_getitem]. destruct (getitem h x k) as [y|e] eqn:G; [|done].
  apply getitem_Ok in G as (l & m & -> & E & _). intros _.
  exists l. split; [done|]. cbn. by rewrite E.
Qed.

(** ** Two stores that hold the same document *)

Lemma reify_ref_shape n h l t :
  reify n h (VRef l) = Some t → (∃ jm, t = JObj jm) ∨ (∃ ts, t = JArr ts).
Proof.
  destruct n as [|n]; [done|].
  destruct (h !! l) as [[m|xs]|] eqn:E.
  - intros Hr. destruct (reify_dict_elim _ _ _ _ _ E Hr) as (jm & -> & _). eauto.
  - intros Hr. apply (reify_list _ _ _ _ _ E) in Hr as (ts & -> & _). eauto.
  - cbn [reify]. by rewrite E.
Qed.

Lemma reify_obj_inv n h d jm :
  reify n h d = Some (JObj jm) →
  ∃ n0 l m, n = S n0 ∧ d = VRef l ∧ h !! l = Some (ODict m)
            ∧ entries_match n0 h m jm.
Proof.
  destruct d as [| | | |l]; try (by destruct n).
  destruct n as [|n]; [done|].
  destruct (h !! l) as [[m|xs]|] eqn:E.
  - intros Hr. destruct (reify_dict_elim _ _ _ _ _ E Hr) as (jm' & [= ->] & Hrel).
    by eauto 10.
  - intros Hr. by apply (reify_list _ _ _ _ _ E) in Hr as (ts & [=] & _).
  - cbn [reify]. by rewrite E.
Qed.

(** A scalar is the only value that denotes its document. *)
Lemma reify_scalar_eq n n' h h' v v' t :
  (∀ l, v ≠ VRef l) →
  reify n h v = Some t → reify n' h' v' = Some t → v' = v.
Proof.
  intros Hv Hr Hr'. rewrite reify_scalar in Hr by done.
  destruct v' as [| | | |l'].
  - destruct v, n'; simplify_eq/=; try done; by destruct (Hv l).
  - destruct v, n'; simplify_eq/=; try done; by destruct (Hv l).
  - destruct v, n'; simplify_eq/=; try done; by destruct (Hv l).
  - destruct v, n'; simplify_eq/=; try done; by destruct (Hv l).
  - destruct (reify_ref_shape _ _ _ _ Hr') as [[jm ->]|[ts ->]];
      destruct v; simplify_eq/=.
Qed.

(** Walks along the same keys in two stores, from values that denote the
    same document, end on values that denote the same document. *)
Lemma reduce_same_doc ks : ∀ n n' h h' d d' t v,
  reify n h d = Some t → reify n' h' d' = Some t →
  reduce_getitem h ks d = Ok v →
  ∃ v' tv, reduce_getitem h' ks d' = Ok v' ∧
           reify n h v = Some tv ∧ reify n' h' v' = Some tv.
Proof.
  induction ks as [|k ks IH]; intros n n' h h' d d' t v Hr Hr' Hred.
  - injection Hred as <-. by exists d', t.
  - cbn [reduce_getitem] in Hred.
    destruct (getitem h d k) as [x|e] eqn:G; [|done].
    apply getitem_Ok in G as (l & m & -> & E & Ek).
    destruct (reify_ref_Some n h l) as (n0 & _ & -> & _); [by eauto|].
    destruct (reify_dict_elim _ _ _ _ _ E Hr) as (jm & -> & Hrel).
    destruct (reify_obj_inv _ _ _ _ Hr') as (n0' & l' & m' & -> & -> & E' & Hrel').
    specialize (Hrel k). specialize (Hrel' k). rewrite Ek in Hrel.
    destruct (jm !! k) as [tx|] eqn:Ej; [|done].
    destruct (m' !! k) as [x'|] eqn:Ek'; [|done].
    destruct (IH n0 n0' h h' x x' tx v Hrel Hrel' Hred) as (v' & tv & Hred' & Hv & Hv').
    exists v', tv. split; [|split].
    + cbn [reduce_getitem]. by rewrite (getitem_dict _ _ _ _ E'), Ek'.
    + eapply reify_mono; [exact Hv|lia|done].
    + eapply reify_mono; [exact Hv'|lia|done].
Qed.

Lemma walk_same_doc ks n n' h h' d d' t :
  reify n h d = Some t → reify n' h' d' = Some t →
  ∃ tv, reify n h (walk h ks d) = Some tv ∧
        reify n' h' (walk h' ks d') = Some tv.
Proof.
  intros Hr Hr'. unfold walk.
  destruct (reduce_getitem h ks d) as [v|e] eqn:R.
  - destruct (reduce_same_doc ks _ _ _ _ _ _ _ _ Hr Hr' R) as (v' & tv & -> & ? & ?).
    by exists tv.
  - destruct (reduce_getitem h' ks d') as [v'|e'] eqn:R'.
    + destruct (reduce_same_doc ks _ _ _ _ _ _ _ _ Hr' Hr R') as (v & tv & Hv & _).
      congruence.
    + exists JNull. by destruct n, n'.
Qed.


(** ** When a write fails *)

(** [_search_and_replace] fails only on a root that is no mapping, with
    [TypeError] and without touching the store. *)
Lemma sr_core_Raise keys : ∀ h d nk v e h2,
  sr_core h d keys nk v = (Raise e, h2) →
  is_mapping h d = false ∧ e = TypeError ∧ h2 = h.
Proof.
  induction keys as [|k ks IH]; intros h d nk v e h2 Hsr;
    (destruct (is_mapping h d) eqn:Hm;
       [exfalso|rewrite sr_core_not_mapping in Hsr by done;
                by injection Hsr as <- <-]);
    apply is_mapping_dict in Hm as (l & m & -> & E).
  - by rewrite (sr_core_nil _ _ _ _ _ E) in Hsr.
  - rewrite (sr_core_cons _ _ _ _ _ _ _ E) in Hsr.
    pose proof (replaced_lookup_fresh h l m k E) as Hf.
    assert (Hrep :
      sr_core (replaced h l m k) (VRef (fresh (dom h))) ks nk v = (Raise e, h2) →
      False).
    { intros Hsr'. apply IH in Hsr' as (Hm & _). cbn in Hm. by rewrite Hf in Hm. }
    destruct (m !! k) as [x|] eqn:Ek; [|done].
    destruct (is_mapping h x) eqn:Hx; [|done].
    apply IH in Hsr as (Hm & _). congruence.
Qed.



(** ** What lies below a value *)

Lemma below_inv h v l :
  below h v l →
  ∃ l0, v = VRef l0 ∧
    (l = l0 ∨
     (∃ m k x, h !! l0 = Some (ODict m) ∧ m !! k = Some x ∧ below h x l) ∨
     (∃ xs x, h !! l0 = Some (OList xs) ∧ x ∈ xs ∧ below h x l)).
Proof. destruct 1; eauto 12. Qed.

Lemma visited_below h ks : ∀ d l, l ∈ visited h d ks → below h d l.
Proof.
  induction ks as [|k ks IH]; intros d l Hin;
    destruct d as [| | | |l0]; cbn [visited] in Hin;
    try (by apply elem_of_nil in Hin);
    destruct (h !! l0) as [[m|xs]|] eqn:E; try (by apply elem_of_nil in Hin).
  - apply list_elem_of_singleton in Hin as ->. constructor.
  - apply elem_of_cons in Hin as [->|Hin]; [constructor|].
    destruct (m !! k) as [x|] eqn:Ek; [|by apply elem_of_nil in Hin].
    eapply below_entry; eauto.
Qed.

(** Reading a document looks at the objects below the value only. *)
Lemma reify_frame n : ∀ h h2 v t,
  reify n h v = Some t →
  (∀ l o, below h v l → h !! l = Some o → h2 !! l = Some o) →
  reify n h2 v = Some t.
Proof.
  induction n as [|n IH]; intros h h2 v t Hr Hsame.
  - by destruct v.
  - destruct v as [| | | |l]; try done.
    destruct (h !! l) as [[m|xs]|] eqn:E.
    + pose proof (Hsame l _ (below_here h l) E) as E2.
      destruct (reify_dict_elim _ _ _ _ _ E Hr) as (jm & -> & Hrel).
      apply (reify_dict_intro _ _ _ _ _ E2). intros k. specialize (Hrel k).
      destruct (m !! k) as [x|] eqn:Ek, (jm !! k) as [tx|]; try done.
      apply (IH h); [done|]. intros l' o Hb Ho.
      apply Hsame; [|done]. by eapply below_entry.
    + pose proof (Hsame l _ (below_here h l) E) as E2.
      apply (reify_list _ _ _ _ _ E) in Hr as (ts & -> & Hall).
      apply (reify_list _ _ _ _ _ E2). exists ts. split; [done|].
      apply Forall2_same_length_lookup.
      apply Forall2_same_length_lookup in Hall as [Hlen Hall].
      split; [done|]. intros i x tx Hx Htx.
      apply (IH h); [by eapply Hall|]. intros l' o Hb Ho.
      apply Hsame; [|done].
      eapply below_element; [done| |done]. by eapply list_elem_of_lookup_2.
    + cbn [reify] in Hr. by rewrite E in Hr.
Qed.

(** ** The shape of what [alloc] builds *)

Lemma alloc_sub t h : h ⊆ (alloc t h).1.
Proof. by destruct (alloc_spec t h) as (? & _). Qed.

Lemma alloc_list_sub xs : ∀ h,
  h ⊆ (foldr (fun t' '(h0, vs) => let '(h1, v) := alloc t' h0 in (h1, v :: vs))
             (h, []) xs).1.
Proof.
  induction xs as [|t xs IH]; intros h; cbn [foldr]; [done|].
  specialize (IH h). destruct (foldr _ (h, []) xs) as [h0 vs].
  pose proof (alloc_sub t h0) as Hs. destruct (alloc t h0) as [h1 v].
  cbn [fst] in *. by etrans.
Qed.

Lemma alloc_entries_sub (kts : list (string * json)) : ∀ h,
  h ⊆ (foldr (uncurry (fun k t' '(h0, vm) =>
                let '(h1, v) := alloc t' h0 in (h1, <[k := v]> vm)))
             (h, (∅ : gmap string val)) kts).1.
Proof.
  induction kts as [|[k t] kts IH]; intros h; cbn [foldr]; [done|].
  specialize (IH h). destruct (foldr _ (h, ∅) kts) as [h0 vm].
  cbn [uncurry]. pose proof (alloc_sub t h0) as Hs.
  destruct (alloc t h0) as [h1 v]. cbn [fst] in *. by etrans.
Qed.

Lemma alloc_list_tree xs :
  Forall (fun t => ∀ h, alloc_tree h (alloc t h)) xs →
  ∀ h,
    let r := foldr (fun t' '(h0, vs) => let '(h1, v) := alloc t' h0 in (h1, v :: vs))
                   (h, []) xs in
    ∀ h'', r.1 ⊆ h'' → ∀ x, x ∈ r.2 →
      (∀ l, below h'' x l → h !! l = None ∧ is_Some (r.1 !! l)) ∧
      separate h'' x.
Proof.
  induction 1 as [|t xs Ht _ IH]; intros h; cbn [foldr].
  - cbn. intros h'' _ x Hx. by apply elem_of_nil in Hx.
  - specialize (IH h). cbv zeta in IH.
    pose proof (alloc_list_sub xs h) as S0.
    destruct (foldr _ (h, []) xs) as [h0 vs]. cbn [fst snd] in *.
    specialize (Ht h0). unfold alloc_tree in Ht.
    pose proof (alloc_sub t h0) as S1.
    destruct (alloc t h0) as [h1 v]. cbn [fst snd] in *.
    intros h'' Hsub x Hx. apply elem_of_cons in Hx as [->|Hx].
    + destruct (Ht h'' Hsub) as [Hnew Hsep]. split; [|done].
      intros l Hb. destruct (Hnew l Hb) as [Hn Hs]. split; [|done].
      by eapply lookup_weaken_None.
    + destruct (IH h'' ltac:(by etrans) x Hx) as [Hnew Hsep]. split; [|done].
      intros l Hb. destruct (Hnew l Hb) as [Hn [o Ho]]. split; [done|].
      exists o. by eapply lookup_weaken.
Qed.

Lemma alloc_entries_tree (kts : list (string * json)) :
  Forall (fun kt => ∀ h, alloc_tree h (alloc kt.2 h)) kts →
  ∀ h,
    let r := foldr (uncurry (fun k t' '(h0, vm) =>
                      let '(h1, v) := alloc t' h0 in (h1, <[k := v]> vm)))
                   (h, (∅ : gmap string val)) kts in
    ∀ h'', r.1 ⊆ h'' →
      (∀ k x, r.2 !! k = Some x →
         (∀ l, below h'' x l → h !! l = None ∧ is_Some (r.1 !! l)) ∧
         separate h'' x) ∧
      (∀ k k' x x' l, k ≠ k' → r.2 !! k = Some x → r.2 !! k' = Some x' →
         below h'' x l → below h'' x' l → False).
Proof.
  induction 1 as [|[k0 t] kts Ht _ IH]; intros h; cbn [foldr].
  - cbn. intros h'' _. split; intros *; by rewrite ?lookup_empty.
  - specialize (IH h). cbv zeta in IH.
    pose proof (alloc_entries_sub kts h) as S0.
    destruct (foldr _ (h, ∅) kts) as [h0 vm]. cbn [fst snd uncurry] in *.
    specialize (Ht h0). unfold alloc_tree in Ht.
    pose proof (alloc_sub t h0) as S1.
    destruct (alloc t h0) as [h1 v]. cbn [fst snd] in *.
    intros h'' Hsub.
    destruct (Ht h'' Hsub) as [Hnew Hsep].
    destruct (IH h'' ltac:(by etrans)) as [Hold Hdisj].
    assert (Hv : ∀ l, below h'' v l → h !! l = None ∧ is_Some (h1 !! l)).
    { intros l Hb. destruct (Hnew l Hb) as [Hn Hs]. split; [|done].
      by eapply lookup_weaken_None. }
    assert (Hx : ∀ k x, vm !! k = Some x →
                 ∀ l, below h'' x l → h !! l = None ∧ is_Some (h0 !! l)).
    { intros k x Hk l Hb. by apply (Hold k x Hk). }
    assert (Hcross : ∀ k x l, vm !! k = Some x →
                     below h'' v l → below h'' x l → False).
    { intros k x l Hk Hb1 Hb2.
      destruct (Hnew l Hb1) as [Hn _]. destruct (Hx k x Hk l Hb2) as [_ [o Ho]].
      congruence. }
    split.
    + intros k x Hk. destruct (decide (k0 = k)) as [->|Hne].
      * rewrite lookup_insert_eq in Hk. injection Hk as <-. by split.
      * rewrite lookup_insert_ne in Hk by done.
        destruct (Hold k x Hk) as [Hnx Hsx]. split; [|done].
        intros l Hb. destruct (Hnx l Hb) as [Hn [o Ho]]. split; [done|].
        exists o. by eapply lookup_weaken.
    + intros k k' x x' l Hne Hk Hk' Hb Hb'.
      destruct (decide (k0 = k)) as [Heq1|Hne1];
        destruct (decide (k0 = k')) as [Heq2|Hne2].
      * congruence.
      * subst k. rewrite lookup_insert_eq in Hk. injection Hk as <-.
        rewrite lookup_insert_ne in Hk' by done. by eapply Hcross.
      * subst k'. rewrite lookup_insert_eq in Hk'. injection Hk' as <-.
        rewrite lookup_insert_ne in Hk by done. by eapply Hcross.
      * rewrite lookup_insert_ne in Hk, Hk' by done.
        exact (Hdisj k k' x x' l Hne Hk Hk' Hb Hb').
Qed.

(** What [alloc] builds is made of objects that were not in the store, and
    none of them is reached twice. *)
Lemma alloc_tree_spec t : ∀ h, alloc_tree h (alloc t h).
Proof.
  induction t as [|b|z|s|xs IH|m IH] using json_ind'; intros h;
    try (intros h'' _; cbn [alloc fst snd]; split;
         [intros l Hb; by apply below_inv in Hb as (? & ? & _)
         |intros l m k x Hb; by apply below_inv in Hb as (? & ? & _)]).
  - cbn [alloc].
    pose proof (alloc_list_tree xs IH h) as Hfold. cbv zeta in Hfold.
    pose proof (alloc_list_sub xs h) as S0.
    destruct (foldr _ (h, []) xs) as [h0 vs]. cbn [fst snd] in *.
    pose proof (fresh_loc_None h0) as Hf. set (f := fresh (dom h0)) in *.
    intros h'' Hsub. cbn [alloc_obj fst snd] in *. fold f in Hsub |- *.
    assert (Ef : h'' !! f = Some (OList vs)).
    { eapply lookup_weaken; [|exact Hsub]. apply lookup_insert_eq. }
    assert (S2 : h0 ⊆ h'').
    { etrans; [|exact Hsub]. by apply insert_subseteq. }
    assert (Hel : ∀ l, below h'' (VRef f) l →
              l = f ∨ ∃ x, x ∈ vs ∧ below h'' x l).
    { intros l Hb. apply below_inv in Hb as (l0 & [= <-] & [->|[Hd|Hl]]).
      - by left.
      - destruct Hd as (m & k & x & Em & _). congruence.
      - destruct Hl as (xs' & x & Exs & Hx & Hb). right.
        rewrite Ef in Exs. injection Exs as <-. eauto. }
    split.
    + intros l Hb. destruct (Hel l Hb) as [->|(x & Hx & Hbx)].
      * split; [by eapply lookup_weaken_None|]. rewrite lookup_insert_eq. eauto.
      * destruct (Hfold h'' S2 x Hx) as [Hnew _].
        destruct (Hnew l Hbx) as [Hn [o Ho]]. split; [done|].
        exists o. rewrite lookup_insert_ne; [done|]. intros <-. congruence.
    + intros l m k x Hb Em Ek. destruct (Hel l Hb) as [->|(x0 & Hx0 & Hbx)].
      * congruence.
      * destruct (Hfold h'' S2 x0 Hx0) as [_ Hsep]. by eapply Hsep.
  - cbn [alloc]. rewrite map_fold_foldr.
    assert (Hall : Forall (fun kt => ∀ h, alloc_tree h (alloc kt.2 h))
                          (map_to_list m)).
    { apply Forall_forall. intros [k t] Hin. apply elem_of_map_to_list in Hin.
      by apply (IH k t). }
    pose proof (alloc_entries_tree _ Hall h) as Hfold. cbv zeta in Hfold.
    pose proof (alloc_entries_sub (map_to_list m) h) as S0.
    destruct (foldr _ (h, ∅) (map_to_list m)) as [h0 vm]. cbn [fst snd] in *.
    pose proof (fresh_loc_None h0) as Hf. set (f := fresh (dom h0)) in *.
    intros h'' Hsub. cbn [alloc_obj fst snd] in *. fold f in Hsub |- *.
    assert (Ef : h'' !! f = Some (ODict vm)).
    { eapply lookup_weaken; [|exact Hsub]. apply lookup_insert_eq. }
    assert (S2 : h0 ⊆ h'').
    { etrans; [|exact Hsub]. by apply insert_subseteq. }
    destruct (Hfold h'' S2) as [Hold Hdisj].
    assert (Hel : ∀ l, below h'' (VRef f) l →
              l = f ∨ ∃ k x, vm !! k = Some x ∧ below h'' x l).
    { intros l Hb. apply below_inv in Hb as (l0 & [= <-] & [->|[Hd|Hl]]).
      - by left.
      - destruct Hd as (m' & k & x & Em & Ek & Hb). right.
        rewrite Ef in Em. injection Em as <-. eauto.
      - destruct Hl as (xs' & x & Exs & _). congruence. }
    assert (Hin0 : ∀ k x l, vm !! k = Some x → below h'' x l → l ≠ f).
    { intros k x l Hk Hb <-. destruct (Hold k x Hk) as [Hnew _].
      destruct (Hnew l Hb) as [_ [o Ho]]. congruence. }
    split.
    + intros l Hb. destruct (Hel l Hb) as [->|(k & x & Hk & Hbx)].
      * split; [by eapply lookup_weaken_None|]. rewrite lookup_insert_eq. eauto.
      * destruct (Hold k x Hk) as [Hnew _].
        destruct (Hnew l Hbx) as [Hn [o Ho]]. split; [done|].
        exists o. rewrite lookup_insert_ne; [done|]. intros <-. congruence.
    + intros l m' k x Hb Em Ek. destruct (Hel l Hb) as [->|(k0 & x0 & Hk0 & Hbx)].
      * rewrite Ef in Em. injection Em as <-. split.
        -- intros Hbx. by eapply Hin0.
        -- intros k' x' l' Hne Hk' Hb1 Hb2. by eapply (Hdisj k k' x x' l').
      * destruct (Hold k0 x0 Hk0) as [_ Hsep]. by eapply Hsep.
Qed.

(** ** [_search_and_replace] on documents *)

(** On a structure none of whose objects is reached twice,
    [_search_and_replace] computes [doc_set]: the structure denotes the
    document with the value's document set at the path. *)
Lemma sr_core_doc keys : ∀ h d nk v t n hv nv tv h2,
  reify n h d = Some t → separate h d →
  hv ⊆ h → (∀ l, below h d l → hv !! l = None) →
  reify nv hv v = Some tv →
  sr_core h d keys nk v = (Ok tt, h2) →
  ∃ n', reify n' h2 d = Some (doc_set keys nk tv t).
Proof.
  induction keys as [|k ks IH]; intros h d nk v t n hv nv tv h2 Hr Hsep Hhv Hout Hv Hsr;
    (destruct (is_mapping h d) eqn:Hm;
       [|by rewrite sr_core_not_mapping in Hsr by done]);
    apply is_mapping_dict in Hm as (l & m & -> & E);
    (destruct (reify_ref_Some n h l) as (n0 & _ & -> & _); [by eauto|]);
    destruct (reify_dict_elim _ _ _ _ _ E Hr) as (jm & -> & Hrel);
    pose proof (Hout l (below_here h l)) as Hl_out;
    (assert (Hnc : ∀ k x, m !! k = Some x → ¬ below h x l)
       by (intros k' x' Hk'; by apply (Hsep l m k' x' (below_here h l) E Hk')));
    (assert (Hsib : ∀ k0 x l' o, m !! k0 = Some x →
               below h x l' → h !! l' = Some o → l' ≠ l ∧ l' ≠ fresh (dom h))
       by (intros k0 x l' o Hk0 Hb Ho; split;
           [intros ->; by eapply Hnc
           |intros ->; rewrite fresh_loc_None in Ho; done])).
  - rewrite (sr_core_nil _ _ _ _ _ E) in Hsr. injection Hsr as <-.
    exists (S (max n0 nv)). cbn [doc_set].
    apply (reify_dict_intro _ _ l (<[nk := v]> m)); [apply lookup_insert_eq|].
    intros k0. destruct (decide (k0 = nk)) as [->|Hne].
    + rewrite !lookup_insert_eq. eapply reify_mono; [exact Hv|lia|].
      by apply insert_subseteq_r.
    + rewrite !lookup_insert_ne by done. specialize (Hrel k0).
      destruct (m !! k0) as [x|] eqn:Ek, (jm !! k0) as [tx|]; try done.
      apply (reify_mono n0 _ (<[l := ODict (<[nk := v]> m)]> h)); [|lia|done].
      apply (reify_frame n0 h); [done|]. intros l' o Hb Ho.
      destruct (Hsib k0 x l' o Ek Hb Ho) as [Hne' _].
      by rewrite lookup_insert_ne.
  - rewrite (sr_core_cons _ _ _ _ _ _ _ E) in Hsr. cbn [doc_set].
    pose proof (fresh_loc_None h) as Hfn.
    pose proof (replaced_lookup_fresh h l m k E) as Hf.
    set (f := fresh (dom h)) in *. set (h' := replaced h l m k) in *.
    assert (Hlf : l ≠ f) by (intros ->; congruence).
    assert (Hrep :
      sr_core h' (VRef f) ks nk v = (Ok tt, h2) →
      ∃ n', reify n' h2 (VRef l)
            = Some (JObj (<[k := doc_set ks nk tv (JObj ∅)]> jm))).
    { intros Hsr'.
      assert (Hbf : ∀ l0, below h' (VRef f) l0 → l0 = f).
      { intros l0 Hb. apply below_inv in Hb as (l1 & [= <-] & [->|[Hd|Hl]]).
        - done.
        - destruct Hd as (m' & k' & x' & Em & Ek & _).
          rewrite Hf in Em. injection Em as <-. by rewrite lookup_empty in Ek.
        - destruct Hl as (xs' & x' & Exs & _). congruence. }
      destruct (IH h' (VRef f) nk v (JObj ∅) 1%nat hv nv tv h2) as [n1 Hn1];
        try done.
      { apply (reify_dict_intro _ _ _ _ _ Hf). intros k0.
        by rewrite !lookup_empty. }
      { intros l0 m0 k0 x0 Hb E0 Ek0. apply Hbf in Hb as ->.
        rewrite Hf in E0. injection E0 as <-. by rewrite lookup_empty in Ek0. }
      { unfold h', replaced. apply insert_subseteq_r; [done|].
        apply insert_subseteq_r; [|done]. by eapply lookup_weaken_None. }
      { intros l0 Hb. apply Hbf in Hb as ->. by eapply lookup_weaken_None. }
      pose proof (sr_core_preserves _ _ _ _ _ _ _ Hsr') as Hfr.
      rewrite (visited_fresh_dict _ _ _ Hf) in Hfr.
      assert (El2 : h2 !! l = Some (ODict (<[k := VRef f]> m))).
      { apply Hfr; [apply replaced_lookup_self|].
        by intros ?%list_elem_of_singleton. }
      exists (S (max n0 n1)). apply (reify_dict_intro _ _ _ _ _ El2).
      intros k0. destruct (decide (k0 = k)) as [->|Hne].
      - rewrite !lookup_insert_eq. eapply reify_mono; [exact Hn1|lia|done].
      - rewrite !lookup_insert_ne by done. specialize (Hrel k0).
        destruct (m !! k0) as [x|] eqn:Ek, (jm !! k0) as [tx|]; try done.
        apply (reify_mono n0 _ h2); [|lia|done].
        apply (reify_frame n0 h); [done|]. intros l' o Hb Ho.
        destruct (Hsib k0 x l' o Ek Hb Ho) as [Hne1 Hne2].
        apply Hfr.
        + unfold h'. rewrite replaced_lookup_other by eauto. done.
        + by intros ?%list_elem_of_singleton. }
    pose proof (Hrel k) as Hk.
    destruct (m !! k) as [x|] eqn:Ek; cycle 1.
    { destruct (jm !! k) as [tx|] eqn:Ej; [done|]. by apply Hrep. }
    destruct (jm !! k) as [tx|] eqn:Ej; [|done].
    destruct (is_mapping h x) eqn:Hx; cycle 1.
    { assert (Hno : ∀ jm', tx ≠ JObj jm').
      { intros jm' ->.
        destruct (reify_obj_inv _ _ _ _ Hk) as (? & lx & mx & _ & -> & Ex & _).
        cbn in Hx. by rewrite Ex in Hx. }
      destruct tx as [| | | | |jm']; try (by apply Hrep). by destruct (Hno jm'). }
    apply is_mapping_dict in Hx as (lx & mx & -> & Ex).
    destruct (reify_ref_Some n0 h lx) as (n00 & _ & -> & _); [by eauto|].
    destruct (reify_dict_elim _ _ _ _ _ Ex Hk) as (jmx & -> & _).
    destruct (IH h (VRef lx) nk v (JObj jmx) (S n00) hv nv tv h2) as [n1 Hn1];
      try done.
    { intros l0 m0 k0 x0 Hb. apply Hsep. by eapply below_entry. }
    { intros l0 Hb. apply Hout. by eapply below_entry. }
    pose proof (sr_core_preserves _ _ _ _ _ _ _ Hsr) as Hfr.
    assert (El2 : h2 !! l = Some (ODict m)).
    { apply Hfr; [done|]. intros Hin%visited_below. by eapply Hnc. }
    exists (S (max (S n00) n1)). apply (reify_dict_intro _ _ _ _ _ El2).
    intros k0. destruct (decide (k0 = k)) as [->|Hne].
    + rewrite Ek, lookup_insert_eq. eapply reify_mono; [exact Hn1|lia|done].
    + rewrite lookup_insert_ne by done. specialize (Hrel k0).
      destruct (m !! k0) as [y|] eqn:Ek0, (jm !! k0) as [ty|]; try done.
      apply (reify_mono (S n00) _ h2); [|lia|done].
      apply (reify_frame (S n00) h); [done|]. intros l' o Hb Ho.
      apply Hfr; [done|]. intros Hin%visited_below.
      destruct (Hsep l m k (VRef lx) (below_here h l) E Ek) as [_ Hdisj].
      by eapply (Hdisj k0 y l').
Qed.

(** [get_val] on documents: what a walk ends on denotes what [doc_get]
    finds. *)
Lemma walk_doc ks : ∀ n h d t,
  reify n h d = Some t → reify n h (walk h ks d) = Some (doc_get ks t).
Proof.
  induction ks as [|k ks IH]; intros n h d t Hr; [done|].
  rewrite walk_cons. cbn [doc_get].
  destruct (getitem h d k) as [x|e] eqn:G.
  - apply getitem_Ok in G as (l & m & -> & E & Ek).
    destruct (reify_ref_Some n h l) as (n0 & _ & -> & _); [by eauto|].
    destruct (reify_dict_elim _ _ _ _ _ E Hr) as (jm & -> & Hrel).
    specialize (Hrel k). rewrite Ek in Hrel.
    destruct (jm !! k) as [tx|]; [|done].
    eapply reify_mono; [by apply IH|lia|done].
  - assert (Hnull : reify n h VNone = Some JNull) by by destruct n.
    rewrite Hnull. f_equal.
    destruct t as [| | | | |jm]; try done.
    destruct (reify_obj_inv _ _ _ _ Hr) as (n0 & l & m & -> & -> & E & Hrel).
    specialize (Hrel k). rewrite (getitem_dict _ _ _ _ E) in G.
    destruct (m !! k) as [x|], (jm !! k) as [tx|]; done.
Qed.

(** Setting a path leaves the documents at the paths apart from it as they
    were. *)
Lemma doc_get_set_frame keys : ∀ nk tv q jm,
  ¬ q `prefix_of` (keys ++ [nk])%list → ¬ (keys ++ [nk])%list `prefix_of` q →
  doc_get q (doc_set keys nk tv (JObj jm)) = doc_get q (JObj jm).
Proof.
  induction keys as [|k ks IH]; intros nk tv q jm Hqp Hpq;
    (destruct q as [|qk qs]; [destruct Hqp; apply prefix_nil|]);
    cbn [doc_set doc_get app] in *.
  - assert (qk ≠ nk).
    { intros ->. apply Hpq. apply prefix_cons, prefix_nil. }
    by rewrite lookup_insert_ne.
  - destruct (decide (qk = k)) as [->|Hne]; [|by rewrite lookup_insert_ne].
    rewrite lookup_insert_eq.
    assert (Hqp' : ¬ qs `prefix_of` (ks ++ [nk])%list).
    { intros Hp. apply Hqp. by apply prefix_cons. }
    assert (Hpq' : ¬ (ks ++ [nk])%list `prefix_of` qs).
    { intros Hp. apply Hpq. by apply prefix_cons. }
    destruct (jm !! k) as [tk|] eqn:Ek; [destruct tk|];
      rewrite (IH nk tv qs _ Hqp' Hpq'); try done;
      (destruct qs as [|qk' qs']; [destruct Hqp'; apply prefix_nil|]);
      cbn [doc_get]; by rewrite lookup_empty.
Qed.


(** ** The frame of a write, on documents *)

Lemma below_walk h qs : ∀ y l, below h (walk h qs y) l → below h y l.
Proof.
  induction qs as [|k qs IH]; intros y l Hb; [exact Hb|].
  rewrite walk_cons in Hb.
  destruct (getitem h y k) as [x|e] eqn:G.
  - apply getitem_Ok in G as (l0 & m & -> & E & Ek). eapply below_entry; eauto.
  - by apply below_inv in Hb as (? & ? & _).
Qed.

(** A walk, and the document of what it ends on, depend on the objects
    below its start only. *)
Lemma walk_frame_below qs : ∀ n h h2 y ty,
  reify n h y = Some ty →
  (∀ l o, below h y l → h !! l = Some o → h2 !! l = Some o) →
  walk h2 qs y = walk h qs y ∧
  reify n h2 (walk h qs y) = Some (doc_get qs ty).
Proof.
  intros n h h2 y ty Hr Hsame. split.
  - revert n y ty Hr Hsame.
    induction qs as [|k qs IH]; intros n y ty Hr Hsame; [done|].
    rewrite !walk_cons.
    destruct y as [| | | |l]; try done.
    destruct (reify_ref_Some n h l) as (n0 & o & -> & Ho); [by eauto|].
    pose proof (Hsame l o (below_here h l) Ho) as Ho2.
    destruct o as [m|xs].
    + rewrite (getitem_dict _ _ _ _ Ho), (getitem_dict _ _ _ _ Ho2).
      destruct (m !! k) as [x|] eqn:Ek; [|done].
      destruct (reify_dict_elim _ _ _ _ _ Ho Hr) as (jm & -> & Hrel).
      specialize (Hrel k). rewrite Ek in Hrel.
      destruct (jm !! k) as [tx|]; [|done].
      apply (IH n0 x tx Hrel). intros l' o' Hb Ho'.
      apply Hsame; [|done]. by eapply below_entry.
    + rewrite !getitem_not_mapping; [done| |]; cbn; by rewrite ?Ho, ?Ho2.
  - apply (reify_frame n h); [by apply walk_doc|].
    intros l o Hb Ho. apply Hsame; [|done]. by apply (below_walk h qs).
Qed.

(** The same, for a walk that starts with an entry of a mapping whose
    other entries may have changed. *)
Lemma frame_entry n0 h h3 l m mm jm qk qs :
  h !! l = Some (ODict m) → entries_match n0 h m jm →
  h3 !! l = Some (ODict mm) → mm !! qk = m !! qk →
  (∀ y l' o, m !! qk = Some y → below h y l' → h !! l' = Some o →
             h3 !! l' = Some o) →
  walk h3 (qk :: qs) (VRef l) = walk h (qk :: qs) (VRef l) ∧
  reify (S n0) h3 (walk h (qk :: qs) (VRef l))
  = Some (doc_get (qk :: qs) (JObj jm)).
Proof.
  intros E Hrel E3 Hk Hsame.
  rewrite !walk_cons, (getitem_dict _ _ _ _ E), (getitem_dict _ _ _ _ E3), Hk.
  cbn [doc_get]. specialize (Hrel qk).
  destruct (m !! qk) as [y|] eqn:Ey, (jm !! qk) as [ty|]; try done.
  destruct (walk_frame_below qs n0 h h3 y ty Hrel
              (fun l' o => Hsame y l' o eq_refl)) as [Hw Hd].
  split; [done|]. eapply reify_mono; [exact Hd|lia|done].
Qed.

(** In a structure that denotes a document and none of whose objects is
    reached twice, a write along [keys ++ [nk]] changes neither what a walk
    along [q] ends on nor the document that denotes, when neither path is a
    prefix of the other; so it is in every store that extends the one the
    write leaves. *)
Lemma sr_core_frame_doc keys : ∀ h d nk v q r h2 h3 n t,
  separate h d → reify n h d = Some t →
  ¬ q `prefix_of` (keys ++ [nk])%list → ¬ (keys ++ [nk])%list `prefix_of` q →
  sr_core h d keys nk v = (r, h2) → h2 ⊆ h3 →
  walk h3 q d = walk h q d ∧
  reify n h3 (walk h q d) = Some (doc_get q t).
Proof.
  induction keys as [|k ks IH];
    intros h d nk v q r h2 h3 n t Hsep Hr Hqp Hpq Hsr Hsub;
    (destruct (is_mapping h d) eqn:Hm;
       [|rewrite sr_core_not_mapping in Hsr by done; injection Hsr as <- <-;
         apply walk_frame_below; [done|];
         intros l o _ Ho; by eapply lookup_weaken]);
    apply is_mapping_dict in Hm as (l & m & -> & E);
    (destruct (reify_ref_Some n h l) as (n0 & _ & -> & _); [by eauto|]);
    destruct (reify_dict_elim _ _ _ _ _ E Hr) as (jm & -> & Hrel);
    (destruct q as [|qk qs]; [destruct Hqp; apply prefix_nil|]);
    (assert (Hnc : ∀ k x, m !! k = Some x → ¬ below h x l)
       by (intros k' x' Hk'; by apply (Hsep l m k' x' (below_here h l) E Hk'))).
  - rewrite (sr_core_nil _ _ _ _ _ E) in Hsr. injection Hsr as <- <-.
    assert (qk ≠ nk).
    { intros ->. apply Hpq. apply prefix_cons, prefix_nil. }
    apply (frame_entry n0 h h3 l m (<[nk := v]> m) jm); [done|done| | |].
    + eapply lookup_weaken; [|exact Hsub]. apply lookup_insert_eq.
    + by rewrite lookup_insert_ne.
    + intros y l' o Hy Hb Ho. eapply lookup_weaken; [|exact Hsub].
      rewrite lookup_insert_ne; [done|]. intros ->. by eapply Hnc.
  - rewrite (sr_core_cons _ _ _ _ _ _ _ E) in Hsr.
    pose proof (fresh_loc_None h) as Hfn.
    pose proof (replaced_lookup_fresh h l m k E) as Hf.
    set (f := fresh (dom h)) in *. set (h' := replaced h l m k) in *.
    assert (Hlf : l ≠ f) by (intros ->; congruence).
    destruct (decide (qk = k)) as [->|Hne].
    + (* the walk starts with the segment written through *)
      assert (Hqp' : ¬ qs `prefix_of` (ks ++ [nk])%list).
      { intros Hp. apply Hqp. by apply prefix_cons. }
      assert (Hpq' : ¬ (ks ++ [nk])%list `prefix_of` qs).
      { intros Hp. apply Hpq. by apply prefix_cons. }
      assert (Hrep :
        sr_core h' (VRef f) ks nk v = (r, h2) →
        (∀ x, m !! k = Some x → is_mapping h x = false) →
        walk h3 (k :: qs) (VRef l) = walk h (k :: qs) (VRef l) ∧
        reify (S n0) h3 (walk h (k :: qs) (VRef l))
        = Some (doc_get (k :: qs) (JObj jm))).
      { intros Hsr' Hnm.
        destruct qs as [|qk' qs']; [destruct Hqp'; apply prefix_nil|].
        assert (Hw : walk h (k :: qk' :: qs') (VRef l) = VNone).
        { rewrite walk_cons, (getitem_dict _ _ _ _ E).
          destruct (m !! k) as [x|] eqn:Ek; [|done].
          rewrite walk_cons, getitem_not_mapping; [done|]. by apply Hnm. }
        assert (Hd : doc_get (k :: qk' :: qs') (JObj jm) = JNull).
        { cbn [doc_get]. pose proof (Hrel k) as Hk.
          destruct (m !! k) as [x|] eqn:Ek, (jm !! k) as [tx|]; try done.
          destruct tx as [| | | | |jmx]; try done.
          destruct (reify_obj_inv _ _ _ _ Hk) as (? & lx & mx & _ & -> & Ex & _).
          specialize (Hnm _ eq_refl). cbn in Hnm. by rewrite Ex in Hnm. }
        rewrite Hw, Hd. split; [|done].
        pose proof (sr_core_preserves _ _ _ _ _ _ _ Hsr') as Hfr.
        rewrite (visited_fresh_dict _ _ _ Hf) in Hfr.
        assert (El3 : h3 !! l = Some (ODict (<[k := VRef f]> m))).
        { eapply lookup_weaken; [|exact Hsub].
          apply Hfr; [apply replaced_lookup_self|].
          by intros ?%list_elem_of_singleton. }
        rewrite walk_cons, (getitem_dict _ _ _ _ El3), lookup_insert_eq.
        destruct (IH h' (VRef f) nk v (qk' :: qs') r h2 h3 1%nat (JObj ∅))
          as [Hw3 _]; try done.
        { intros l0 m0 k0 x0 Hb E0 Ek0.
          apply below_inv in Hb as (l1 & [= <-] & [->|[Hd'|Hl]]).
          - rewrite Hf in E0. injection E0 as <-. by rewrite lookup_empty in Ek0.
          - destruct Hd' as (m' & k' & x' & Em & Ek' & _).
            rewrite Hf in Em. injection Em as <-. by rewrite lookup_empty in Ek'.
          - destruct Hl as (xs' & x' & Exs & _). congruence. }
        { apply (reify_dict_intro _ _ _ _ _ Hf). intros k0.
          by rewrite !lookup_empty. }
        rewrite Hw3. by apply walk_empty_dict. }
      destruct (m !! k) as [x|] eqn:Ek; [|by apply Hrep].
      destruct (is_mapping h x) eqn:Hx;
        [|apply Hrep; [done|]; by intros ? [= <-]].
      pose proof (Hrel k) as Hk. rewrite Ek in Hk.
      destruct (jm !! k) as [tx|] eqn:Ej; [|done].
      destruct (IH h x nk v qs r h2 h3 n0 tx) as [Hw Hd]; try done.
      { intros l0 m0 k0 x0 Hb. apply Hsep. by eapply below_entry. }
      pose proof (sr_core_preserves _ _ _ _ _ _ _ Hsr) as Hfr.
      assert (El3 : h3 !! l = Some (ODict m)).
      { eapply lookup_weaken; [|exact Hsub]. apply Hfr; [done|].
        intros Hin%visited_below. by eapply Hnc. }
      rewrite !walk_cons, (getitem_dict _ _ _ _ E), (getitem_dict _ _ _ _ El3), Ek.
      cbn [doc_get]. rewrite Ej.
      split; [done|]. eapply reify_mono; [exact Hd|lia|done].
    + (* the walk starts with another segment *)
      assert (Hgoal : ∀ mm,
        h2 !! l = Some (ODict mm) → mm !! qk = m !! qk →
        (∀ y l' o, m !! qk = Some y → below h y l' → h !! l' = Some o →
                   h2 !! l' = Some o) →
        walk h3 (qk :: qs) (VRef l) = walk h (qk :: qs) (VRef l) ∧
        reify (S n0) h3 (walk h (qk :: qs) (VRef l))
        = Some (doc_get (qk :: qs) (JObj jm))).
      { intros mm E2 Hk Hsame. apply (frame_entry n0 h h3 l m mm jm); try done.
        - by eapply lookup_weaken.
        - intros y l' o Hy Hb Ho. eapply lookup_weaken; [|exact Hsub].
          by eapply Hsame. }
      assert (Hrep :
        sr_core h' (VRef f) ks nk v = (r, h2) →
        walk h3 (qk :: qs) (VRef l) = walk h (qk :: qs) (VRef l) ∧
        reify (S n0) h3 (walk h (qk :: qs) (VRef l))
        = Some (doc_get (qk :: qs) (JObj jm))).
      { intros Hsr'.
        pose proof (sr_core_preserves _ _ _ _ _ _ _ Hsr') as Hfr.
        rewrite (visited_fresh_dict _ _ _ Hf) in Hfr.
        apply (Hgoal (<[k := VRef f]> m)).
        - apply Hfr; [apply replaced_lookup_self|].
          by intros ?%list_elem_of_singleton.
        - by rewrite lookup_insert_ne.
        - intros y l' o Hy Hb Ho. apply Hfr.
          + unfold h'. rewrite replaced_lookup_other; [done| |by eauto].
            intros ->. by eapply Hnc.
          + intros ->%list_elem_of_singleton. congruence. }
      destruct (m !! k) as [x|] eqn:Ek; [|by apply Hrep].
      destruct (is_mapping h x) eqn:Hx; [|by apply Hrep].
      pose proof (sr_core_preserves _ _ _ _ _ _ _ Hsr) as Hfr.
      apply (Hgoal m).
      * apply Hfr; [done|]. intros Hin%visited_below. by eapply Hnc.
      * done.
      * intros y l' o Hy Hb Ho. apply Hfr; [done|].
        intros Hin%visited_below.
        destruct (Hsep l m k x (below_here h l) E Ek) as [_ Hdisj].
        by eapply (Hdisj qk y l').
Qed.


(** ** The providers and the facade *)

Section Further.
Context {bytes : Type}.
Variable json_dump : json -> bytes.
Variable json_load : bytes -> option json.

Abbreviation parse := (parse json_load).
Abbreviation import_config := (import_config json_load).
Abbreviation new_provider := (new_provider json_load).
Abbreviation make_provider := (make_provider json_load).
Abbreviation dump_to := (dump_to json_dump).
Abbreviation save_value := (save_value json_dump json_load).
Abbreviation save_all := (save_all json_dump).
Abbreviation set_val := (set_val json_dump json_load).
Abbreviation Configuration_init := (Configuration_init json_load).
Abbreviation Configuration_set_val := (Configuration_set_val json_dump json_load).
Abbreviation Configuration_import_config := (Configuration_import_config json_load).
Abbreviation Configuration_save := (Configuration_save json_dump json_load).
Abbreviation switch_provider := (switch_provider json_load).

(** [ConfigurationProviderFile.import_config] returns, and loads only
    what it could read and parse. *)
Lemma import_config_file_inv settings (w : world bytes) :
  ∃ i w1,
    import_config ConfigurationProviderFile settings w = (Ok i, w1) ∧
    w_fs w1 = w_fs w ∧
    (i = ReturnedFalse → w_heap w1 = w_heap w) ∧
    (∀ v, i = Loaded v →
          ∃ path c t, settings !! "source" = Some path ∧
                      read_file (w_fs w) path = Ok c ∧ parse c = Some t).
Proof.
  unfold import_config, source_of. cbn [w_heap w_fs].
  destruct (settings !! "source") as [path|] eqn:Hs;
    [|by eexists _, _].
  destruct (read_file (w_fs w) path) as [c|e] eqn:Hr;
    [|by eexists _, _].
  destruct (parse c) as [t|] eqn:Hp;
    [|by eexists _, _].
  destruct (alloc t (w_heap w)) as [h v].
  eexists _, _. split; [done|]. split; [done|]. split; [done|].
  intros v' _. by exists path, c, t.
Qed.

(** X3. [ConfigurationProviderFile.import_config] never raises and never
    changes a file.  It returns [False], with the store as it was, exactly
    when the settings name no source, the file cannot be read, or its text is
    no document; otherwise the configuration it loads is a value that was
    not in the store and denotes the document read. *)
Theorem import_config_file_outcome settings (w : world bytes) :
  ∃ i w1,
    import_config ConfigurationProviderFile settings w = (Ok i, w1) ∧
    w_fs w1 = w_fs w ∧
    match i with
    | ReturnedFalse =>
        w_heap w1 = w_heap w ∧
        ¬ ∃ path c t, settings !! "source" = Some path ∧
                      read_file (w_fs w) path = Ok c ∧ parse c = Some t
    | Loaded v =>
        ∃ path c t, settings !! "source" = Some path ∧
                    read_file (w_fs w) path = Ok c ∧ parse c = Some t ∧
                    w_heap w ⊆ w_heap w1 ∧ val_new (w_heap w) v ∧
                    json_of (w_heap w1) v = Some t
    end.
Proof.
  unfold import_config, source_of. cbn [w_heap w_fs].
  destruct (settings !! "source") as [path|] eqn:Hs; cycle 1.
  { eexists _, _. split; [done|]. split; [done|]. split; [done|].
    by intros (? & ? & ? & ? & _). }
  destruct (read_file (w_fs w) path) as [c|e] eqn:Hr; cycle 1.
  { eexists _, _. split; [done|]. split; [done|]. split; [done|].
    intros (? & ? & ? & [= <-] & ? & _). congruence. }
  destruct (parse c) as [t|] eqn:Hp; cycle 1.
  { eexists _, _. split; [done|]. split; [done|]. split; [done|].
    intros (? & ? & ? & [= <-] & ? & ?). congruence. }
  pose proof (alloc_spec t (w_heap w)) as (Hsub & _ & Hnew & Hreify).
  destruct (alloc t (w_heap w)) as [h v]. cbn [fst snd] in *.
  eexists _, _. split; [done|]. split; [done|].
  exists path, c, t. cbn. repeat (split; [done|]).
  by eapply reify_json_of.
Qed.

(** X4. Constructing a File provider changes no file, and either succeeds
    with the configuration [import_config] loaded, or raises with the store
    as it was: [IOError] when the settings name a source, and [KeyError]
    (from formatting the message of the [IOError]) when they do not. *)
Theorem file_provider_construction settings (w : world bytes) :
  ∃ r w1,
    new_provider ConfigurationProviderFile settings w = (r, w1) ∧
    w_fs w1 = w_fs w ∧
    match r with
    | Ok p =>
        p_class p = ConfigurationProviderFile ∧ config_settings p = settings ∧
        import_config ConfigurationProviderFile settings w
          = (Ok (Loaded (configuration p)), w1)
    | Raise e =>
        w_heap w1 = w_heap w ∧
        import_config ConfigurationProviderFile settings w = (Ok ReturnedFalse, w1) ∧
        e = match settings !! "source" with Some _ => IOError | None => KeyError end
    end.
Proof.
  destruct (import_config_file_inv settings w) as (i & w1 & Himp & Hfs & Hh & _).
  unfold new_provider. rewrite Himp. destruct i as [c|].
  - eexists _, _. by repeat split.
  - specialize (Hh eq_refl). unfold source_of.
    destruct (settings !! "source"); eexists _, _; by repeat split.
Qed.

(** X5. A descriptor of type ["Consul"] never gives a [Configuration]:
    [Configuration.__init__] raises [NotImplementedError], or [KeyError]
    when the descriptor has no settings, and the store and the files are as
    before; [switch_provider] to such a descriptor fails in the same way. *)
Theorem consul_provider_unusable d (w : world bytes) :
  ds_type d = Some "Consul" →
  ∃ e w1,
    Configuration_init d w = (Raise e, w1) ∧
    (∀ self overwrite,
       switch_provider self d overwrite w = (Raise e, Config d (_provider self), w1)) ∧
    e = match ds_settings d with Some _ => NotImplementedError | None => KeyError end ∧
    w_heap w1 = w_heap w ∧ w_fs w1 = w_fs w.
Proof.
  intros Hty.
  assert (Hcls : get_class d = Ok ConfigurationProviderConsul).
  { unfold get_class. by rewrite Hty. }
  unfold Configuration_init, switch_provider. cbn [config_source _provider].
  unfold make_provider. rewrite Hty, Hcls.
  destruct (decide ("Consul" = "")); [done|].
  destruct (ds_settings d) as [settings|]; by eexists _, _.
Qed.

(** X6. [Configuration.save] always fails: no provider class has a method
    [save] (the classes define [save_all]), so the call raises
    [AttributeError] and nothing is written. *)
Theorem Configuration_save_fails self (w : world bytes) :
  Configuration_save self w = (Raise AttributeError, self, w).
Proof.
  unfold Configuration_save. by destruct (p_class (_provider self)).
Qed.

(** *** Which files are written *)

Lemma write_file_other (fs fs' : gmap string (file bytes)) path c p :
  write_file fs path c = Ok fs' → path ≠ VStr p → fs' !! p = fs !! p.
Proof.
  unfold write_file. intros H Hne.
  destruct path as [| | |p0|]; try done.
  assert (p0 ≠ p) by congruence.
  destruct (fs !! p0) as [f|].
  - destruct (f_writable f); [|done]. injection H as <-.
    by rewrite lookup_insert_ne.
  - injection H as <-. by rewrite lookup_insert_ne.
Qed.

Lemma dump_to_other path v (w : world bytes) r w' p :
  dump_to path v w = (r, w') → path ≠ VStr p → w_fs w' !! p = w_fs w !! p.
Proof.
  unfold dump_to. intros H Hne.
  destruct (json_of (w_heap w) v);
    destruct (write_file _ _ _) as [fs|e] eqn:Hw; injection H as <- <-;
    try done; cbn; by eapply write_file_other.
Qed.

Lemma save_value_other self key v (w : world bytes) r w' p :
  save_value self key v w = (r, w') →
  config_settings self !! "source" ≠ Some (VStr p) →
  w_fs w' !! p = w_fs w !! p.
Proof.
  unfold save_value, source_of. intros H Hne.
  destruct (p_class self); try (by injection H as <- <-).
  destruct (config_settings self !! "source") as [path|];
    [|by injection H as <- <-].
  destruct (read_file (w_fs w) path) as [c|e]; [|by injection H as <- <-].
  destruct (parse c) as [t|]; [|by injection H as <- <-].
  destruct (alloc t (w_heap w)) as [h1 temp_config].
  destruct (_search_and_replace h1 temp_config key v) as [[[]|e] h2].
  - apply (dump_to_other _ _ _ _ _ p) in H; [done|congruence].
  - by injection H as <- <-.
Qed.

(** X7. [set_val] and [save_all] write no file but the one the provider's
    settings name as source: every other file, and whether it exists, is
    the same after the call, whatever the call's outcome. *)
Theorem writes_touch_source_only self key value (w : world bytes) p :
  config_settings self !! "source" ≠ Some (VStr p) →
  (∀ r w2, set_val self key value w = (r, w2) → w_fs w2 !! p = w_fs w !! p) ∧
  (∀ r w2, save_all self w = (r, w2) → w_fs w2 !! p = w_fs w !! p).
Proof.
  intros Hne. split; intros r w2 H.
  - unfold set_val in H.
    destruct (_search_and_replace _ _ _ _) as [[[]|e] h1];
      [|by injection H as <- <-].
    destruct (save_value self key value (with_heap w h1)) as [r2 w3] eqn:Hsave.
    apply (save_value_other _ _ _ _ _ _ p) in Hsave; [|done].
    by destruct r2; injection H as <- <-.
  - unfold save_all, source_of in H.
    destruct (p_class self); try (by injection H as <- <-).
    destruct (config_settings self !! "source") as [path|];
      [|by injection H as <- <-].
    apply (dump_to_other _ _ _ _ _ p) in H; [done|congruence].
Qed.

(** *** A root that is no mapping *)

(** X8. When the configuration is not a mapping (the file held a list or
    a scalar), every [set_val] raises [TypeError] and changes nothing, in
    memory or on file, and [get_val] of every non-empty key is [None]. *)
Theorem non_mapping_root self key value (w : world bytes) :
  is_mapping (w_heap w) (configuration self) = false →
  set_val self key value w = (Raise TypeError, w) ∧
  (key ≠ "" → get_val (w_heap w) (configuration self) key = VNone).
Proof.
  intros Hm. split.
  - unfold set_val. rewrite search_and_replace_core, sr_core_not_mapping by done.
    by destruct w.
  - intros Hkey. rewrite get_val_walk by done.
    pose proof (split_nonempty dot key) as Hne.
    destruct (split dot key) as [|k ks]; [done|].
    by rewrite walk_cons, getitem_not_mapping.
Qed.

(** *** The mappings along a written path *)

(** X9. After [set_val] of a key [p.q], whether persistence succeeded or
    not, what [get_val] returns for the head [p] is a mapping: the write has
    created or replaced whatever was in the way. *)
Theorem set_val_makes_mappings self p q value (w w2 : world bytes) r :
  p ≠ "" →
  is_mapping (w_heap w) (configuration self) = true →
  acyclic (w_heap w) (configuration self) →
  set_val self (p ++ String dot q) value w = (r, w2) →
  is_mapping (w_heap w2) (get_val (w_heap w2) (configuration self) p) = true.
Proof.
  intros Hp Hm Hac Hset.
  destruct (search_and_replace_get (w_heap w) (configuration self)
              (p ++ String dot q) value Hm (Hac _)) as (h1 & Hsr & Hred).
  unfold set_val in Hset. rewrite Hsr in Hset.
  destruct (save_value self _ value (with_heap w h1)) as [r2 w3] eqn:Hsave.
  apply save_value_heap in Hsave. cbn in Hsave.
  assert (Hw : w_heap w2 = w_heap w3) by (destruct r2; by injection Hset as <- <-).
  rewrite Hw. clear Hset Hw.
  apply (reduce_getitem_mono _ (w_heap w3)) in Hred;
    [|intros l o Hl; by eapply lookup_weaken].
  rewrite split_app in Hred.
  pose proof (split_nonempty dot q) as Hq.
  destruct (split dot q) as [|k ks2]; [done|].
  apply reduce_getitem_prefix_mapping in Hred as (l & Hl & Hml).
  rewrite get_val_walk by done. unfold walk. by rewrite Hl.
Qed.

(** *** A file that is missing *)


(** *** When [set_val] raises [ValueError] *)

Lemma save_value_ValueError self key v (w : world bytes) w' :
  save_value self key v w = (Raise ValueError, w') →
  ∃ p f, config_settings self !! "source" = Some (VStr p) ∧
         w_fs w' !! p = Some f ∧ parse (f_content f) = None.
Proof.
  unfold save_value, source_of. intros H.
  destruct (p_class self); try done.
  destruct (config_settings self !! "source") as [path|]; [|done].
  destruct (read_file (w_fs w) path) as [c|e] eqn:Hr; [|].
  2:{ unfold read_file in Hr. destruct path as [| | |p|]; try (by simplify_eq).
      destruct (w_fs w !! p) as [f|]; [|by simplify_eq].
      destruct (f_readable f); by simplify_eq. }
  unfold read_file in Hr. destruct path as [| | |p|]; try done.
  destruct (w_fs w !! p) as [f|] eqn:Ef; [|done].
  destruct (f_readable f) eqn:Hrd; [|done]. injection Hr as <-.
  destruct (parse (f_content f)) as [t|] eqn:Hp; cycle 1.
  { injection H as <-. by exists p, f. }
  destruct (alloc t (w_heap w)) as [h1 temp_config].
  destruct (_search_and_replace h1 temp_config key v) as [[[]|e] h2] eqn:Hsr.
  - unfold dump_to, write_file in H. cbn [w_heap w_fs with_heap] in H.
    rewrite Ef in H.
    destruct (json_of h2 temp_config); destruct (f_writable f); try done.
    injection H as <-. cbn [w_fs with_fs].
    eexists p, _. split; [done|]. by rewrite lookup_insert_eq.
  - rewrite search_and_replace_core in Hsr.
    apply sr_core_Raise in Hsr as (_ & -> & _). done.
Qed.

(** X11. When [set_val] raises [ValueError], the source file holds no
    document afterwards: [import_config] on it returns [False].  The file
    either held no document already, or the value written could not be
    serialised and the file, opened for writing before [json.dump] ran, has
    lost the document it held. *)
Theorem value_error_leaves_no_document self key value (w w2 : world bytes) :
  set_val self key value w = (Raise ValueError, w2) →
  ∃ w3, import_config ConfigurationProviderFile (config_settings self) w2
        = (Ok ReturnedFalse, w3).
Proof.
  intros Hset. unfold set_val in Hset.
  destruct (_search_and_replace _ _ _ _) as [[[]|e] h1] eqn:Hsr; cycle 1.
  { rewrite search_and_replace_core in Hsr.
    apply sr_core_Raise in Hsr as (_ & -> & _). done. }
  destruct (save_value self key value (with_heap w h1)) as [[[]|e] w3] eqn:Hsave;
    [done|]. injection Hset as -> <-.
  destruct (save_value_ValueError _ _ _ _ _ Hsave) as (p & f & Hsrc & Ef & Hp).
  destruct (import_config_file_inv (config_settings self) w3)
    as (i & w4 & Himp & _ & _ & Hi).
  exists w4. destruct i as [c|]; [exfalso|done].
  destruct (Hi c eq_refl) as (path & c0 & t & Hpath & Hread & Hparse).
  rewrite Hsrc in Hpath. injection Hpath as <-.
  unfold read_file in Hread. rewrite Ef in Hread.
  destruct (f_readable f); [|done]. injection Hread as <-. congruence.
Qed.

(** *** The shape of the stores the code builds *)

(** X12. What [import_config] loads into a store without dangling
    references is a tree: the store stays without dangling references, and
    from the configuration no mapping is reached along two paths, nor met
    twice along one. *)
Theorem loaded_configuration_is_tree k settings (w : world bytes) c w1 :
  closed (w_heap w) →
  import_config k settings w = (Ok (Loaded c), w1) →
  tree_shaped (w_heap w1) c ∧ acyclic (w_heap w1) c.
Proof.
  intros Hc H. split.
  - by eapply import_config_shape.
  - by eapply import_config_acyclic.
Qed.

(** X13. [set_val] of a scalar value keeps a tree a tree, whether it
    returns or raises: no dangling reference, no mapping reached along two
    paths, no cycle. *)
Theorem set_val_keeps_tree self key value (w w2 : world bytes) r :
  tree_shaped (w_heap w) (configuration self) →
  (∀ l, value ≠ VRef l) →
  set_val self key value w = (r, w2) →
  tree_shaped (w_heap w2) (configuration self) ∧
  acyclic (w_heap w2) (configuration self).
Proof.
  intros Hts Hv H.
  pose proof (set_val_shape _ _ _ _ _ _ _ _ Hts Hv H) as Hts2.
  split; [done|]. apply unshared_acyclic. by destruct Hts2 as (_ & _ & ?).
Qed.


(** *** What [set_val] leaves in the file *)

(** What a successful [save_value] did. *)
Lemma save_value_Ok self key v (w w2 : world bytes) :
  save_value self key v w = (Ok tt, w2) →
  ∃ p f t h2 t2,
    p_class self = ConfigurationProviderFile ∧
    config_settings self !! "source" = Some (VStr p) ∧
    w_fs w !! p = Some f ∧ f_readable f = true ∧ f_writable f = true ∧
    parse (f_content f) = Some t ∧
    _search_and_replace (alloc t (w_heap w)).1 (alloc t (w_heap w)).2 key v
      = (Ok tt, h2) ∧
    json_of h2 (alloc t (w_heap w)).2 = Some t2 ∧
    w2 = World h2 (<[p := File_ (Text (json_dump t2)) true true]> (w_fs w))
               (w_loads w).
Proof.
  unfold save_value, source_of. intros H.
  destruct (p_class self) eqn:Hk; try done.
  destruct (config_settings self !! "source") as [path|] eqn:Hsrc; [|done].
  destruct (read_file (w_fs w) path) as [c|e] eqn:Hr; [|done].
  unfold read_file in Hr. destruct path as [| | |p|]; try done.
  destruct (w_fs w !! p) as [f|] eqn:Ef; [|done].
  destruct (f_readable f) eqn:Hrd; [|done]. injection Hr as <-.
  destruct (parse (f_content f)) as [t|] eqn:Hp; [|done].
  destruct (alloc t (w_heap w)) as [h1 temp_config] eqn:Ha.
  destruct (_search_and_replace h1 temp_config key v) as [[[]|e] h2] eqn:Hsr;
    [|done].
  unfold dump_to, write_file in H. cbn [w_heap w_fs with_heap] in H.
  rewrite Ef in H.
  destruct (json_of h2 temp_config) as [t2|] eqn:Hj;
    destruct (f_writable f) eqn:Hwr; try done.
  injection H as <-. rewrite Hrd.
  exists p, f, t, h2, t2. rewrite Ha. by repeat split.
Qed.

(** The one thing assumed of the library: [json.load] reads back the
    document [json.dump] wrote. *)
Hypothesis json_load_dump : ∀ t, json_load (json_dump t) = Some t.

(** X14. What [set_val] returned normally for is in the file: reloading
    the configuration with [Configuration.import_config] succeeds, and
    [get_val] of the key on the reloaded configuration denotes the same
    document as the value set; it is the value itself when that is a
    scalar. *)
Theorem set_val_persisted (self : Configuration) key value (w w2 : world bytes) x :
  key ≠ "" →
  Configuration_set_val self key value w = (Ok x, w2) →
  ∃ self' w3 t,
    Configuration_import_config self w2 = (Ok VNone, self', w3) ∧
    json_of (w_heap w2) value = Some t ∧
    json_of (w_heap w3) (Configuration_get_val self' key w3) = Some t ∧
    ((∀ l, value ≠ VRef l) → Configuration_get_val self' key w3 = value).
Proof.
  intros Hkey Hset. unfold Configuration_set_val, set_val in Hset.
  destruct (_search_and_replace _ _ _ _) as [[[]|e] hm] eqn:Hmem; [|done].
  destruct (save_value (_provider self) key value (with_heap w hm))
    as [[[]|e] w3] eqn:Hsave; [|done].
  injection Hset as <- <-.
  destruct (save_value_Ok _ _ _ _ _ Hsave)
    as (pth & f & t & h2 & t2 & Hcls & Hsrc & Ef & Hrd & Hwr & Hp & Hsr & Hj & ->).
  cbn [w_heap with_heap] in *.
  pose proof (alloc_spec t hm) as (_ & _ & _ & Hreify).
  destruct (alloc t hm) as [h1 temp]. cbn [fst snd] in *.
  pose proof (search_and_replace_Ok_mapping _ _ _ _ _ Hsr) as Hm1.
  destruct (search_and_replace_get h1 temp key value Hm1) as (h2' & Hsr' & Hred).
  { apply (reify_acyclic (size h1 - size hm) h1 temp). rewrite Hreify. eauto. }
  rewrite Hsr in Hsr'. injection Hsr' as <-.
  unfold Configuration_import_config, import_config, source_of.
  rewrite Hcls, Hsrc. cbn [w_fs w_heap read_file].
  rewrite lookup_insert_eq. cbn -[json_of get_val alloc]. rewrite json_load_dump.
  pose proof (alloc_spec t2 h2) as (_ & _ & _ & Hreify3).
  destruct (alloc t2 h2) as [h3 c3]. cbn [fst snd] in *.
  unfold json_of in Hj.
  destruct (reduce_same_doc _ _ _ _ _ _ _ _ _ Hj Hreify3 Hred)
    as (v' & tv & Hred' & Hv & Hv').
  eexists _, _, tv. split; [done|]. split; [exact Hv|].
  unfold Configuration_get_val. cbn [_provider configuration w_heap with_heap].
  rewrite get_val_walk by done. unfold walk. rewrite Hred'.
  split; [by eapply reify_json_of|].
  intros Hscal. by eapply reify_scalar_eq.
Qed.


(** *** The document [set_val] leaves in the file *)


(** X16. [set_val] of a scalar changes nothing else in the file: for a
    non-empty key [q] such that neither of the paths of [q] and [key] is a
    prefix of the other, what [get_val] of [q] finds in the configuration
    loaded from the file after a successful [set_val] denotes the same
    document as what it finds in the configuration loaded before. *)
Theorem set_val_file_frame self key value (w w0 w2 : world bytes) c0 x q :
  (∀ l, value ≠ VRef l) →
  q ≠ "" →
  ¬ split dot q `prefix_of` split dot key →
  ¬ split dot key `prefix_of` split dot q →
  import_config ConfigurationProviderFile (config_settings self) w
    = (Ok (Loaded c0), w0) →
  set_val self key value w = (Ok x, w2) →
  ∃ c3 w3 t,
    import_config ConfigurationProviderFile (config_settings self) w2
      = (Ok (Loaded c3), w3) ∧
    json_of (w_heap w0) (get_val (w_heap w0) c0 q) = Some t ∧
    json_of (w_heap w3) (get_val (w_heap w3) c3 q) = Some t.
Proof.
  intros Hscal Hq Hqp Hpq Himp0 Hset. unfold set_val in Hset.
  destruct (_search_and_replace _ _ _ _) as [[[]|e] hm] eqn:Hmem; [|done].
  destruct (save_value self key value (with_heap w hm)) as [[[]|e] w3] eqn:Hsave;
    [|done].
  injection Hset as <- <-.
  destruct (save_value_Ok _ _ _ _ _ Hsave)
    as (pth & f & t & h2 & t2 & Hcls & Hsrc & Ef & Hrd & Hwr & Hp & Hsr & Hj & ->).
  cbn [w_heap w_fs with_heap] in *.
  (* the configuration loaded before *)
  unfold import_config, source_of in Himp0. rewrite Hsrc in Himp0.
  cbn [w_fs w_heap read_file] in Himp0. rewrite Ef, Hrd, Hp in Himp0.
  pose proof (alloc_spec t (w_heap w)) as (_ & _ & _ & Hreify0).
  destruct (alloc t (w_heap w)) as [h0 c0']. cbn [fst snd] in *.
  injection Himp0 as <- <-. cbn [w_heap with_heap].
  (* the temporary configuration of [save_value] *)
  pose proof (alloc_spec t hm) as (_ & _ & _ & Hreify).
  pose proof (alloc_tree_spec t hm) as Htree.
  destruct (alloc t hm) as [h1 temp]. cbn [fst snd] in *.
  destruct (Htree h1 ltac:(done)) as [_ Hsep]. cbn [fst snd] in *.
  pose proof (search_and_replace_Ok_mapping _ _ _ _ _ Hsr) as Hm1.
  apply is_mapping_dict in Hm1 as (l & m & -> & El).
  destruct (reify_ref_Some _ _ _ ltac:(by eauto)) as (n0 & _ & Hn0 & _).
  rewrite Hn0 in Hreify.
  destruct (reify_dict_elim _ _ _ _ _ El Hreify) as (jm & -> & _).
  assert (Htv : ∃ tv, reify 0 ∅ value = Some tv).
  { destruct value; eauto. by destruct (Hscal l0). }
  destruct Htv as [tv Htv].
  rewrite search_and_replace_core in Hsr.
  destruct (sr_core_doc _ _ _ _ _ _ _ ∅ _ tv _ Hreify Hsep
              (map_empty_subseteq _) (fun l _ => lookup_empty l) Htv Hsr)
    as [n' Hn'].
  apply reify_json_of in Hn'. rewrite Hj in Hn'. injection Hn' as ->.
  (* the configuration loaded after *)
  unfold import_config, source_of. rewrite Hsrc. cbn [w_fs w_heap read_file].
  rewrite lookup_insert_eq. cbn -[json_of get_val alloc doc_set].
  rewrite json_load_dump.
  pose proof (alloc_spec (doc_set (init_keys (split dot key))
                            (last_key (split dot key)) tv (JObj jm)) h2)
    as (_ & _ & _ & Hreify3).
  destruct (alloc _ h2) as [h3 c3]. cbn [fst snd] in *.
  eexists _, _, (doc_get (split dot q) (JObj jm)). split; [done|].
  cbn [w_heap with_heap]. rewrite !get_val_walk by done.
  rewrite (key_list_parts key) in Hqp, Hpq.
  split.
  - eapply reify_json_of. by apply walk_doc.
  - eapply reify_json_of. rewrite <- (doc_get_set_frame _ _ tv _ _ Hqp Hpq).
    by apply walk_doc.
Qed.


(** *** What a new [Configuration] holds *)

Lemma read_file_Ok (fs : gmap string (file bytes)) path c :
  read_file fs path = Ok c →
  ∃ p f, path = VStr p ∧ fs !! p = Some f ∧ f_readable f = true ∧ c = f_content f.
Proof.
  unfold read_file. intros H. destruct path as [| | |p|]; try done.
  destruct (fs !! p) as [f|] eqn:Ef; [|done].
  destruct (f_readable f) eqn:Hrd; [|done]. injection H as <-. by exists p, f.
Qed.

(** X17. A [Configuration] is only ever constructed from a descriptor of
    type ["File"] whose source is a readable file that holds a document;
    no file is changed, and [get_val] on the new object returns what the
    path denotes in that document: the whole document for the empty key,
    and otherwise the document found by following the segments of the key
    through objects, [None] when the path leaves the document. *)
Theorem init_then_get_val d (w w1 : world bytes) c :
  Configuration_init d w = (Ok c, w1) →
  ∃ settings p f t,
    ds_type d = Some "File" ∧ ds_settings d = Some settings ∧
    settings !! "source" = Some (VStr p) ∧
    w_fs w !! p = Some f ∧ f_readable f = true ∧
    parse (f_content f) = Some t ∧
    w_fs w1 = w_fs w ∧
    ∀ q, json_of (w_heap w1) (Configuration_get_val c q w1)
         = Some (if decide (q = "") then t else doc_get (split dot q) t).
Proof.
  unfold Configuration_init, make_provider, get_class. intros H.
  destruct (ds_type d) as [ty|] eqn:Hty; [|done].
  destruct (decide (ty = "")) as [->|H0]; [done|].
  rewrite module_attr_provider in H.
  destruct (decide (ty = "")); [done|].
  destruct (ds_settings d) as [settings|] eqn:Hs; cycle 1.
  { by repeat destruct (decide _). }
  destruct (decide (ty = "File")) as [->|HF]; cycle 1.
  { destruct (decide (ty = "Consul")); [|done].
    unfold new_provider, import_config in H. done. }
  unfold new_provider in H.
  destruct (import_config ConfigurationProviderFile settings w)
    as [[[v|]|e] w0] eqn:Himp; cycle 1.
  { by destruct (source_of settings). }
  { done. }
  injection H as <- <-.
  unfold import_config, source_of in Himp. cbn [w_heap w_fs] in Himp.
  destruct (settings !! "source") as [path|] eqn:Hsrc; [|done].
  destruct (read_file (w_fs w) path) as [c0|e] eqn:Hr; [|done].
  destruct (parse c0) as [t|] eqn:Hp; [|done].
  apply read_file_Ok in Hr as (p & f & -> & Ef & Hrd & ->).
  pose proof (alloc_spec t (w_heap w)) as (_ & _ & _ & Hreify).
  destruct (alloc t (w_heap w)) as [h v']. cbn [fst snd] in *.
  injection Himp as <- <-.
  exists settings, p, f, t. repeat (split; [done|]).
  intros q. unfold Configuration_get_val. cbn [_provider configuration w_heap with_heap].
  eapply reify_json_of. unfold get_val.
  destruct (decide (q = "")); [done|]. by apply walk_doc.
Qed.


(** *** The frame of [set_val] *)

(** What [import_config] loads denotes a document, and none of its objects
    is reached twice. *)
Lemma import_config_separate k settings (w : world bytes) c w1 :
  import_config k settings w = (Ok (Loaded c), w1) →
  separate (w_heap w1) c ∧ ∃ T, json_of (w_heap w1) c = Some T.
Proof.
  unfold import_config. intros H.
  destruct k; try done. cbn [w_heap w_fs] in H.
  destruct (source_of settings) as [path|e]; [|done].
  destruct (read_file (w_fs w) path) as [c0|e]; [|done].
  destruct (parse c0) as [t|]; [|done].
  pose proof (alloc_tree_spec t (w_heap w) (alloc t (w_heap w)).1 ltac:(done))
    as [_ Hsep].
  pose proof (json_of_alloc t (w_heap w)) as Hj.
  destruct (alloc t (w_heap w)) as [h v]. cbn [fst snd] in *.
  injection H as <- <-. split; [done|]. by exists t.
Qed.

(** C10 (as the code has it). In a store whose tree denotes a document
    and none of whose objects is reached twice (no mapping below one of its
    own entries, no object below two entries of one mapping, through
    mappings or lists), for a non-empty key [q] such that neither of the
    paths of [q] and [key] is a prefix of the other: after [set_val] of
    [key], whether it returns or raises, [get_val] of [q] returns the same
    value as before, and that value denotes the same document as before. *)
Theorem set_val_frame self key value (w w2 : world bytes) q r T :
  separate (w_heap w) (configuration self) →
  json_of (w_heap w) (configuration self) = Some T →
  q ≠ "" →
  ¬ split dot q `prefix_of` split dot key →
  ¬ split dot key `prefix_of` split dot q →
  set_val self key value w = (r, w2) →
  get_val (w_heap w2) (configuration self) q
  = get_val (w_heap w) (configuration self) q ∧
  json_of (w_heap w) (get_val (w_heap w) (configuration self) q)
  = Some (doc_get (split dot q) T) ∧
  json_of (w_heap w2) (get_val (w_heap w2) (configuration self) q)
  = Some (doc_get (split dot q) T).
Proof.
  intros Hsep HT Hq Hqp Hpq Hset.
  rewrite !get_val_walk by done. unfold json_of in HT.
  unfold set_val in Hset. rewrite search_and_replace_core in Hset.
  destruct (sr_core _ _ _ _ _) as [r1 h1] eqn:Hsr.
  rewrite (key_list_parts key) in Hqp, Hpq.
  assert (Hsub : h1 ⊆ w_heap w2).
  { destruct r1 as [[]|e]; [|by injection Hset as <- <-].
    destruct (save_value self key value (with_heap w h1)) as [r2 w3] eqn:Hsave.
    apply save_value_heap in Hsave. cbn in Hsave.
    by destruct r2; injection Hset as <- <-. }
  destruct (sr_core_frame_doc _ _ _ _ _ _ _ _ _ _ _ Hsep HT Hqp Hpq Hsr Hsub)
    as [Hw Hd].
  split; [done|]. split.
  - eapply reify_json_of. by apply walk_doc.
  - rewrite Hw. by eapply reify_json_of.
Qed.


End Further.


(** * Witnesses and counterexamples *)

(** A tree that is one empty mapping has no cycle. *)
Lemma acyclic_empty_dict (h : heap) l :
  h !! l = Some (ODict ∅) → acyclic h (VRef l).
Proof.
  intros E keys. rewrite (visited_fresh_dict _ _ _ E). apply NoDup_singleton.
Qed.

(** C1 as the code has it, at the sample store and the path
    [employee.001.name], none of whose segments exists yet. *)
Lemma set_then_get_witness :
  let key := "employee.001.name" in
  let w2 := (save_value doc_dump doc_load sample_provider key (VStr "Bob")
               (with_heap sample_world
                  (_search_and_replace (w_heap sample_world) (VRef 1%positive) key (VStr "Bob")).2)).2 in
  set_val doc_dump doc_load sample_provider key (VStr "Bob") sample_world
    = (Ok (VStr "Bob"), w2) ∧
  get_val (w_heap w2) (VRef 1%positive) key = VStr "Bob".
Proof.
  intros key w2.
  apply (set_then_get doc_dump doc_load sample_provider key (VStr "Bob") sample_world w2).
  - done.
  - reflexivity.
  - apply acyclic_empty_dict. reflexivity.
  - vm_compute. reflexivity.
Defined.

(** C1 as stated fails on a store the module's own calls build.  Setting
    the configuration itself at [a] raises ([json.dump] meets the cycle)
    and leaves the tree cyclic; after a switch to a second file with
    [overwrite=False], [set_val] of [a.a] returns normally, but what it
    returns, and what [get_val] of [a.a] then returns, is [None], not the
    value set. *)
Lemma set_then_get_counterexample :
  ∃ w1 self2 w2 w3,
    Configuration_set_val doc_dump doc_load sample_configuration "a"
      (VRef 1%positive) two_files_world = (Raise ValueError, w1) ∧
    switch_provider doc_load sample_configuration other_source false w1
      = (Ok tt, self2, w2) ∧
    Configuration_set_val doc_dump doc_load self2 "a.a" (VInt 5) w2
      = (Ok VNone, w3) ∧
    Configuration_get_val self2 "a.a" w3 = VNone.
Proof.
  eexists _, _, _, _.
  split; [vm_compute; reflexivity|]. split; [vm_compute; reflexivity|].
  split; vm_compute; reflexivity.
Qed.

(** C8 as the code has it, at a store whose file cannot be written. *)
Lemma persist_failure_keeps_write_witness :
  let key := "employee.001.name" in
  let h1 := (_search_and_replace (w_heap readonly_world) (VRef 1%positive) key (VStr "Bob")).2 in
  let w2 := (save_value doc_dump doc_load sample_provider key (VStr "Bob")
               (with_heap readonly_world h1)).2 in
  set_val doc_dump doc_load sample_provider key (VStr "Bob") readonly_world
    = (Raise IOError, w2) ∧
  get_val (w_heap w2) (VRef 1%positive) key = VStr "Bob".
Proof.
  intros key h1 w2.
  apply (persist_failure_keeps_write doc_dump doc_load sample_provider key
           (VStr "Bob") readonly_world w2 h1 IOError).
  - done.
  - apply acyclic_empty_dict. reflexivity.
  - vm_compute. reflexivity.
  - vm_compute. reflexivity.
Defined.

(** C8 as stated fails on a store the module's own calls build.  Setting
    the configuration itself at [a] raises and leaves the tree cyclic (and
    the file without a document); [set_val] of [a.a] then writes in memory,
    fails to persist, and [get_val] of [a.a] is [None], not the value
    set. *)
Lemma persist_failure_keeps_write_counterexample :
  ∃ w1 h1 w2,
    set_val doc_dump doc_load sample_provider "a" (VRef 1%positive) sample_world
      = (Raise ValueError, w1) ∧
    _search_and_replace (w_heap w1) (VRef 1%positive) "a.a" (VInt 5) = (Ok tt, h1) ∧
    save_value doc_dump doc_load sample_provider "a.a" (VInt 5) (with_heap w1 h1)
      = (Raise ValueError, w2) ∧
    set_val doc_dump doc_load sample_provider "a.a" (VInt 5) w1
      = (Raise ValueError, w2) ∧
    get_val (w_heap w2) (VRef 1%positive) "a.a" = VNone.
Proof.
  eexists _, _, _.
  split; [vm_compute; reflexivity|]. split; [vm_compute; reflexivity|].
  split; [vm_compute; reflexivity|]. split; vm_compute; reflexivity.
Qed.

(** C2 as stated fails: the empty key is accepted, the value lands under
    [""] in memory and in the file, and the whole tree is returned. *)
Lemma set_empty_key_counterexample :
  ∃ w2,
    set_val doc_dump doc_load sample_provider "" (VInt 1) sample_world
      = (Ok (VRef 1%positive), w2) ∧
    w_heap w2 !! 1%positive = Some (ODict {[ "" := VInt 1 ]}) ∧
    w_fs w2 !! "sample.json"
      = Some (File_ (Text (JObj {[ "" := JNum 1 ]})) true true).
Proof. eexists. split; [vm_compute; reflexivity|]. split; vm_compute; reflexivity. Qed.

(** C2 as the code has it, at the sample store. *)
Lemma set_empty_key_witness :
  ∃ r w2,
    set_val doc_dump doc_load sample_provider "" (VInt 1) sample_world = (r, w2) ∧
    w_heap w2 !! 1%positive = Some (ODict (<["" := VInt 1]> ∅)) ∧
    (∀ x, r = Ok x → x = VRef 1%positive).
Proof.
  apply (set_empty_key doc_dump doc_load sample_provider (VInt 1) sample_world
           1%positive ∅); reflexivity.
Defined.

(** C5 as stated fails: a stored null and a miss give the same result. *)
Lemma get_val_not_found_counterexample :
  present null_heap (VRef 1%positive) "a" ∧
  ¬ present null_heap (VRef 1%positive) "b" ∧
  get_val null_heap (VRef 1%positive) "a" = get_val null_heap (VRef 1%positive) "b".
Proof.
  split; [|split].
  - exists VNone. apply reduce_getitem_path. reflexivity.
  - intros [x Hx]. apply reduce_getitem_path in Hx. vm_compute in Hx. discriminate.
  - reflexivity.
Qed.

(** C5 as the code has it: the stored null at [a], the miss at [b]. *)
Lemma get_val_not_found_witness :
  get_val null_heap (VRef 1%positive) "a" = VNone ∧
  get_val null_heap (VRef 1%positive) "b" = VNone.
Proof.
  split.
  - apply get_val_not_found; [done|]. right. apply reduce_getitem_path. reflexivity.
  - apply get_val_not_found; [done|]. left.
    intros [x Hx]. apply reduce_getitem_path in Hx. vm_compute in Hx. discriminate.
Defined.

(** C3 as stated fails: after a failed switch to a file that does not
    exist, the stored descriptor is the new one. *)
Lemma switch_provider_failure_counterexample :
  ∃ self' w1,
    switch_provider doc_load sample_configuration missing_source false sample_world
      = (Raise IOError, self', w1) ∧
    config_source self' ≠ config_source sample_configuration.
Proof.
  eexists _, _. split; [vm_compute; reflexivity|].
  cbn. intros H.
  apply (f_equal (fun d => ds_settings d ≫= (.!! "source"))) in H.
  vm_compute in H. discriminate.
Qed.

(** C3 as the code has it, at the same failed switch. *)
Lemma switch_provider_failure_witness :
  let w1 := (make_provider doc_load missing_source sample_world).2 in
  switch_provider doc_load sample_configuration missing_source false sample_world
    = (Raise IOError, Config missing_source sample_provider, w1) ∧
  w_heap w1 = w_heap sample_world ∧ w_fs w1 = w_fs sample_world.
Proof.
  intros w1.
  apply (switch_provider_failure doc_load sample_configuration missing_source false
           sample_world w1 IOError).
  vm_compute. reflexivity.
Defined.

(** C4 as stated fails: with empty settings the File provider is built and
    its [import_config] runs before anything is raised. *)
Lemma init_empty_settings_counterexample :
  ∃ w1,
    Configuration_init doc_load (Descriptor (Some "File") (Some ∅)) sample_world
      = (Raise KeyError, w1) ∧
    w_loads w1 = [(ConfigurationProviderFile, ∅)].
Proof. eexists. split; vm_compute; reflexivity. Qed.

(** C4 as the code has it, at the type [Etcd]. *)
Lemma init_rejects_unknown_type_witness :
  ∃ e, Configuration_init doc_load (Descriptor (Some "Etcd") (Some ∅)) sample_world
         = (Raise e, sample_world) ∧
       (e = KeyError ∨ e = ValueError ∨ e = AttributeError).
Proof.
  apply (init_rejects_unknown_type doc_load (Descriptor (Some "Etcd") (Some ∅))
           sample_world); discriminate.
Defined.

(** C7 at a switch from [sample.json] to a second file that holds
    [{"x": 1}]. *)
Lemma switch_provider_tree_witness :
  let w1 := (make_provider doc_load other_source two_files_world).2 in
  ∃ self',
    switch_provider doc_load sample_configuration other_source false two_files_world
      = (Ok tt, self', w1) ∧
    (false = false →
       configuration (_provider self') = configuration (_provider sample_configuration) ∧
       w_heap two_files_world ⊆ w_heap w1 ∧
       ∀ n t, reify n (w_heap two_files_world)
                (configuration (_provider sample_configuration)) = Some t →
              reify n (w_heap w1) (configuration (_provider self')) = Some t) ∧
    (false = true →
       ∃ k settings,
         import_config doc_load k settings two_files_world
           = (Ok (Loaded (configuration (_provider self'))), w1)).
Proof.
  intros w1.
  apply (switch_provider_tree doc_load sample_configuration other_source false
           two_files_world w1 other_provider).
  vm_compute. reflexivity.
Defined.


(** The tree [{"a": 1}] has no cycle. *)
Lemma acyclic_scalar_heap : acyclic scalar_heap (VRef 1%positive).
Proof.
  intros keys.
  rewrite (visited_dict scalar_heap 1%positive {[ "a" := VInt 1 ]}) by reflexivity.
  destruct keys as [|k ks]; [apply NoDup_singleton|].
  destruct ({[ "a" := VInt 1 ]} !! k) as [x|] eqn:Ek; [|apply NoDup_singleton].
  apply lookup_singleton_Some in Ek as [_ <-].
  destruct ks; apply NoDup_singleton.
Qed.

(** C6 at the tree [{"a": 1}] and the write of [2] at ["a.b"]: the result
    is the tree [{"a": {"b": 2}}]. *)
Lemma scalar_segment_replaced_witness :
  (∃ h2 f y,
     _search_and_replace scalar_heap (VRef 1%positive) "a.b" (VInt 2) = (Ok tt, h2) ∧
     scalar_heap !! f = None ∧
     reduce_getitem h2 ([] ++ ["a"]) (VRef 1%positive) = Ok (VRef f) ∧
     h2 !! f = Some (ODict {[ hd "b" [] := y ]}) ∧
     reduce_getitem h2 (split dot "a.b") (VRef 1%positive) = Ok (VInt 2)) ∧
  json_of (_search_and_replace scalar_heap (VRef 1%positive) "a.b" (VInt 2)).2
          (VRef 1%positive)
  = Some (JObj {[ "a" := JObj {[ "b" := JNum 2 ]} ]}).
Proof.
  split; [|vm_compute; reflexivity].
  apply (scalar_segment_replaced scalar_heap (VRef 1%positive) "a.b" (VInt 2)
           [] "a" [] "b" 1%positive {[ "a" := VInt 1 ]} (VInt 1)).
  - apply acyclic_scalar_heap.
  - reflexivity.
  - reflexivity.
  - reflexivity.
  - reflexivity.
  - reflexivity.
Defined.

(** C10 as stated fails when a mapping is shared: the caller's dict [d] is
    set at ["x"] and at ["y"]; the write at ["x.k"] then shows at ["y.k"]. *)
Lemma set_val_frame_counterexample :
  ∃ w1 w2 w3,
    set_val doc_dump doc_load sample_provider "x" (VRef 2%positive) shared_world
      = (Ok (VRef 2%positive), w1) ∧
    set_val doc_dump doc_load sample_provider "y" (VRef 2%positive) w1
      = (Ok (VRef 2%positive), w2) ∧
    get_val (w_heap w2) (VRef 1%positive) "y.k" = VNone ∧
    set_val doc_dump doc_load sample_provider "x.k" (VInt 1) w2
      = (Ok (VInt 1), w3) ∧
    get_val (w_heap w3) (VRef 1%positive) "y.k" = VInt 1.
Proof.
  eexists _, _, _.
  split; [vm_compute; reflexivity|]. split; [vm_compute; reflexivity|].
  split; [vm_compute; reflexivity|]. split; vm_compute; reflexivity.
Qed.

(** The sample store is closed. *)
Lemma closed_sample_world : closed (w_heap sample_world).
Proof.
  intros l m k l' E Ek. cbn in E.
  apply lookup_singleton_Some in E as [_ [= <-]]. by rewrite lookup_empty in Ek.
Qed.

(** C10 as the code has it, at the tree [json.load] builds for
    [{"x": [{}], "y": {}}]: writing [y.k] leaves the list at [x], and the
    document it denotes, as they were. *)
Lemma set_val_frame_witness :
  let root := (alloc listed_doc ∅).2 in
  let r := set_val doc_dump doc_load listed_provider "y.k" (VInt 1) listed_world in
  get_val (w_heap r.2) root "x" = get_val (w_heap listed_world) root "x" ∧
  json_of (w_heap listed_world) (get_val (w_heap listed_world) root "x")
  = Some (JArr [JObj ∅]) ∧
  json_of (w_heap r.2) (get_val (w_heap r.2) root "x")
  = Some (JArr [JObj ∅]).
Proof.
  intros root r.
  apply (set_val_frame doc_dump doc_load listed_provider "y.k" (VInt 1)
           listed_world r.2 "x" r.1 listed_doc).
  - by destruct (alloc_tree_spec listed_doc ∅ (alloc listed_doc ∅).1
                   ltac:(done)) as [_ Hsep].
  - apply json_of_alloc.
  - done.
  - intros [k Hk]. vm_compute in Hk. discriminate.
  - intros [k Hk]. vm_compute in Hk. discriminate.
  - apply surjective_pairing.
Defined.

(** ** The further properties at concrete stores *)

(** X1 at the tree [{"a": {"b": 5}}] and the key [a.b]. *)
Lemma get_val_compose_witness :
  get_val nested_heap (VRef 1%positive) "a.b"
  = get_val nested_heap (get_val nested_heap (VRef 1%positive) "a") "b".
Proof.
  apply (get_val_compose nested_heap (VRef 1%positive) "a" "b"); done.
Defined.

(** X2 at the tree [{"a": 1}], written at [a.b] twice. *)
Lemma search_and_replace_idempotent_witness :
  let h1 := (_search_and_replace scalar_heap (VRef 1%positive) "a.b" (VInt 2)).2 in
  _search_and_replace h1 (VRef 1%positive) "a.b" (VInt 2) = (Ok tt, h1).
Proof.
  intros h1.
  apply (search_and_replace_idempotent scalar_heap (VRef 1%positive) "a.b" (VInt 2) h1).
  - apply acyclic_scalar_heap.
  - vm_compute. reflexivity.
Defined.

(** X5 at the descriptor of the module's script. *)
Lemma consul_provider_unusable_witness :
  ∃ e w1,
    Configuration_init doc_load consul_settings sample_world = (Raise e, w1) ∧
    (∀ self overwrite,
       switch_provider doc_load self consul_settings overwrite sample_world
       = (Raise e, Config consul_settings (_provider self), w1)) ∧
    e = NotImplementedError ∧
    w_heap w1 = w_heap sample_world ∧ w_fs w1 = w_fs sample_world.
Proof.
  apply (consul_provider_unusable doc_load consul_settings sample_world).
  reflexivity.
Defined.

(** X7 at a store with two files: writes through the provider of
    [sample.json] leave [other.json] alone. *)
Lemma writes_touch_source_only_witness :
  (∀ r w2,
     set_val doc_dump doc_load sample_provider "a" (VInt 1) two_files_world = (r, w2) →
     w_fs w2 !! "other.json" = w_fs two_files_world !! "other.json") ∧
  (∀ r w2,
     save_all doc_dump sample_provider two_files_world = (r, w2) →
     w_fs w2 !! "other.json" = w_fs two_files_world !! "other.json").
Proof.
  apply (writes_touch_source_only doc_dump doc_load sample_provider "a" (VInt 1)
           two_files_world "other.json").
  vm_compute. discriminate.
Defined.

(** X8 at a configuration that is a list. *)
Lemma non_mapping_root_witness :
  set_val doc_dump doc_load sample_provider "a" (VInt 1) list_world
    = (Raise TypeError, list_world) ∧
  ("a" ≠ "" → get_val (w_heap list_world) (VRef 1%positive) "a" = VNone).
Proof.
  apply (non_mapping_root doc_dump doc_load sample_provider "a" (VInt 1) list_world).
  reflexivity.
Defined.

(** The tree [{"a": "old"}] has no cycle. *)
Lemma acyclic_two_files_world :
  acyclic (w_heap two_files_world) (VRef 1%positive).
Proof. apply (reify_acyclic 1). vm_compute. eauto. Qed.

(** X9 at the tree [{"a": "old"}], written at [a.b]. *)
Lemma set_val_makes_mappings_witness :
  let res := set_val doc_dump doc_load sample_provider "a.b" (VInt 2) two_files_world in
  is_mapping (w_heap res.2) (get_val (w_heap res.2) (VRef 1%positive) "a") = true.
Proof.
  intros res.
  apply (set_val_makes_mappings doc_dump doc_load sample_provider "a" "b" (VInt 2)
           two_files_world res.2 res.1).
  - done.
  - reflexivity.
  - apply acyclic_two_files_world.
  - apply surjective_pairing.
Defined.


(** X11 at the sample store, whose file holds a document, and a value
    that cannot be serialised: the configuration itself, set at [a]. *)
Lemma value_error_leaves_no_document_witness :
  let w2 := (set_val doc_dump doc_load sample_provider "a" (VRef 1%positive)
               sample_world).2 in
  ∃ w3, import_config doc_load ConfigurationProviderFile sample_settings w2
        = (Ok ReturnedFalse, w3).
Proof.
  intros w2.
  apply (value_error_leaves_no_document doc_dump doc_load sample_provider "a"
           (VRef 1%positive) sample_world w2).
  vm_compute. reflexivity.
Defined.

(** X12 at the load of [sample.json] into the sample store. *)
Lemma loaded_configuration_is_tree_witness :
  let w1 := (import_config doc_load ConfigurationProviderFile sample_settings
               sample_world).2 in
  tree_shaped (w_heap w1) (VRef 2%positive) ∧ acyclic (w_heap w1) (VRef 2%positive).
Proof.
  intros w1.
  apply (loaded_configuration_is_tree doc_load ConfigurationProviderFile
           sample_settings sample_world (VRef 2%positive) w1).
  - apply closed_sample_world.
  - vm_compute. reflexivity.
Defined.

(** The sample store is a tree. *)
Lemma tree_shaped_sample_world : tree_shaped (w_heap sample_world) (VRef 1%positive).
Proof.
  split; [apply closed_sample_world|]. split.
  - intros l [= <-]. by eexists.
  - by apply unshared_empty_dict.
Qed.

(** X13 at the sample store and the path [employee.001.name]. *)
Lemma set_val_keeps_tree_witness :
  let res := set_val doc_dump doc_load sample_provider "employee.001.name"
               (VStr "Bob") sample_world in
  tree_shaped (w_heap res.2) (VRef 1%positive) ∧
  acyclic (w_heap res.2) (VRef 1%positive).
Proof.
  intros res.
  apply (set_val_keeps_tree doc_dump doc_load sample_provider "employee.001.name"
           (VStr "Bob") sample_world res.2 res.1).
  - apply tree_shaped_sample_world.
  - done.
  - apply surjective_pairing.
Defined.

(** X14 at the sample store and the path [employee.001.name]. *)
Lemma set_val_persisted_witness :
  let w2 := (Configuration_set_val doc_dump doc_load sample_configuration
               "employee.001.name" (VStr "Bob") sample_world).2 in
  ∃ self' w3 t,
    Configuration_import_config doc_load sample_configuration w2
      = (Ok VNone, self', w3) ∧
    json_of (w_heap w2) (VStr "Bob") = Some t ∧
    json_of (w_heap w3) (Configuration_get_val self' "employee.001.name" w3) = Some t ∧
    ((∀ l, VStr "Bob" ≠ VRef l) →
     Configuration_get_val self' "employee.001.name" w3 = VStr "Bob").
Proof.
  intros w2.
  apply (set_val_persisted doc_dump doc_load (fun t => eq_refl) sample_configuration
           "employee.001.name" (VStr "Bob") sample_world w2 (VStr "Bob")).
  - done.
  - vm_compute. reflexivity.
Defined.


(** X16 at the file [{"a": "old"}]: setting [b.c] leaves [a] as it was. *)
Lemma set_val_file_frame_witness :
  let w2 := (set_val doc_dump doc_load sample_provider "b.c" (VInt 1)
               two_files_world).2 in
  let w0 := (import_config doc_load ConfigurationProviderFile sample_settings
               two_files_world).2 in
  ∃ c3 w3 t,
    import_config doc_load ConfigurationProviderFile sample_settings w2
      = (Ok (Loaded c3), w3) ∧
    json_of (w_heap w0) (get_val (w_heap w0) (VRef 2%positive) "a") = Some t ∧
    json_of (w_heap w3) (get_val (w_heap w3) c3 "a") = Some t.
Proof.
  intros w2 w0.
  apply (set_val_file_frame doc_dump doc_load (fun t => eq_refl) sample_provider
           "b.c" (VInt 1) two_files_world w0 w2 (VRef 2%positive) (VInt 1) "a").
  - done.
  - done.
  - intros [k Hk]. vm_compute in Hk. discriminate.
  - intros [k Hk]. vm_compute in Hk. discriminate.
  - vm_compute. reflexivity.
  - vm_compute. reflexivity.
Defined.

(** X17 at the sample descriptor and store. *)
Lemma init_then_get_val_witness :
  let w1 := (Configuration_init doc_load sample_source sample_world).2 in
  let c := Config sample_source
             (Provider ConfigurationProviderFile sample_settings (VRef 2%positive)) in
  ∃ settings p f t,
    ds_type sample_source = Some "File" ∧ ds_settings sample_source = Some settings ∧
    settings !! "source" = Some (VStr p) ∧
    w_fs sample_world !! p = Some f ∧ f_readable f = true ∧
    parse doc_load (f_content f) = Some t ∧
    w_fs w1 = w_fs sample_world ∧
    ∀ q, json_of (w_heap w1) (Configuration_get_val c q w1)
         = Some (if decide (q = "") then t else doc_get (split dot q) t).
Proof.
  intros w1 c.
  apply (init_then_get_val doc_load sample_source sample_world w1 c).
  vm_compute. reflexivity.
Defined.
